(** * The edge scheduler of solver-next (scheduler.go)

    A shallow embedding of [Scheduler]: the dispatcher queue ([signal] and
    the dequeue of [loop]), the dispatch step, pipe creation, the merge of
    two edges ([mergeTo]) and the entry of [build].

    Go pointers are handles into stores of the state ([edges], [pipes],
    [nodes]): two occurrences of one handle denote the same object, as two
    copies of one pointer do.  Reading through a handle that is not in its
    store stands for a nil dereference and panics.  The code runs under the
    scheduler's main mutex, so a call is a function from the state before
    to an outcome: a returned value with the state after, or a panic.

    scheduler.go uses three collaborators it does not define: the pipe
    package, the [EdgeFactory] and the [EdgeIndex].  They are modelled from
    their description; the advancement routine [unpark] of an edge is a
    parameter of [dispatch]. *)

From stdpp Require Import gmap strings list fin_maps.

(** ** Handles *)

Abbreviation edge_id := nat (only parsing).   (* *edge *)
Abbreviation pipe_id := nat (only parsing).   (* *edgePipe *)
Abbreviation node_id := nat (only parsing).   (* *dispatcher *)

(** ** Edge descriptors and edges *)

Record VertexOptions := { IgnoreCache : bool }.

(** The methods of the [Vertex] interface the scheduler calls. *)
Record Vertex := { Name : string; Options : VertexOptions }.

(** [Edge]: the descriptor handed to the [EdgeFactory]. *)
Record Edge := { Index : nat; Edge_Vertex : Vertex }.

#[global] Instance VertexOptions_eq_dec : EqDecision VertexOptions.
Proof. solve_decision. Defined.

#[global] Instance Vertex_eq_dec : EqDecision Vertex.
Proof. solve_decision. Defined.

#[global] Instance Edge_eq_dec : EqDecision Edge.
Proof. solve_decision. Defined.

#[global] Instance Edge_countable : Countable Edge.
Proof.
  apply (inj_countable'
           (λ d, (Index d, Name (Edge_Vertex d),
                  IgnoreCache (Options (Edge_Vertex d))))
           (λ t, {| Index := t.1.1;
                    Edge_Vertex := {| Name := t.1.2;
                                      Options := {| IgnoreCache := t.2 |} |} |})).
  by intros [? [? []]].
Defined.

Record CacheKeyWithSelector := { CacheKey : string; Selector : string }.

Record expDep := { index : nat; cacheKey : CacheKeyWithSelector }.

Record CachedResult := { result_ID : string; result_CacheKey : string }.

(** Of [dep], the fields [mergeTo] reads. *)
Record dep := {
  keys : list string;
  slowCacheKey : option string;
  result : option CachedResult
}.

Record CacheMapDep := { dep_Selector : string }.
Record CacheMap := { Deps : list CacheMapDep }.

(** Of [edge], the fields the scheduler reads and writes.  [indexKey] is
    what [currentIndexKey()] answers. *)
Record edge := {
  e_edge : Edge;
  hasActiveOutgoing : bool;
  keysDidChange : bool;
  indexKey : option string;
  deps : list dep;
  cacheMap : CacheMap;
  secondaryExporters : list expDep
}.

Definition edge_IgnoreCache (e : edge) : bool :=
  IgnoreCache (Options (Edge_Vertex (e_edge e))).

Definition set_hasActiveOutgoing (b : bool) (e : edge) : edge :=
  {| e_edge := e_edge e; hasActiveOutgoing := b;
     keysDidChange := keysDidChange e; indexKey := indexKey e;
     deps := deps e; cacheMap := cacheMap e;
     secondaryExporters := secondaryExporters e |}.

Definition set_keysDidChange (b : bool) (e : edge) : edge :=
  {| e_edge := e_edge e; hasActiveOutgoing := hasActiveOutgoing e;
     keysDidChange := b; indexKey := indexKey e;
     deps := deps e; cacheMap := cacheMap e;
     secondaryExporters := secondaryExporters e |}.

Definition append_secondaryExporters (x : list expDep) (e : edge) : edge :=
  {| e_edge := e_edge e; hasActiveOutgoing := hasActiveOutgoing e;
     keysDidChange := keysDidChange e; indexKey := indexKey e;
     deps := deps e; cacheMap := cacheMap e;
     secondaryExporters := secondaryExporters e ++ x |}.

(** ** Pipes *)

Inductive edgeStatusType := edgeStatusInitial | edgeStatusComplete.

Record edgeRequest := { desiredState : edgeStatusType }.

Inductive payload :=
| PayloadEdgeRequest (r : edgeRequest)
| PayloadFunc (f : nat).

Record Request := { Payload : payload; req_Canceled : bool }.

Record Status := {
  Canceled : bool;
  Completed : bool;
  Err : option string;
  Value : option CachedResult
}.

(** The closures the scheduler installs in a pipe's callback slots.  They
    are run by the pipe package, on whichever thread completes a send or a
    receive, not by the code of scheduler.go; what the first two do to the
    scheduler is a call of [signal], an operation on the dispatcher queue
    that may come at any time. *)
Inductive callback :=
| SignalFrom      (* lock p.mu; s.signal(p.From) *)
| SignalTarget    (* lock p.mu; s.signal(p.Target) *)
| BuildWaiter.    (* Receive(); close(wait) once completed *)

(** Modelled from the spec: the [pipe] package (internal/pipe) is not
    part of the sources at hand.  A pipe carries its request, the status on
    the sender side, the status the receiver has observed, an update the
    sender has written and the receiver has not consumed yet, and the two
    callback slots.  [Target], [From] are the fields [edgePipe] adds. *)
Record edgePipe := {
  request : Request;
  senderStatus : Status;
  receiverStatus : Status;
  update : option Status;
  OnSendCompletion : option callback;
  OnReceiveCompletion : option callback;
  Target : option edge_id;
  From : option edge_id
}.

Definition pendingStatus : Status :=
  {| Canceled := false; Completed := false; Err := None; Value := None |}.

(** Modelled from the spec: [pipe.New(request)], a pipe with both sides
    pending. *)
Definition pipe_New (req : Request) (target from : option edge_id) : edgePipe :=
  {| request := req; senderStatus := pendingStatus;
     receiverStatus := pendingStatus; update := None;
     OnSendCompletion := None; OnReceiveCompletion := None;
     Target := target; From := from |}.

Definition set_Target (t : option edge_id) (p : edgePipe) : edgePipe :=
  {| request := request p; senderStatus := senderStatus p;
     receiverStatus := receiverStatus p; update := update p;
     OnSendCompletion := OnSendCompletion p;
     OnReceiveCompletion := OnReceiveCompletion p;
     Target := t; From := From p |}.

Definition set_From (f : option edge_id) (p : edgePipe) : edgePipe :=
  {| request := request p; senderStatus := senderStatus p;
     receiverStatus := receiverStatus p; update := update p;
     OnSendCompletion := OnSendCompletion p;
     OnReceiveCompletion := OnReceiveCompletion p;
     Target := Target p; From := f |}.

Definition set_OnSendCompletion (c : callback) (p : edgePipe) : edgePipe :=
  {| request := request p; senderStatus := senderStatus p;
     receiverStatus := receiverStatus p; update := update p;
     OnSendCompletion := Some c;
     OnReceiveCompletion := OnReceiveCompletion p;
     Target := Target p; From := From p |}.

Definition set_OnReceiveCompletion (c : callback) (p : edgePipe) : edgePipe :=
  {| request := request p; senderStatus := senderStatus p;
     receiverStatus := receiverStatus p; update := update p;
     OnSendCompletion := OnSendCompletion p;
     OnReceiveCompletion := Some c;
     Target := Target p; From := From p |}.

(** Modelled from the spec: [Receiver.Receive()] consumes the pending
    update, if there is one, into the receiver's status. *)
Definition pipe_receive (p : edgePipe) : bool * edgePipe :=
  match update p with
  | Some st =>
      (true,
       {| request := request p; senderStatus := senderStatus p;
          receiverStatus := st; update := None;
          OnSendCompletion := OnSendCompletion p;
          OnReceiveCompletion := OnReceiveCompletion p;
          Target := Target p; From := From p |})
  | None => (false, p)
  end.

(** Modelled from the spec: [Receiver.Cancel()] marks the request
    canceled; a second call changes nothing. *)
Definition pipe_cancel (p : edgePipe) : edgePipe :=
  {| request := {| Payload := Payload (request p); req_Canceled := true |};
     senderStatus := senderStatus p;
     receiverStatus := receiverStatus p; update := update p;
     OnSendCompletion := OnSendCompletion p;
     OnReceiveCompletion := OnReceiveCompletion p;
     Target := Target p; From := From p |}.

(** ** The dispatcher queue's nodes *)

Record dispatcher := { d_next : option node_id; d_e : edge_id }.

(** ** What the scheduler does outside its own fields

    The calls to its collaborators, the operations on the mutex of a pipe
    and the writes that mutex guards, in the order they are made. *)

Inductive event :=
| EvCondSignal                                     (* s.cond.Signal() *)
| EvLock (p : pipe_id)                             (* p.mu.Lock() *)
| EvUnlock (p : pipe_id)                           (* p.mu.Unlock() *)
| EvSetTarget (p : pipe_id) (e : edge_id)          (* p.Target = e *)
| EvSetFrom (p : pipe_id) (e : edge_id)            (* p.From = e *)
| EvReceive (p : pipe_id) (ok : bool)              (* p.Receive() *)
| EvCancel (p : pipe_id)                           (* p.Receiver.Cancel() *)
| EvUnpark (e : edge_id) (inc updates out : list pipe_id)
| EvLoadOrStore (k : string) (e : edge_id) (orig : option edge_id)
| EvSetEdge (d : Edge) (e : edge_id)               (* s.ef.SetEdge(d, e) *)
| EvGo (p : pipe_id).                              (* go start() *)

(** ** The state: the [Scheduler] struct and the objects it points to *)

Record World := {
  (* Scheduler; [q_next], [q_last] are its fields next and last *)
  ef : gmap Edge edge_id;
  waitq : gset edge_id;
  q_next : option node_id;
  q_last : option node_id;
  stopped : bool;
  closed : bool;
  incoming : gmap edge_id (list pipe_id);
  outgoing : gmap edge_id (list pipe_id);
  (* the objects behind the handles *)
  nodes : gmap node_id dispatcher;
  edges : gmap edge_id edge;
  pipes : gmap pipe_id edgePipe;
  (* the process-wide EdgeIndex *)
  eindex : gmap string edge_id;
  (* the calls made so far *)
  log : list event
}.

Definition with_ef (x : gmap Edge edge_id) (w : World) : World :=
  {| ef := x; waitq := waitq w; q_next := q_next w; q_last := q_last w;
     stopped := stopped w; closed := closed w; incoming := incoming w;
     outgoing := outgoing w; nodes := nodes w; edges := edges w;
     pipes := pipes w; eindex := eindex w; log := log w |}.
Definition with_waitq (x : gset edge_id) (w : World) : World :=
  {| ef := ef w; waitq := x; q_next := q_next w; q_last := q_last w;
     stopped := stopped w; closed := closed w; incoming := incoming w;
     outgoing := outgoing w; nodes := nodes w; edges := edges w;
     pipes := pipes w; eindex := eindex w; log := log w |}.
Definition with_q_next (x : option node_id) (w : World) : World :=
  {| ef := ef w; waitq := waitq w; q_next := x; q_last := q_last w;
     stopped := stopped w; closed := closed w; incoming := incoming w;
     outgoing := outgoing w; nodes := nodes w; edges := edges w;
     pipes := pipes w; eindex := eindex w; log := log w |}.
Definition with_q_last (x : option node_id) (w : World) : World :=
  {| ef := ef w; waitq := waitq w; q_next := q_next w; q_last := x;
     stopped := stopped w; closed := closed w; incoming := incoming w;
     outgoing := outgoing w; nodes := nodes w; edges := edges w;
     pipes := pipes w; eindex := eindex w; log := log w |}.
Definition with_stopped (x : bool) (w : World) : World :=
  {| ef := ef w; waitq := waitq w; q_next := q_next w; q_last := q_last w;
     stopped := x; closed := closed w; incoming := incoming w;
     outgoing := outgoing w; nodes := nodes w; edges := edges w;
     pipes := pipes w; eindex := eindex w; log := log w |}.
Definition with_closed (x : bool) (w : World) : World :=
  {| ef := ef w; waitq := waitq w; q_next := q_next w; q_last := q_last w;
     stopped := stopped w; closed := x; incoming := incoming w;
     outgoing := outgoing w; nodes := nodes w; edges := edges w;
     pipes := pipes w; eindex := eindex w; log := log w |}.
Definition with_incoming (x : gmap edge_id (list pipe_id)) (w : World) : World :=
  {| ef := ef w; waitq := waitq w; q_next := q_next w; q_last := q_last w;
     stopped := stopped w; closed := closed w; incoming := x;
     outgoing := outgoing w; nodes := nodes w; edges := edges w;
     pipes := pipes w; eindex := eindex w; log := log w |}.
Definition with_outgoing (x : gmap edge_id (list pipe_id)) (w : World) : World :=
  {| ef := ef w; waitq := waitq w; q_next := q_next w; q_last := q_last w;
     stopped := stopped w; closed := closed w; incoming := incoming w;
     outgoing := x; nodes := nodes w; edges := edges w; pipes := pipes w;
     eindex := eindex w; log := log w |}.
Definition with_nodes (x : gmap node_id dispatcher) (w : World) : World :=
  {| ef := ef w; waitq := waitq w; q_next := q_next w; q_last := q_last w;
     stopped := stopped w; closed := closed w; incoming := incoming w;
     outgoing := outgoing w; nodes := x; edges := edges w; pipes := pipes w;
     eindex := eindex w; log := log w |}.
Definition with_edges (x : gmap edge_id edge) (w : World) : World :=
  {| ef := ef w; waitq := waitq w; q_next := q_next w; q_last := q_last w;
     stopped := stopped w; closed := closed w; incoming := incoming w;
     outgoing := outgoing w; nodes := nodes w; edges := x; pipes := pipes w;
     eindex := eindex w; log := log w |}.
Definition with_pipes (x : gmap pipe_id edgePipe) (w : World) : World :=
  {| ef := ef w; waitq := waitq w; q_next := q_next w; q_last := q_last w;
     stopped := stopped w; closed := closed w; incoming := incoming w;
     outgoing := outgoing w; nodes := nodes w; edges := edges w; pipes := x;
     eindex := eindex w; log := log w |}.
Definition with_eindex (x : gmap string edge_id) (w : World) : World :=
  {| ef := ef w; waitq := waitq w; q_next := q_next w; q_last := q_last w;
     stopped := stopped w; closed := closed w; incoming := incoming w;
     outgoing := outgoing w; nodes := nodes w; edges := edges w;
     pipes := pipes w; eindex := x; log := log w |}.
Definition with_log (x : list event) (w : World) : World :=
  {| ef := ef w; waitq := waitq w; q_next := q_next w; q_last := q_last w;
     stopped := stopped w; closed := closed w; incoming := incoming w;
     outgoing := outgoing w; nodes := nodes w; edges := edges w;
     pipes := pipes w; eindex := eindex w; log := x |}.

Arguments with_ef _ _ /.
Arguments with_waitq _ _ /.
Arguments with_q_next _ _ /.
Arguments with_q_last _ _ /.
Arguments with_stopped _ _ /.
Arguments with_closed _ _ /.
Arguments with_incoming _ _ /.
Arguments with_outgoing _ _ /.
Arguments with_nodes _ _ /.
Arguments with_edges _ _ /.
Arguments with_pipes _ _ /.
Arguments with_eindex _ _ /.
Arguments with_log _ _ /.

(** ** Outcomes and the monad of scheduler code *)

Inductive Outcome (A : Type) :=
| Returned (a : A) (w : World)
| Panic (msg : string).
Arguments Returned {A} a w.
Arguments Panic {A} msg.

Definition M (A : Type) : Type := World → Outcome A.

#[global] Instance M_ret : MRet M := λ A a w, Returned a w.
#[global] Instance M_bind : MBind M := λ A B k m w,
  match m w with
  | Returned a w' => k a w'
  | Panic msg => Panic msg
  end.

Definition panic {A} (msg : string) : M A := λ _, Panic msg.
Definition get : M World := λ w, Returned w w.
Definition modify (f : World → World) : M unit := λ w, Returned tt (f w).
Definition emit (ev : event) : M unit := modify (λ w, with_log (log w ++ [ev]) w).

Definition nil_dereference : string := "invalid memory address or nil pointer dereference"%string.
Definition index_out_of_range : string := "index out of range"%string.

Definition get_edge (e : edge_id) : M edge := λ w,
  match edges w !! e with
  | Some x => Returned x w
  | None => Panic nil_dereference
  end.

Definition update_edge (e : edge_id) (f : edge → edge) : M unit :=
  x ← get_edge e; modify (λ w, with_edges (<[e := f x]> (edges w)) w).

Definition get_pipe (p : pipe_id) : M edgePipe := λ w,
  match pipes w !! p with
  | Some x => Returned x w
  | None => Panic nil_dereference
  end.

Definition update_pipe (p : pipe_id) (f : edgePipe → edgePipe) : M unit :=
  x ← get_pipe p; modify (λ w, with_pipes (<[p := f x]> (pipes w)) w).

Definition get_node (n : node_id) : M dispatcher := λ w,
  match nodes w !! n with
  | Some x => Returned x w
  | None => Panic nil_dereference
  end.

(** [for _, x := range l { body x }] *)
Fixpoint for_range {A} (l : list A) (body : A → M unit) : M unit :=
  match l with
  | [] => mret tt
  | x :: l' => body x;; for_range l' body
  end.

(** Reading a Go map of slices: a missing key reads as the nil slice. *)
Definition slice_at (m : gmap edge_id (list pipe_id)) (e : edge_id) : list pipe_id :=
  default [] (m !! e).

(** ** The receiver and sender sides of a pipe *)

Definition Receive (p : pipe_id) : M bool :=
  x ← get_pipe p;
  let '(ok, x') := pipe_receive x in
  modify (λ w, with_pipes (<[p := x']> (pipes w)) w);;
  emit (EvReceive p ok);;
  mret ok.

Definition Receiver_Status (p : pipe_id) : M Status :=
  x ← get_pipe p; mret (receiverStatus x).

Definition Sender_Status (p : pipe_id) : M Status :=
  x ← get_pipe p; mret (senderStatus x).

Definition Cancel (p : pipe_id) : M unit :=
  update_pipe p pipe_cancel;; emit (EvCancel p).

(** Modelled from the spec: what the sender side writes when it answers
    with the status [st]: its own status is [st] at once, the receiver
    observes it at its next [Receive]. *)
Definition pipe_send (st : Status) (p : edgePipe) : edgePipe :=
  {| request := request p; senderStatus := st;
     receiverStatus := receiverStatus p; update := Some st;
     OnSendCompletion := OnSendCompletion p;
     OnReceiveCompletion := OnReceiveCompletion p;
     Target := Target p; From := From p |}.

(** ** NewScheduler *)

Definition NewScheduler (factory : gmap Edge edge_id) (es : gmap edge_id edge)
    (idx : gmap string edge_id) : World :=
  {| ef := factory; waitq := ∅; q_next := None; q_last := None;
     stopped := false; closed := false; incoming := ∅; outgoing := ∅;
     nodes := ∅; edges := es; pipes := ∅; eindex := idx; log := [] |}.

(** ** signal (scheduler.go, lines 181-195) *)

Definition signal (e : edge_id) : M unit :=
  w ← get;
  if decide (e ∈ waitq w) then mret tt
  else
    let d := fresh (dom (nodes w)) in
    modify (λ w, with_nodes (<[d := {| d_next := None; d_e := e |}]> (nodes w)) w);;
    match q_last w with
    | None => modify (with_q_next (Some d))
    | Some l =>
        n ← get_node l;
        modify (λ w, with_nodes
                       (<[l := {| d_next := Some d; d_e := d_e n |}]> (nodes w)) w)
    end;;
    modify (with_q_last (Some d));;
    modify (λ w, with_waitq ({[e]} ∪ waitq w) w);;
    emit EvCondSignal.

(** ** The dequeue of loop (scheduler.go, lines 83-92) *)

Definition dequeue : M (option edge_id) :=
  w ← get;
  match q_next w with
  | None => mret None
  | Some l =>
      n ← get_node l;
      (if decide (q_last w = Some l) then modify (with_q_last None) else mret tt);;
      modify (with_q_next (d_next n));;
      modify (λ w, with_waitq (waitq w ∖ {[d_e n]}) w);;
      mret (Some (d_e n))
  end.

(** ** The dispatcher queue as a list *)

(** [chain h i e l j]: in the node store [h], node [i] holds edge [e] and
    is followed by nodes holding the edges of [l]; the chain ends at node
    [j], whose [next] is nil. *)
Fixpoint chain (h : gmap node_id dispatcher) (i : node_id) (e : edge_id)
    (l : list edge_id) (j : node_id) : Prop :=
  match l with
  | [] => h !! i = Some {| d_next := None; d_e := e |} ∧ i = j
  | e' :: l' =>
      ∃ i', h !! i = Some {| d_next := Some i'; d_e := e |} ∧ chain h i' e' l' j
  end.

(** [is_queue w l]: the linked list from [s.next] to [s.last] holds the
    edges [l], head first. *)
Definition is_queue (w : World) (l : list edge_id) : Prop :=
  match l with
  | [] => q_next w = None ∧ q_last w = None
  | e :: l' =>
      ∃ i j, q_next w = Some i ∧ q_last w = Some j ∧ chain (nodes w) i e l' j
  end.

(** The invariant of the queue: its edges are pairwise distinct and are
    the members of [waitq]. *)
Definition queue_inv (w : World) (l : list edge_id) : Prop :=
  is_queue w l ∧ NoDup l ∧ ∀ e, e ∈ waitq w ↔ e ∈ l.

(** [signal e] called [n] times in a row. *)
Fixpoint signal_times (n : nat) (e : edge_id) : M unit :=
  match n with
  | 0 => mret tt
  | S n' => signal e;; signal_times n' e
  end.

(** ** newPipe (scheduler.go, lines 235-258) *)

Definition append_incoming (e : edge_id) (p : pipe_id) (w : World) : World :=
  with_incoming (<[e := slice_at (incoming w) e ++ [p]]> (incoming w)) w.

Definition append_outgoing (e : edge_id) (p : pipe_id) (w : World) : World :=
  with_outgoing (<[e := slice_at (outgoing w) e ++ [p]]> (outgoing w)) w.

Definition newPipe (target : edge_id) (from : option edge_id) (req : Request)
    : M pipe_id :=
  w ← get;
  let p := fresh (dom (pipes w)) in
  modify (λ w, with_pipes (<[p := pipe_New req (Some target) from]> (pipes w)) w);;
  signal target;;
  match from with
  | Some f =>
      update_pipe p (set_OnSendCompletion SignalFrom);;
      modify (append_outgoing f p)
  | None => mret tt
  end;;
  modify (append_incoming target p);;
  update_pipe p (set_OnReceiveCompletion SignalTarget);;
  mret p.

(** ** newRequestWithFunc (scheduler.go, lines 261-275) *)

Definition newRequestWithFunc (e : edge_id) (f : nat) : M pipe_id :=
  w ← get;
  let p := fresh (dom (pipes w)) in
  modify (λ w, with_pipes
                 (<[p := pipe_New {| Payload := PayloadFunc f; req_Canceled := false |}
                                  None (Some e)]> (pipes w)) w);;
  update_pipe p (set_OnSendCompletion SignalFrom);;
  modify (append_outgoing e p);;
  emit (EvGo p);;
  mret p.

(** ** mergeTo (scheduler.go, lines 278-316) *)

(** Lines 279-281: [!target...IgnoreCache && src...IgnoreCache], with the
    short circuit of [&&]. *)
Definition merge_refused (target src : edge_id) : M bool :=
  t ← get_edge target;
  if edge_IgnoreCache t then mret false
  else s ← get_edge src; mret (edge_IgnoreCache s).

(** Lines 282-287. *)
Definition merge_incoming_body (target : edge_id) (inc : pipe_id) : M unit :=
  emit (EvLock inc);;
  update_pipe inc (set_Target (Some target));;
  emit (EvSetTarget inc target);;
  modify (append_incoming target inc);;
  emit (EvUnlock inc).

Definition merge_incoming (target src : edge_id) : M unit :=
  w ← get;
  for_range (slice_at (incoming w) src) (merge_incoming_body target).

(** Lines 289-295. *)
Definition merge_outgoing_body (target : edge_id) (out : pipe_id) : M unit :=
  emit (EvLock out);;
  update_pipe out (set_From (Some target));;
  emit (EvSetFrom out target);;
  modify (append_outgoing target out);;
  emit (EvUnlock out);;
  Cancel out.

Definition merge_outgoing (target src : edge_id) : M unit :=
  w ← get;
  for_range (slice_at (outgoing w) src) (merge_outgoing_body target).

(** [src.cacheMap.Deps[i].Selector] *)
Definition selector_at (src : edge_id) (i : nat) : M string :=
  s ← get_edge src;
  match Deps (cacheMap s) !! i with
  | Some cd => mret (dep_Selector cd)
  | None => panic index_out_of_range
  end.

(** [expDep{i, CacheKeyWithSelector{CacheKey: k, Selector: sel}}] *)
Definition exporter (i : nat) (sel k : string) : expDep :=
  {| index := i; cacheKey := {| CacheKey := k; Selector := sel |} |}.

(** [target.secondaryExporters = append(target.secondaryExporters, x)] *)
Definition push_exporter (target : edge_id) (x : expDep) : M unit :=
  update_edge target (append_secondaryExporters [x]).

(** Lines 302-310, the body of the loop over [src.deps].  The literal of
    line 306 names no selector, so it carries the zero value. *)
Definition merge_exporters_body (target src : edge_id) (id : nat * dep) : M unit :=
  let '(i, d) := id in
  for_range (keys d) (λ k,
    sel ← selector_at src i;
    push_exporter target (exporter i sel k));;
  match slowCacheKey d with
  | Some k => push_exporter target (exporter i EmptyString k)
  | None => mret tt
  end;;
  match result d with
  | Some r =>
      sel ← selector_at src i;
      push_exporter target (exporter i sel (result_CacheKey r))
  | None => mret tt
  end.

(** [for i, d := range ds]: the elements with their positions. *)
Definition enumerate {A} (l : list A) : list (nat * A) := zip (seq 0 (length l)) l.

(** Lines 301-311. *)
Definition merge_exporters (target src : edge_id) : M unit :=
  s ← get_edge src;
  for_range (enumerate (deps s)) (merge_exporters_body target src).

(** Lines 282-315: the merge itself. *)
Definition merge_transfer (target src : edge_id) : M bool :=
  merge_incoming target src;;
  merge_outgoing target src;;
  modify (λ w, with_incoming (delete src (incoming w)) w);;
  modify (λ w, with_outgoing (delete src (outgoing w)) w);;
  signal target;;
  merge_exporters target src;;
  mret true.

Definition mergeTo (target src : edge_id) : M bool :=
  refused ← merge_refused target src;
  if (refused : bool) then mret false
  else merge_transfer target src.

(** ** The collaborators of the scheduler *)

(** Modelled from the spec: the [EdgeFactory] interface has no
    implementation in scheduler.go.  [GetEdge(descriptor)] answers an edge
    or none; [SetEdge(descriptor, edge)] installs a redirect. *)
Definition GetEdge (d : Edge) : M (option edge_id) :=
  w ← get; mret (ef w !! d).

Definition SetEdge (d : Edge) (e : edge_id) : M unit :=
  modify (λ w, with_ef (<[d := e]> (ef w)) w);; emit (EvSetEdge d e).

(** Modelled from the spec: [index.LoadOrStore(key, edge)] of the
    [EdgeIndex], which is not in scheduler.go: a compare-and-insert on a
    registry from keys to edges, answering the edge already registered for
    the key when it is a different edge, and none otherwise. *)
Definition LoadOrStore (k : string) (e : edge_id) : M (option edge_id) :=
  w ← get;
  match eindex w !! k with
  | Some o =>
      let r := if decide (o = e) then None else Some o in
      emit (EvLoadOrStore k e r);; mret r
  | None =>
      modify (λ w, with_eindex (<[k := e]> (eindex w)) w);;
      emit (EvLoadOrStore k e None);; mret None
  end.

(** Modelled from the spec: [e.currentIndexKey()], a method of [edge]
    defined outside scheduler.go, answers the current index key of the edge
    or none. *)
Definition currentIndexKey (e : edge_id) : M (option string) :=
  x ← get_edge e; mret (indexKey x).

(** ** pipeFactory (scheduler.go, lines 324-347) *)

Definition NewInputRequest (pf_e : edge_id) (ee : Edge) (req : edgeRequest)
    : M pipe_id :=
  target ← GetEdge ee;
  match target with
  | None => panic "failed to get edge"
  | Some t =>
      newPipe t (Some pf_e)
        {| Payload := PayloadEdgeRequest req; req_Canceled := false |}
  end.

Definition NewFuncRequest (pf_e : edge_id) (f : nat) : M pipe_id :=
  newRequestWithFunc pf_e f.

(** ** dispatch (scheduler.go, lines 102-178) *)

(** Lines 103-110: [inc[i] = p.Sender], [out[i] = p.Receiver]. *)
Definition snapshot (l : list pipe_id) : M (list pipe_id) :=
  for_range l (λ p, get_pipe p;; mret tt);; mret l.

(** Lines 114-121, with [updates] as accumulator. *)
Fixpoint receive_updates (e : edge_id) (out updates : list pipe_id)
    : M (list pipe_id) :=
  match out with
  | [] => mret updates
  | p :: out' =>
      ok ← Receive p;
      let updates := if (ok : bool) then updates ++ [p] else updates in
      st ← Receiver_Status p;
      (if negb (Completed st) then update_edge e (set_hasActiveOutgoing true)
       else mret tt);;
      receive_updates e out' updates
  end.

(** The loops of lines 130-134 and 142-146: the entries [status] reports
    as not completed. *)
Fixpoint open_pipes (status : pipe_id → M Status) (l : list pipe_id)
    : M (list pipe_id) :=
  match l with
  | [] => mret []
  | r :: l' =>
      st ← status r;
      rest ← open_pipes status l';
      mret (if negb (Completed st) then r :: rest else (rest : list pipe_id))
  end.

(** Lines 129-139. *)
Definition prune_incoming (e : edge_id) : M (list pipe_id) :=
  w ← get;
  openIncoming ← open_pipes Sender_Status (slice_at (incoming w) e);
  (if bool_decide (0 < length openIncoming)
   then modify (λ w, with_incoming (<[e := openIncoming]> (incoming w)) w)
   else modify (λ w, with_incoming (delete e (incoming w)) w));;
  mret openIncoming.

(** Lines 141-151. *)
Definition prune_outgoing (e : edge_id) : M (list pipe_id) :=
  w ← get;
  openOutgoing ← open_pipes Receiver_Status (slice_at (outgoing w) e);
  (if bool_decide (0 < length openOutgoing)
   then modify (λ w, with_outgoing (<[e := openOutgoing]> (outgoing w)) w)
   else modify (λ w, with_outgoing (delete e (outgoing w)) w));;
  mret openOutgoing.

(** Lines 129-151. *)
Definition prune (e : edge_id) : M (list pipe_id * list pipe_id) :=
  openIncoming ← prune_incoming e;
  openOutgoing ← prune_outgoing e;
  mret (openIncoming, openOutgoing).

(** Lines 154-166. *)
Definition merge_on_key_change (e : edge_id) : M unit :=
  x ← get_edge e;
  if keysDidChange x then
    k ← currentIndexKey e;
    match k with
    | Some k =>
        origEdge ← LoadOrStore k e;
        match origEdge with
        | Some o =>
            merged ← mergeTo o e;
            if (merged : bool) then x ← get_edge e; SetEdge (e_edge x) o else mret tt
        | None => mret tt
        end
    | None => mret tt
    end;;
    update_edge e (set_keysDidChange false)
  else mret tt.

(** Lines 172-177. *)
Definition validate (openIncoming openOutgoing : list pipe_id) : M unit :=
  if bool_decide (0 < length openIncoming) && bool_decide (length openOutgoing = 0)
  then panic "invalid dispatch: return leaving incoming open"
  else if bool_decide (length openIncoming = 0) && bool_decide (0 < length openOutgoing)
  then panic "invalid dispatch: return leaving outgoing open"
  else mret tt.

Section dispatch.

(** [e.unpark(inc, updates, out, pf)]: the advancement routine of the
    edge, which the scheduler does not define.  It acts on the state
    through the pipes it is handed and the pipe factory. *)
Variable unpark : edge_id → list pipe_id → list pipe_id → list pipe_id → M unit.

(** Lines 103-121: what happens before [unpark] is called. *)
Definition dispatch_receive (e : edge_id)
    : M (list pipe_id * list pipe_id * list pipe_id) :=
  w ← get;
  inc ← snapshot (slice_at (incoming w) e);
  out ← snapshot (slice_at (outgoing w) e);
  update_edge e (set_hasActiveOutgoing false);;
  updates ← receive_updates e out [];
  mret (inc, updates, out).

(** Lines 103-151: up to the end of the prune; the result is
    [(openIncoming, openOutgoing)]. *)
Definition dispatch_prune (e : edge_id) : M (list pipe_id * list pipe_id) :=
  '(inc, updates, out) ← dispatch_receive e;
  emit (EvUnpark e inc updates out);;
  unpark e inc updates out;;
  prune e.

Definition dispatch (e : edge_id) : M unit :=
  '(openIncoming, openOutgoing) ← dispatch_prune e;
  merge_on_key_change e;;
  validate openIncoming openOutgoing.

(** ** loop (scheduler.go, lines 76-98), one turn *)

Inductive turn := Exited | Waiting | Dispatched (e : edge_id).

Definition loop_turn : M turn :=
  w ← get;
  if stopped w then modify (with_closed true);; mret Exited
  else
    l ← dequeue;
    match l with
    | None => mret Waiting
    | Some e => dispatch e;; mret (Dispatched e)
    end.

End dispatch.

(** ** Stop (scheduler.go, lines 56-61), up to the wait for [closed] *)

Definition Stop : M unit := modify (with_stopped true).

(** ** build (scheduler.go, lines 198-232) *)

Record Context := { ctx_Done : bool }.

Inductive error :=
| Errorf_invalid_request (edge : Edge)   (* "invalid request %v for build" *)
| StatusErr (msg : string).

(** [build] either returns at once or has to wait for its root pipe. *)
Inductive build_state :=
| BuildReturned (res : option CachedResult) (err : option error)
| BuildWaiting (p : pipe_id).

(** Lines 199-216: up to the release of the main mutex. *)
Definition build (ctx : Context) (edge : Edge) : M build_state :=
  e ← GetEdge edge;
  match e with
  | None => mret (BuildReturned None (Some (Errorf_invalid_request edge)))
  | Some e =>
      p ← newPipe e None
            {| Payload := PayloadEdgeRequest {| desiredState := edgeStatusComplete |};
               req_Canceled := false |};
      update_pipe p (set_OnSendCompletion BuildWaiter);;
      mret (BuildWaiting p)
  end.

(** Lines 228-231: after [wait] has been closed. *)
Definition build_resume (p : pipe_id) : M build_state :=
  st ← Receiver_Status p;
  match Err st with
  | Some err => mret (BuildReturned None (Some (StatusErr err)))
  | None =>
      match Value st with
      | Some v => mret (BuildReturned (Some v) None)
      | None => panic nil_dereference
      end
  end.

(** ** The operations on the dispatcher queue *)

Inductive queue_op :=
| OpSignal (e : edge_id)   (* s.signal(e), from any party *)
| OpDequeue.               (* the dequeue of the run loop *)

Definition run_queue_op (op : queue_op) : M unit :=
  match op with
  | OpSignal e => signal e
  | OpDequeue => dequeue;; mret tt
  end.

(** ** What the loops compute, in closed form *)

(** [f] applied to the objects behind the handles of [l]. *)
Definition alter_all {A} (f : A → A) (l : list nat) (m : gmap nat A) : gmap nat A :=
  foldl (λ m p, alter f p m) m l.

(** The handles of [l] appended, one by one, to the slice at key [t]. *)
Definition extend (t : edge_id) (l : list pipe_id) (m : gmap edge_id (list pipe_id))
    : gmap edge_id (list pipe_id) :=
  foldl (λ m p, <[t := slice_at m t ++ [p]]> m) m l.

Definition retarget (target : edge_id) : edgePipe → edgePipe :=
  set_Target (Some target).

Definition refrom (target : edge_id) (p : edgePipe) : edgePipe :=
  pipe_cancel (set_From (Some target) p).

Definition merge_incoming_events (target : edge_id) (p : pipe_id) : list event :=
  [EvLock p; EvSetTarget p target; EvUnlock p].

Definition merge_outgoing_events (target : edge_id) (p : pipe_id) : list event :=
  [EvLock p; EvSetFrom p target; EvUnlock p; EvCancel p].

(** The exporters one dependency of the merged edge contributes: its direct
    keys and the key of its result with the selector [sel] of the
    dependency, its slow-cache key with the zero selector. *)
Definition dep_exporters (sel : string) (i : nat) (d : dep) : list expDep :=
  (exporter i sel <$> keys d)
  ++ match slowCacheKey d with
     | Some k => [exporter i EmptyString k]
     | None => []
     end
  ++ match result d with
     | Some r => [exporter i sel (result_CacheKey r)]
     | None => []
     end.

Definition selector_of (cm : CacheMap) (i : nat) : string :=
  default EmptyString (dep_Selector <$> Deps cm !! i).

Definition exporters_from (cm : CacheMap) (l : list (nat * dep)) : list expDep :=
  flat_map (λ id, dep_exporters (selector_of cm id.1) id.1 id.2) l.

(** What [mergeTo] appends to the exporters of the target, from the
    dependencies [ds] and the cache map [cm] of the merged edge. *)
Definition merged_exporters (ds : list dep) (cm : CacheMap) : list expDep :=
  exporters_from cm (enumerate ds).

(** A dependency needs its selector when it has a direct key or a result. *)
Definition needs_selector (d : dep) : bool :=
  negb (bool_decide (keys d = [])) || bool_decide (is_Some (result d)).

(** After [Receive], the receiver side of a pipe. *)
Definition received (p : edgePipe) : edgePipe := (pipe_receive p).2.

Definition has_update (P : gmap pipe_id edgePipe) (p : pipe_id) : bool :=
  match P !! p with
  | Some x => bool_decide (is_Some (update x))
  | None => false
  end.

Definition receiver_open (P : gmap pipe_id edgePipe) (p : pipe_id) : bool :=
  match P !! p with
  | Some x => negb (Completed (receiverStatus x))
  | None => false
  end.

Definition sender_open (P : gmap pipe_id edgePipe) (p : pipe_id) : bool :=
  match P !! p with
  | Some x => negb (Completed (senderStatus x))
  | None => false
  end.

(** The receiver of [p] is not completed once [p] has been received. *)
Definition open_after_receive (P : gmap pipe_id edgePipe) (p : pipe_id) : bool :=
  match P !! p with
  | Some x => negb (Completed (receiverStatus (received x)))
  | None => false
  end.

(** What [LoadOrStore k e] answers on the registry [idx]. *)
Definition load_or_store (idx : gmap string edge_id) (k : string) (e : edge_id)
    : option edge_id :=
  match idx !! k with
  | Some o => if decide (o = e) then None else Some o
  | None => None
  end.

(** [e.keysDidChange = false] on the edge [x] behind [e]. *)
Definition clear_keysDidChange (e : edge_id) (x : edge) (w : World) : World :=
  with_edges (<[e := set_keysDidChange false x]> (edges w)) w.

(** A Go slice as a map entry: the nil slice is the absent entry. *)
Definition entry (l : list pipe_id) : option (list pipe_id) :=
  match l with [] => None | _ => Some l end.

Definition allocated (w : World) (l : list pipe_id) : Prop :=
  Forall (λ p, is_Some (pipes w !! p)) l.

Definition outcome_world {A} (o : Outcome A) (w : World) : World :=
  match o with Returned _ w' => w' | Panic _ => w end.

(** The state [w0] with the exporters [X] appended to those of [t], the
    edge behind [target]. *)
Definition exported (w0 : World) (target : edge_id) (t : edge) (X : list expDep)
    : World :=
  with_edges (<[target := append_secondaryExporters X t]> (edges w0)) w0.

Definition is_SetEdge (ev : event) : bool :=
  match ev with EvSetEdge _ _ => true | _ => false end.

(** ** A concrete scheduler

    Three edges a, b, c behind the handles 1, 2, 3; b has a dependency with
    two direct keys, a slow-cache key and a result, and an exporter it
    inherited earlier.  A build of b, an input request of b to c and a
    function request of b have been made. *)

Definition ex_vertex (name : string) (ignoreCache : bool) : Vertex :=
  {| Name := name; Options := {| IgnoreCache := ignoreCache |} |}.

Definition ex_dA : Edge := {| Index := 0; Edge_Vertex := ex_vertex "a" false |}.
Definition ex_dB : Edge := {| Index := 0; Edge_Vertex := ex_vertex "b" false |}.
Definition ex_dC : Edge := {| Index := 0; Edge_Vertex := ex_vertex "c" true |}.
Definition ex_dD : Edge := {| Index := 1; Edge_Vertex := ex_vertex "d" false |}.

Definition ex_dep : dep :=
  {| keys := ["k1"; "k2"]%string; slowCacheKey := Some "slow"%string;
     result := Some {| result_ID := "r"; result_CacheKey := "rk" |} |}.

Definition ex_edge (d : Edge) (changed : bool) (ds : list dep)
    (sels : list string) (exps : list expDep) : edge :=
  {| e_edge := d; hasActiveOutgoing := false; keysDidChange := changed;
     indexKey := Some "k"%string; deps := ds;
     cacheMap := {| Deps := (λ s, {| dep_Selector := s |}) <$> sels |};
     secondaryExporters := exps |}.

Definition ex_eA : edge := ex_edge ex_dA false [] [] [].
Definition ex_eB : edge :=
  ex_edge ex_dB true [ex_dep] ["sel"%string] [exporter 7 "old"%string "inherited"%string].
Definition ex_eC : edge := ex_edge ex_dC false [] [] [].

Definition ex_start : World :=
  NewScheduler {[ ex_dA := 1; ex_dB := 2; ex_dC := 3 ]}
               {[ 1 := ex_eA; 2 := ex_eB; 3 := ex_eC ]}
               {[ "k"%string := 1 ]}.

Definition ex_requests : M unit :=
  build {| ctx_Done := false |} ex_dB;;
  NewInputRequest 2 ex_dC {| desiredState := edgeStatusComplete |};;
  NewFuncRequest 2 0;;
  mret tt.

Definition ex_world : World := outcome_world (ex_requests ex_start) ex_start.

(** The edges c and a have been signalled, in this order. *)
Definition ex_queued : World := outcome_world ((signal 3;; signal 1) ex_start) ex_start.

(** The edge c has answered the input request of b with a result ... *)
Definition ex_answer : Status :=
  {| Canceled := false; Completed := true; Err := None;
     Value := Some {| result_ID := "c"; result_CacheKey := "ck" |} |}.

Definition ex_answered : World :=
  with_pipes (alter (pipe_send ex_answer) 1 (pipes ex_world)) ex_world.

(** ... and b has received the answer. *)
Definition ex_received : World := outcome_world (Receive 1 ex_answered) ex_answered.

(** An [unpark] that leaves everything as it is. *)
Definition ex_unpark (e : edge_id) (inc updates out : list pipe_id) : M unit :=
  mret tt.

(** ** Well-formed states *)

(** The queue after [signal e]: [e] is appended unless it is queued. *)
Definition enqueue (l : list edge_id) (e : edge_id) : list edge_id :=
  if decide (e ∈ l) then l else l ++ [e].

(** The queue after the signals [es], made in this order. *)
Definition enqueue_all (l es : list edge_id) : list edge_id := foldl enqueue l es.

(** The dequeue of the run loop, [n] times or until the queue is empty; the
    edges it answers, in order. *)
Fixpoint drain (n : nat) : M (list edge_id) :=
  match n with
  | 0 => mret []
  | S n' =>
      o ← dequeue;
      match o with
      | None => mret []
      | Some e => rest ← drain n'; mret (e :: rest)
      end
  end.

(** [wired w]: every pipe of [incoming[e]] exists and has [e] as its
    [Target], every pipe of [outgoing[e]] exists and has [e] as its [From],
    and no pipe occurs twice in a slice. *)
Definition wired (w : World) : Prop :=
  (∀ e p, p ∈ slice_at (incoming w) e →
          ∃ x, pipes w !! p = Some x ∧ Target x = Some e) ∧
  (∀ e p, p ∈ slice_at (outgoing w) e →
          ∃ x, pipes w !! p = Some x ∧ From x = Some e) ∧
  (∀ e, NoDup (slice_at (incoming w) e)) ∧
  (∀ e, NoDup (slice_at (outgoing w) e)).

(** The pipe [newPipe target from req] creates, in its final state. *)
Definition new_edgePipe (target : edge_id) (from : option edge_id) (req : Request)
    : edgePipe :=
  {| request := req; senderStatus := pendingStatus;
     receiverStatus := pendingStatus; update := None;
     OnSendCompletion := match from with Some _ => Some SignalFrom | None => None end;
     OnReceiveCompletion := Some SignalTarget;
     Target := Some target; From := from |}.

(** The pipe [newRequestWithFunc e f] creates. *)
Definition new_funcPipe (e : edge_id) (f : nat) : edgePipe :=
  {| request := {| Payload := PayloadFunc f; req_Canceled := false |};
     senderStatus := pendingStatus; receiverStatus := pendingStatus;
     update := None; OnSendCompletion := Some SignalFrom;
     OnReceiveCompletion := None; Target := None; From := Some e |}.

(** A dependency at position [id.1] that needs a selector the cache map
    [cm] does not have. *)
Definition selector_missing (cm : CacheMap) (id : nat * dep) : bool :=
  needs_selector id.2 && bool_decide (Deps cm !! id.1 = None).

(** [well_formed w]: the pipes are wired and the dispatcher queue is a list
    of pairwise distinct edges, the members of [waitq]. *)
Definition well_formed (w : World) : Prop := wired w ∧ ∃ l, queue_inv w l.

(** [same_shape w w']: from [w] to [w'] the queue and the slices are as
    they were and every pipe has kept its two ends. *)
Definition same_shape (w w' : World) : Prop :=
  q_next w' = q_next w ∧ q_last w' = q_last w ∧ nodes w' = nodes w ∧
  waitq w' = waitq w ∧ incoming w' = incoming w ∧ outgoing w' = outgoing w ∧
  ∀ q x, pipes w !! q = Some x →
         ∃ x', pipes w' !! q = Some x' ∧ Target x' = Target x ∧ From x' = From x.

(** The concrete scheduler with the cache map of b emptied. *)
Definition ex_bare : World :=
  with_edges (<[2 := ex_edge ex_dB true [ex_dep] [] []]> (edges ex_world)) ex_world.

(** * Properties *)

(** ** Running scheduler code *)

Ltac unfold_M :=
  unfold mbind, M_bind, mret, M_ret, get, modify, emit, panic,
    get_edge, get_pipe, get_node, update_edge, update_pipe in *.

Ltac munfold :=
  repeat progress
    (unfold mbind, M_bind, mret, M_ret, get, modify, emit, panic,
       get_edge, get_pipe, get_node, update_edge, update_pipe; simpl).

Lemma bind_eq {A B} (m : M A) (k : A → M B) w :
  (m ≫= k) w =
  match m w with
  | Returned a w1 => k a w1
  | Panic msg => Panic msg
  end.
Proof. done. Qed.

Lemma bind_returned {A B} (m : M A) (k : A → M B) w b w' :
  (m ≫= k) w = Returned b w' →
  ∃ a w1, m w = Returned a w1 ∧ k a w1 = Returned b w'.
Proof. rewrite bind_eq. destruct (m w) as [a w1|]; [|done]. eauto. Qed.

Lemma for_range_cons {A} (x : A) l body w :
  for_range (x :: l) body w =
  match body x w with
  | Returned _ w1 => for_range l body w1
  | Panic msg => Panic msg
  end.
Proof. done. Qed.

Lemma update_edge_eq e f w :
  update_edge e f w =
  match edges w !! e with
  | Some x => Returned tt (with_edges (<[e := f x]> (edges w)) w)
  | None => Panic nil_dereference
  end.
Proof. unfold update_edge. munfold. by destruct (edges w !! e). Qed.

(** ** Stores and slices *)

Lemma insert_as_alter {A} (f : A → A) (m : gmap nat A) p x :
  m !! p = Some x → <[p := f x]> m = alter f p m.
Proof.
  intros H. apply map_eq. intros q. destruct (decide (p = q)) as [<-|Hne].
  - by rewrite lookup_insert_eq, lookup_alter_eq, H.
  - by rewrite lookup_insert_ne, lookup_alter_ne.
Qed.

Lemma alter_all_notin {A} (f : A → A) l (m : gmap nat A) p :
  p ∉ l → alter_all f l m !! p = m !! p.
Proof.
  revert m. induction l as [|q l IH]; intros m Hn; simpl; [done|].
  apply not_elem_of_cons in Hn as [Hne Hn].
  unfold alter_all in *. simpl. rewrite IH; [|done]. by rewrite lookup_alter_ne.
Qed.

Lemma alter_all_in {A} (f : A → A) l (m : gmap nat A) p :
  (∀ x, f (f x) = f x) → p ∈ l → alter_all f l m !! p = f <$> m !! p.
Proof.
  intros Hf. revert m. induction l as [|q l IH]; intros m Hin.
  - by apply elem_of_nil in Hin.
  - unfold alter_all in *. simpl.
    destruct (decide (p ∈ l)) as [Hl|Hl].
    + rewrite IH; [|done]. destruct (decide (q = p)) as [->|Hne].
      * rewrite lookup_alter_eq. destruct (m !! p); simpl; [|done]. by rewrite Hf.
      * by rewrite lookup_alter_ne.
    + apply elem_of_cons in Hin as [->|?]; [|done].
      fold (alter_all f l (alter f q m)). rewrite alter_all_notin; [|done].
      by rewrite lookup_alter_eq.
Qed.

Lemma alter_all_is_Some {A} (f : A → A) l (m : gmap nat A) p :
  is_Some (alter_all f l m !! p) ↔ is_Some (m !! p).
Proof.
  revert m. induction l as [|q l IH]; intros m; [done|].
  unfold alter_all in *. simpl. rewrite IH.
  destruct (decide (q = p)) as [->|Hne].
  - rewrite lookup_alter_eq. by rewrite fmap_is_Some.
  - by rewrite lookup_alter_ne.
Qed.

Lemma slice_at_extend t l m : slice_at (extend t l m) t = slice_at m t ++ l.
Proof.
  revert m. induction l as [|p l IH]; intros m; simpl.
  - by rewrite app_nil_r.
  - unfold extend in *. simpl. rewrite IH. unfold slice_at at 1.
    rewrite lookup_insert_eq. simpl. by rewrite <- app_assoc.
Qed.

Lemma extend_ne t l m k : k ≠ t → extend t l m !! k = m !! k.
Proof.
  intros Hne. revert m. induction l as [|p l IH]; intros m; simpl; [done|].
  unfold extend in *. simpl. rewrite IH. by rewrite lookup_insert_ne.
Qed.

Lemma entry_slice m e l : m !! e = entry l → slice_at m e = l.
Proof. unfold slice_at. intros ->. by destruct l. Qed.

Lemma allocated_insert w w1 p x l :
  pipes w !! p = Some x → (∃ y, pipes w1 = <[p := y]> (pipes w)) →
  allocated w1 l → allocated w l.
Proof.
  intros Hp [y Hw1] H. unfold allocated in *. rewrite Hw1 in H.
  eapply Forall_impl; [exact H|]. intros q. destruct (decide (p = q)) as [<-|Hne].
  - by rewrite Hp.
  - by rewrite lookup_insert_ne.
Qed.

Lemma allocated_alter_all w w1 f l0 l :
  pipes w1 = alter_all f l0 (pipes w) → allocated w1 l → allocated w l.
Proof.
  intros Hp H. unfold allocated in *. eapply Forall_impl; [exact H|].
  intros q. rewrite Hp. by rewrite alter_all_is_Some.
Qed.


Lemma existsb_ext_all {A} (f g : A → bool) l :
  (∀ x, f x = g x) → existsb f l = existsb g l.
Proof. intros H. induction l as [|x l IH]; simpl; [done|]. by rewrite H, IH. Qed.

Lemma filter_snd_fmap {A} (f : A → bool) (l : list A) :
  (List.filter snd ((λ p, (p, f p)) <$> l)).*1 = List.filter f l.
Proof.
  induction l as [|x l IH]; [done|]. rewrite fmap_cons. simpl.
  destruct (f x); simpl; [f_equal|]; exact IH.
Qed.

Lemma elem_of_enumerate {A} (l : list A) i x :
  (i, x) ∈ enumerate l ↔ l !! i = Some x.
Proof.
  unfold enumerate. rewrite list_elem_of_lookup. split.
  - intros [j Hj]. apply lookup_zip_with_Some in Hj as (a & b & [= <- <-] & Ha & Hb).
    apply lookup_seq in Ha as [-> _]. done.
  - intros H. exists i. apply lookup_zip_with_Some. exists i, x.
    split; [done|]. split; [|done]. apply lookup_seq. split; [done|].
    by apply lookup_lt_Some in H.
Qed.

(** ** The dispatcher queue *)

Lemma chain_end h i e l j :
  chain h i e l j → ∃ ej, h !! j = Some {| d_next := None; d_e := ej |}.
Proof.
  revert i e. induction l as [|e' l IH]; intros i e; simpl.
  - intros [H <-]. eauto.
  - intros (i' & _ & H). eauto.
Qed.

Lemma chain_unique h i e1 e2 l1 l2 j1 j2 :
  chain h i e1 l1 j1 → chain h i e2 l2 j2 → e1 = e2 ∧ l1 = l2 ∧ j1 = j2.
Proof.
  revert i e1 e2 l2. induction l1 as [|x1 l1 IH]; intros i e1 e2 [|x2 l2]; simpl.
  - intros [H1 <-] [H2 <-]. rewrite H1 in H2. by injection H2 as ->.
  - intros [H _] (i' & H' & _). congruence.
  - intros (i' & H' & _) [H _]. congruence.
  - intros (i1 & H1 & C1) (i2 & H2 & C2).
    rewrite H1 in H2. injection H2 as -> ->.
    destruct (IH _ _ _ _ C1 C2) as (-> & -> & ->). done.
Qed.

Lemma is_queue_unique w l1 l2 : is_queue w l1 → is_queue w l2 → l1 = l2.
Proof.
  destruct l1 as [|e1 l1], l2 as [|e2 l2]; simpl; try done.
  - intros [H _] (i & j & H' & _). congruence.
  - intros (i & j & H' & _) [H _]. congruence.
  - intros (i1 & j1 & H1 & _ & C1) (i2 & j2 & H2 & _ & C2).
    rewrite H1 in H2. injection H2 as ->.
    destruct (chain_unique _ _ _ _ _ _ _ _ C1 C2) as (-> & -> & _). done.
Qed.

Lemma chain_append h i e l j d x ej :
  chain h i e l j → h !! d = None →
  h !! j = Some {| d_next := None; d_e := ej |} →
  chain (<[j := {| d_next := Some d; d_e := ej |}]>
           (<[d := {| d_next := None; d_e := x |}]> h)) i e (l ++ [x]) d.
Proof.
  intros C Hd Hj. assert (Hdj : d ≠ j) by congruence.
  revert i e C. induction l as [|e' l IH]; intros i e; simpl.
  - intros [Hi ->]. exists d. rewrite Hi in Hj. injection Hj as ->.
    rewrite lookup_insert_eq. split; [done|].
    rewrite lookup_insert_ne; [|done]. by rewrite lookup_insert_eq.
  - intros (i' & Hi & C). exists i'. split; [|by apply IH].
    rewrite lookup_insert_ne; [|congruence].
    rewrite lookup_insert_ne; [done|congruence].
Qed.

Lemma signal_eq e w :
  signal e w =
  if decide (e ∈ waitq w) then Returned tt w
  else
    let d := fresh (dom (nodes w)) in
    let N := <[d := {| d_next := None; d_e := e |}]> (nodes w) in
    match q_last w with
    | None =>
        Returned tt
          (with_log (log w ++ [EvCondSignal])
             (with_waitq ({[e]} ∪ waitq w)
                (with_q_next (Some d) (with_q_last (Some d) (with_nodes N w)))))
    | Some l =>
        match N !! l with
        | Some n =>
            Returned tt
              (with_log (log w ++ [EvCondSignal])
                 (with_waitq ({[e]} ∪ waitq w)
                    (with_q_next (q_next w)
                       (with_q_last (Some d)
                          (with_nodes (<[l := {| d_next := Some d; d_e := d_e n |}]> N) w)))))
        | None => Panic nil_dereference
        end
    end.
Proof.
  unfold signal. munfold. destruct (decide (e ∈ waitq w)); [done|].
  destruct (q_last w); simpl; [|done].
  by destruct (_ !! _).
Qed.

Lemma signal_returned e w w' :
  signal e w = Returned tt w' →
  (e ∈ waitq w ∧ w' = w) ∨
  ((e ∉ waitq w) ∧ ∃ nx ls N,
     w' = with_log (log w ++ [EvCondSignal])
            (with_waitq ({[e]} ∪ waitq w)
               (with_q_next nx (with_q_last ls (with_nodes N w))))).
Proof.
  rewrite signal_eq. destruct (decide (e ∈ waitq w)) as [Hin|Hn].
  - intros [= <-]. by left.
  - intros H. right. split; [done|]. simpl in H. destruct (q_last w).
    + destruct (_ !! _); [|done]. injection H as <-. by do 3 eexists.
    + injection H as <-. by do 3 eexists.
Qed.

Lemma signal_queued w e : e ∈ waitq w → signal e w = Returned tt w.
Proof. intros H. unfold signal. unfold_M. by rewrite decide_True. Qed.

Lemma signal_times_queued n w e :
  e ∈ waitq w → signal_times n e w = Returned tt w.
Proof.
  intros H. induction n as [|n IH]; simpl; [done|].
  unfold_M. by rewrite signal_queued.
Qed.

Lemma signal_fresh w l e :
  is_queue w l → e ∉ waitq w →
  ∃ w', signal e w = Returned tt w' ∧ is_queue w' (l ++ [e]) ∧
        waitq w' = {[e]} ∪ waitq w ∧
        ef w' = ef w ∧ stopped w' = stopped w ∧ incoming w' = incoming w ∧ outgoing w' = outgoing w ∧
        edges w' = edges w ∧ pipes w' = pipes w ∧ eindex w' = eindex w ∧
        log w' = log w ++ [EvCondSignal].
Proof.
  intros Q Hn. unfold signal. unfold_M. rewrite decide_False; [|done].
  set (d := fresh (dom (nodes w))).
  assert (Hd : nodes w !! d = None).
  { apply not_elem_of_dom. apply is_fresh. }
  destruct l as [|e0 l]; simpl in Q.
  - destruct Q as [Hnx Hls]. rewrite Hls. simpl.
    eexists. split; [done|]. simpl. repeat split; try done.
    exists d, d. simpl. by rewrite lookup_insert_eq.
  - destruct Q as (i & j & Hnx & Hls & C). rewrite Hls. simpl.
    destruct (chain_end _ _ _ _ _ C) as [ej Hj].
    rewrite lookup_insert_ne; [|congruence]. rewrite Hj. simpl.
    eexists. split; [done|]. simpl. repeat split; try done.
    exists i, d. repeat split; try done.
    by apply (chain_append _ _ _ _ _ _ _ _ C Hd Hj).
Qed.

Lemma dequeue_empty w : is_queue w [] → dequeue w = Returned None w.
Proof. intros [H _]. unfold dequeue. unfold_M. by rewrite H. Qed.

Lemma dequeue_head w e l :
  is_queue w (e :: l) →
  ∃ w', dequeue w = Returned (Some e) w' ∧ is_queue w' l ∧
        waitq w' = waitq w ∖ {[e]} ∧
        ef w' = ef w ∧ stopped w' = stopped w ∧ incoming w' = incoming w ∧ outgoing w' = outgoing w ∧
        edges w' = edges w ∧ pipes w' = pipes w ∧ eindex w' = eindex w ∧
        log w' = log w.
Proof.
  intros (i & j & Hnx & Hls & C). unfold dequeue. unfold_M. rewrite Hnx.
  destruct l as [|e' l]; simpl in C.
  - destruct C as [Hi <-]. rewrite Hi. rewrite decide_True; [|done].
    eexists. split; [done|]. simpl. done.
  - destruct C as (i' & Hi & C). rewrite Hi.
    destruct (chain_end _ _ _ _ _ C) as [ej Hj].
    rewrite decide_False; [|rewrite Hls; intros [= ->]; congruence].
    eexists. split; [done|]. simpl. repeat split; try done.
    exists i', j. done.
Qed.

Lemma count_occ_notin (l : list nat) e : e ∉ l → count_occ Nat.eq_dec l e = 0.
Proof.
  induction l as [|x l IH]; [done|]. intros [Hne Hn]%not_elem_of_cons. simpl.
  destruct (Nat.eq_dec x e) as [->|_]; [done|]. by apply IH.
Qed.

Lemma NoDup_count_occ_1 (l : list nat) e :
  NoDup l → (e ∈ l ↔ count_occ Nat.eq_dec l e = 1).
Proof.
  induction 1 as [|x l Hx Hnd IH]; simpl.
  - split; [by intros ?%elem_of_nil|done].
  - destruct (Nat.eq_dec x e) as [->|Hne].
    + rewrite count_occ_notin by done. split; [done|]. intros _. apply list_elem_of_here.
    + rewrite elem_of_cons, IH. split; [|tauto]. by intros [->|?].
Qed.

Lemma queue_inv_NewScheduler factory es idx : queue_inv (NewScheduler factory es idx) [].
Proof.
  split; [done|]. split; [constructor|]. intros e. simpl.
  split; [by intros ?%elem_of_empty|by intros ?%elem_of_nil].
Qed.

Lemma queue_inv_signal w l e :
  queue_inv w l → e ∉ waitq w →
  ∃ w', signal e w = Returned tt w' ∧ queue_inv w' (l ++ [e]) ∧
        waitq w' = {[e]} ∪ waitq w.
Proof.
  intros (Q & Hnd & Hw) He.
  destruct (signal_fresh w l e Q He) as (w' & Hs & Q' & Hw' & _).
  exists w'. split; [done|]. split; [|done]. split; [done|]. split.
  - apply NoDup_app. split; [done|]. split; [|apply NoDup_singleton].
    intros x Hx ->%list_elem_of_singleton. apply He. by apply Hw.
  - intros x. rewrite Hw', elem_of_union, elem_of_singleton, elem_of_app,
      list_elem_of_singleton, Hw. tauto.
Qed.

Lemma queue_inv_dequeue w e l :
  queue_inv w (e :: l) →
  ∃ w', dequeue w = Returned (Some e) w' ∧ queue_inv w' l ∧
        waitq w' = waitq w ∖ {[e]}.
Proof.
  intros (Q & Hnd & Hw).
  destruct (dequeue_head w e l Q) as (w' & Hd & Q' & Hw' & _).
  apply NoDup_cons in Hnd as [Hne Hnd'].
  exists w'. split; [done|]. split; [|done]. split; [done|]. split; [done|].
  intros x. rewrite Hw', elem_of_difference, elem_of_singleton, Hw, elem_of_cons.
  split; [tauto|]. intros Hx. split; [tauto|]. by intros ->.
Qed.

(** Whatever signals and dequeues have been made on a new scheduler, the
    queue is a list of pairwise distinct edges, the members of [waitq]. *)
Lemma queue_inv_reachable factory es idx ops :
  ∃ l w', for_range ops run_queue_op (NewScheduler factory es idx) = Returned tt w'
          ∧ queue_inv w' l.
Proof.
  assert (H : ∀ w l, queue_inv w l →
              ∃ l' w', for_range ops run_queue_op w = Returned tt w' ∧ queue_inv w' l').
  { induction ops as [|op ops IH]; intros w l Hq; [by exists l, w|].
    rewrite for_range_cons. destruct op as [e|]; simpl run_queue_op.
    - destruct (decide (e ∈ waitq w)) as [Hin|Hn].
      + rewrite signal_queued by done. by apply (IH w l).
      + destruct (queue_inv_signal w l e Hq Hn) as (w1 & -> & Hq1 & _).
        by apply (IH w1 (l ++ [e])).
    - rewrite bind_eq. destruct l as [|e l].
      + destruct Hq as (Q & Hq). rewrite (dequeue_empty w Q).
        apply (IH w []). by split.
      + destruct (queue_inv_dequeue w e l Hq) as (w1 & -> & Hq1 & _).
        by apply (IH w1 l). }
  apply (H _ []), queue_inv_NewScheduler.
Qed.

(** C4.  Let the linked list of the queue hold the edges [l], pairwise
    distinct and the members of [waitq], as it does after any signals and
    dequeues on a new scheduler.  Then an edge is in [waitq] exactly
    when it occurs once in the list; signalling an edge that is in [waitq],
    any number of times, returns the state unchanged; signalling an edge
    that is not in [waitq] appends it at the end of the list and adds it to
    [waitq]; the dequeue of the run loop answers nothing on the empty list
    and otherwise removes the head of the list and deletes it from
    [waitq]; and in each case the list is again pairwise distinct and holds
    the members of [waitq]. *)
Theorem dispatcher_queue_invariant w l :
  queue_inv w l →
  (∀ e, e ∈ waitq w ↔ count_occ Nat.eq_dec l e = 1) ∧
  (∀ e n, e ∈ waitq w → signal_times n e w = Returned tt w) ∧
  (∀ e, e ∉ waitq w →
     ∃ w', signal e w = Returned tt w' ∧ queue_inv w' (l ++ [e]) ∧
           waitq w' = {[e]} ∪ waitq w ∧
           (∀ x, x ∈ waitq w' ↔ count_occ Nat.eq_dec (l ++ [e]) x = 1)) ∧
  match l with
  | [] => dequeue w = Returned None w
  | e :: l' =>
      ∃ w', dequeue w = Returned (Some e) w' ∧ queue_inv w' l' ∧
            waitq w' = waitq w ∖ {[e]} ∧
            (∀ x, x ∈ waitq w' ↔ count_occ Nat.eq_dec l' x = 1)
  end.
Proof.
  intros Hq. split; [|split; [|split]].
  - intros e. destruct Hq as (_ & Hnd & Hw). rewrite Hw. by apply NoDup_count_occ_1.
  - intros e n He. by apply signal_times_queued.
  - intros e He. destruct (queue_inv_signal w l e Hq He) as (w' & Hs & Hq' & Hw').
    exists w'. split; [done|]. split; [done|]. split; [done|].
    intros x. destruct Hq' as (_ & Hnd & Hm). rewrite Hm. by apply NoDup_count_occ_1.
  - destruct l as [|e l'].
    + destruct Hq as [Q _]. by apply dequeue_empty.
    + destruct (queue_inv_dequeue w e l' Hq) as (w' & Hd & Hq' & Hw').
      exists w'. split; [done|]. split; [done|]. split; [done|].
      intros x. destruct Hq' as (_ & Hnd & Hm). rewrite Hm. by apply NoDup_count_occ_1.
Qed.

Lemma dispatcher_queue_invariant_witness :
  signal_times 100 3 ex_queued = Returned tt ex_queued ∧
  (∃ w', signal 2 ex_queued = Returned tt w' ∧ queue_inv w' [3; 1; 2]) ∧
  (∃ w', dequeue ex_queued = Returned (Some 3) w' ∧ queue_inv w' [1]).
Proof.
  destruct (dispatcher_queue_invariant ex_queued [3; 1]) as (_ & Hs & Hf & Hd).
  - split; [|split].
    + exists 0, 1. vm_compute. repeat split. by exists 1.
    + compute_done.
    + intros e. assert (waitq ex_queued = {[3]} ∪ {[1]}) as -> by (vm_compute; reflexivity).
      rewrite elem_of_union, !elem_of_singleton, elem_of_cons, list_elem_of_singleton.
      done.
  - split; [|split].
    + apply Hs. compute_done.
    + destruct (Hf 2) as (w' & H1 & H2 & _); [compute_done|]. eauto.
    + destruct Hd as (w' & H1 & H2 & _). eauto.
Defined.

(** ** build *)

(** C9.  When the factory has no edge for the descriptor, [build] returns
    no result and the error "invalid request", and the state it returns is
    the state it was called in: no pipe is created, and the maps and the
    queue are as before. *)
Theorem build_invalid_request ctx edge w :
  GetEdge edge w = Returned None w →
  build ctx edge w
    = Returned (BuildReturned None (Some (Errorf_invalid_request edge))) w.
Proof. intros H. unfold build. by rewrite bind_eq, H. Qed.

Lemma build_invalid_request_witness :
  build {| ctx_Done := false |} ex_dD ex_world
    = Returned (BuildReturned None (Some (Errorf_invalid_request ex_dD))) ex_world.
Proof. apply build_invalid_request. vm_compute. reflexivity. Defined.

(** ** mergeTo: the transfer of the pipes *)

Lemma merge_refused_eq target src w :
  merge_refused target src w =
  match edges w !! target with
  | Some t =>
      if edge_IgnoreCache t then Returned false w
      else match edges w !! src with
           | Some s => Returned (edge_IgnoreCache s) w
           | None => Panic nil_dereference
           end
  | None => Panic nil_dereference
  end.
Proof.
  unfold merge_refused. munfold. destruct (edges w !! target) as [t|]; [|done].
  destruct (edge_IgnoreCache t); [done|]. simpl. by destruct (edges w !! src).
Qed.

Lemma merge_incoming_body_eq target p w :
  merge_incoming_body target p w =
  match pipes w !! p with
  | Some x =>
      Returned tt
        (with_log (log w ++ merge_incoming_events target p)
           (with_incoming (<[target := slice_at (incoming w) target ++ [p]]> (incoming w))
              (with_pipes (<[p := retarget target x]> (pipes w)) w)))
  | None => Panic nil_dereference
  end.
Proof.
  unfold merge_incoming_body. munfold. simpl.
  destruct (pipes w !! p); simpl; [|done].
  unfold merge_incoming_events. by rewrite <- !app_assoc.
Qed.

Lemma merge_incoming_loop target l w w' :
  for_range l (merge_incoming_body target) w = Returned tt w' →
  allocated w l ∧
  w' = with_log (log w ++ flat_map (merge_incoming_events target) l)
         (with_incoming (extend target l (incoming w))
            (with_pipes (alter_all (retarget target) l (pipes w)) w)).
Proof.
  revert w. induction l as [|p l IH]; intros w H.
  - injection H as <-. split; [constructor|]. destruct w; simpl.
    by rewrite app_nil_r.
  - rewrite for_range_cons, merge_incoming_body_eq in H.
    destruct (pipes w !! p) as [x|] eqn:E; [|done].
    apply IH in H as [Hall ->]. split.
    + constructor; [by rewrite E|].
      eapply allocated_insert; [exact E| |exact Hall]. by eexists.
    + simpl. rewrite <- app_assoc.
      by rewrite (insert_as_alter (retarget target) _ _ _ E).
Qed.

Lemma merge_outgoing_body_eq target p w :
  merge_outgoing_body target p w =
  match pipes w !! p with
  | Some x =>
      Returned tt
        (with_log (log w ++ merge_outgoing_events target p)
           (with_outgoing (<[target := slice_at (outgoing w) target ++ [p]]> (outgoing w))
              (with_pipes (<[p := refrom target x]> (pipes w)) w)))
  | None => Panic nil_dereference
  end.
Proof.
  unfold merge_outgoing_body, Cancel. munfold. simpl.
  destruct (pipes w !! p); simpl; [|done].
  rewrite lookup_insert_eq. simpl. rewrite insert_insert_eq.
  unfold merge_outgoing_events. by rewrite <- !app_assoc.
Qed.

Lemma merge_outgoing_loop target l w w' :
  for_range l (merge_outgoing_body target) w = Returned tt w' →
  allocated w l ∧
  w' = with_log (log w ++ flat_map (merge_outgoing_events target) l)
         (with_outgoing (extend target l (outgoing w))
            (with_pipes (alter_all (refrom target) l (pipes w)) w)).
Proof.
  revert w. induction l as [|p l IH]; intros w H.
  - injection H as <-. split; [constructor|]. destruct w; simpl.
    by rewrite app_nil_r.
  - rewrite for_range_cons, merge_outgoing_body_eq in H.
    destruct (pipes w !! p) as [x|] eqn:E; [|done].
    apply IH in H as [Hall ->]. split.
    + constructor; [by rewrite E|].
      eapply allocated_insert; [exact E| |exact Hall]. by eexists.
    + simpl. rewrite <- app_assoc.
      by rewrite (insert_as_alter (refrom target) _ _ _ E).
Qed.

Lemma retarget_idemp target x : retarget target (retarget target x) = retarget target x.
Proof. done. Qed.

Lemma refrom_idemp target x : refrom target (refrom target x) = refrom target x.
Proof. done. Qed.

Lemma merged_pipe_lookup target inc out (P : gmap nat edgePipe) p :
  alter_all (refrom target) out (alter_all (retarget target) inc P) !! p
  = (if decide (p ∈ out) then refrom target else id)
      <$> ((if decide (p ∈ inc) then retarget target else id) <$> P !! p).
Proof.
  destruct (decide (p ∈ out)) as [Ho|Ho].
  - rewrite alter_all_in; [|apply refrom_idemp|done]. f_equal.
    destruct (decide (p ∈ inc)) as [Hi|Hi].
    + by rewrite alter_all_in; [|apply retarget_idemp|].
    + rewrite alter_all_notin; [|done]. by rewrite option_fmap_id.
  - rewrite alter_all_notin; [|done]. rewrite option_fmap_id.
    destruct (decide (p ∈ inc)) as [Hi|Hi].
    + by rewrite alter_all_in; [|apply retarget_idemp|].
    + rewrite alter_all_notin; [|done]. by rewrite option_fmap_id.
Qed.


(** ** mergeTo: the exporters *)

Lemma append_secondaryExporters_nil t : append_secondaryExporters [] t = t.
Proof. destruct t. unfold append_secondaryExporters. simpl. by rewrite app_nil_r. Qed.

Lemma append_secondaryExporters_app X Y t :
  append_secondaryExporters Y (append_secondaryExporters X t)
  = append_secondaryExporters (X ++ Y) t.
Proof. unfold append_secondaryExporters. simpl. by rewrite app_assoc. Qed.

Lemma exported_nil w0 target t : edges w0 !! target = Some t → exported w0 target t [] = w0.
Proof.
  intros H. unfold exported. rewrite append_secondaryExporters_nil.
  rewrite insert_id; [|done]. by destruct w0.
Qed.

Lemma exported_src w0 target src t s X :
  edges w0 !! target = Some t → edges w0 !! src = Some s →
  ∃ s', edges (exported w0 target t X) !! src = Some s' ∧
        cacheMap s' = cacheMap s ∧ deps s' = deps s.
Proof.
  intros Ht Hs. simpl. destruct (decide (target = src)) as [<-|Hne].
  - rewrite lookup_insert_eq. eexists. split; [done|].
    rewrite Ht in Hs. by injection Hs as ->.
  - rewrite lookup_insert_ne; [|done]. eauto.
Qed.

Lemma push_exporter_exported w0 target t X x :
  push_exporter target x (exported w0 target t X)
  = Returned tt (exported w0 target t (X ++ [x])).
Proof.
  unfold push_exporter. munfold. rewrite lookup_insert_eq. simpl.
  unfold exported. simpl. by rewrite insert_insert_eq, append_secondaryExporters_app.
Qed.

Lemma selector_at_exported w0 target src t s X i :
  edges w0 !! target = Some t → edges w0 !! src = Some s →
  selector_at src i (exported w0 target t X) =
  match Deps (cacheMap s) !! i with
  | Some cd => Returned (dep_Selector cd) (exported w0 target t X)
  | None => Panic index_out_of_range
  end.
Proof.
  intros Ht Hs. destruct (exported_src _ _ _ _ _ X Ht Hs) as (s' & Hs' & Hc & _).
  unfold selector_at. rewrite bind_eq. unfold get_edge. rewrite Hs', Hc.
  by destruct (_ !! i).
Qed.

Section exporters.
Variables (w0 : World) (target src : nat) (t s : edge).
Hypothesis Ht : edges w0 !! target = Some t.
Hypothesis Hs : edges w0 !! src = Some s.

Lemma keys_loop i ks X w' :
  for_range ks (λ k, sel ← selector_at src i;
                     push_exporter target (exporter i sel k)) (exported w0 target t X)
    = Returned tt w' →
  w' = exported w0 target t (X ++ (exporter i (selector_of (cacheMap s) i) <$> ks))
  ∧ (ks ≠ [] → is_Some (Deps (cacheMap s) !! i)).
Proof.
  revert X. induction ks as [|k ks IH]; intros X H.
  - injection H as <-. simpl. by rewrite app_nil_r.
  - rewrite for_range_cons, bind_eq, (selector_at_exported _ _ _ _ _ _ _ Ht Hs) in H.
    unfold selector_of. destruct (Deps (cacheMap s) !! i) as [cd|] eqn:E; [|done].
    rewrite push_exporter_exported in H. apply IH in H as [-> _].
    unfold selector_of. rewrite E. simpl. rewrite <- app_assoc. split; [done|eauto].
Qed.

Lemma merge_exporters_body_exported i d X w' :
  merge_exporters_body target src (i, d) (exported w0 target t X) = Returned tt w' →
  w' = exported w0 target t (X ++ dep_exporters (selector_of (cacheMap s) i) i d)
  ∧ (needs_selector d = true → is_Some (Deps (cacheMap s) !! i)).
Proof.
  unfold merge_exporters_body. rewrite !bind_eq.
  destruct (for_range _ _ _) as [[] w1|] eqn:E1; [|done].
  apply keys_loop in E1 as [-> Hk].
  unfold dep_exporters.
  assert (Hkeys : needs_selector d = true → result d = None →
                  is_Some (Deps (cacheMap s) !! i)).
  { unfold needs_selector. intros Hn Hr. apply Hk. intros Hnil.
    rewrite Hnil, Hr in Hn. vm_compute in Hn. done. }
  clear Hk.
  destruct (slowCacheKey d) as [k|]; cbv beta iota; rewrite ?bind_eq.
  - rewrite push_exporter_exported.
    destruct (result d) as [r|]; cbv beta iota; rewrite ?bind_eq.
    + rewrite (selector_at_exported _ _ _ _ _ _ _ Ht Hs).
      unfold selector_of.
      destruct (Deps (cacheMap s) !! i) as [cd|] eqn:E; [|done].
      rewrite push_exporter_exported. intros [= <-]. simpl.
      rewrite <- !app_assoc. split; [done|eauto].
    + intros [= <-]. rewrite <- !app_assoc. split; [done|].
      intros Hn. by apply Hkeys.
  - unfold mret at 1, M_ret at 1.
    destruct (result d) as [r|]; cbv beta iota; rewrite ?bind_eq.
    + rewrite (selector_at_exported _ _ _ _ _ _ _ Ht Hs).
      unfold selector_of.
      destruct (Deps (cacheMap s) !! i) as [cd|] eqn:E; [|done].
      rewrite push_exporter_exported. intros [= <-]. simpl.
      rewrite <- !app_assoc. split; [done|eauto].
    + intros [= <-]. simpl. rewrite app_nil_r. split; [done|].
      intros Hn. by apply Hkeys.
Qed.

Lemma merge_exporters_loop l X w' :
  for_range l (merge_exporters_body target src) (exported w0 target t X)
    = Returned tt w' →
  w' = exported w0 target t (X ++ exporters_from (cacheMap s) l)
  ∧ Forall (λ id, needs_selector id.2 = true → is_Some (Deps (cacheMap s) !! id.1)) l.
Proof.
  revert X. induction l as [|[i d] l IH]; intros X H.
  - injection H as <-. simpl. by rewrite app_nil_r.
  - rewrite for_range_cons in H.
    destruct (merge_exporters_body _ _ _ _) as [[] w1|] eqn:E1; [|done].
    apply merge_exporters_body_exported in E1 as [-> Hn].
    apply IH in H as [-> Hall]. split.
    + unfold exporters_from. simpl. by rewrite <- app_assoc.
    + by constructor.
Qed.

Lemma merge_exporters_returned w' :
  merge_exporters target src w0 = Returned tt w' →
  w' = exported w0 target t (merged_exporters (deps s) (cacheMap s))
  ∧ Forall (λ id, needs_selector id.2 = true → is_Some (Deps (cacheMap s) !! id.1))
      (enumerate (deps s)).
Proof.
  unfold merge_exporters. rewrite bind_eq. unfold get_edge. rewrite Hs.
  rewrite <- (exported_nil w0 target t Ht) at 1.
  intros H. by apply merge_exporters_loop in H.
Qed.

End exporters.

(** ** mergeTo as a whole *)

Lemma mergeTo_eq target src w :
  mergeTo target src w =
  match edges w !! target with
  | Some t =>
      if edge_IgnoreCache t then merge_transfer target src w
      else match edges w !! src with
           | Some s =>
               if edge_IgnoreCache s then Returned false w
               else merge_transfer target src w
           | None => Panic nil_dereference
           end
  | None => Panic nil_dereference
  end.
Proof.
  unfold mergeTo. rewrite bind_eq, merge_refused_eq.
  destruct (edges w !! target) as [t|]; [|done].
  destruct (edge_IgnoreCache t); [done|].
  destruct (edges w !! src) as [s|]; [|done].
  by destruct (edge_IgnoreCache s).
Qed.

Lemma merge_transfer_returned target src w b w' t :
  edges w !! target = Some t →
  merge_transfer target src w = Returned b w' →
  let inc := slice_at (incoming w) src in
  let out := slice_at (outgoing w) src in
  b = true ∧
  ∃ s, edges w !! src = Some s ∧
    allocated w inc ∧ allocated w out ∧
    Forall (λ id, needs_selector id.2 = true → is_Some (Deps (cacheMap s) !! id.1))
      (enumerate (deps s)) ∧
    pipes w' = alter_all (refrom target) out (alter_all (retarget target) inc (pipes w)) ∧
    incoming w' = delete src (extend target inc (incoming w)) ∧
    outgoing w' = delete src (extend target out (outgoing w)) ∧
    edges w' = <[target := append_secondaryExporters
                             (merged_exporters (deps s) (cacheMap s)) t]> (edges w) ∧
    ef w' = ef w ∧ eindex w' = eindex w ∧
    stopped w' = stopped w ∧ closed w' = closed w ∧
    waitq w' = {[target]} ∪ waitq w ∧
    log w' = log w ++ flat_map (merge_incoming_events target) inc
                   ++ flat_map (merge_outgoing_events target) out
                   ++ (if decide (target ∈ waitq w) then [] else [EvCondSignal]).
Proof.
  intros Ht H inc out. unfold merge_transfer in H.
  apply bind_returned in H as ([] & w1 & H1 & H).
  apply bind_returned in H as ([] & w2 & H2 & H).
  apply bind_returned in H as ([] & w3 & H3 & H).
  apply bind_returned in H as ([] & w4 & H4 & H).
  apply bind_returned in H as ([] & w5 & H5 & H).
  apply bind_returned in H as ([] & w6 & H6 & H).
  assert (b = true ∧ w' = w6) as [-> ->] by (by injection H).
  split; [done|]. clear H.
  unfold merge_incoming in H1. rewrite bind_eq in H1. simpl in H1.
  apply merge_incoming_loop in H1 as [Hinc ->].
  unfold merge_outgoing in H2. rewrite bind_eq in H2. simpl in H2.
  apply merge_outgoing_loop in H2 as [Hout ->].
  injection H3 as <-. injection H4 as <-.
  fold inc in Hinc, Hout, H5 |- *. fold out in Hout, H5 |- *.
  assert (Hout' : allocated w out).
  { eapply allocated_alter_all; [|exact Hout]. done. }
  assert (Ht5 : edges w5 !! target = Some t ∧ edges w5 = edges w).
  { apply signal_returned in H5 as [[_ ->]|(_ & nx & ls & N & ->)]; by simpl. }
  destruct Ht5 as [Ht5 He5].
  unfold merge_exporters in H6. pose proof H6 as H6'.
  rewrite bind_eq in H6'. unfold get_edge in H6'.
  destruct (edges w5 !! src) as [s|] eqn:Es5; [|done]. clear H6'.
  apply (merge_exporters_returned _ _ _ _ _ Ht5 Es5) in H6 as [-> Hsel].
  exists s. rewrite <- He5. split; [done|].
  apply signal_returned in H5 as [[Hin ->]|(Hn & nx & ls & N & ->)]; simpl.
  - rewrite decide_True; [|done]. rewrite app_nil_r, <- app_assoc.
    repeat split; try done. symmetry. apply subseteq_union_1_L.
    by apply singleton_subseteq_l.
  - rewrite decide_False; [|done]. rewrite <- !app_assoc.
    repeat split; done.
Qed.

Lemma mergeTo_false target src w w' :
  mergeTo target src w = Returned false w' →
  w' = w ∧ ∃ t s, edges w !! target = Some t ∧ edges w !! src = Some s ∧
                  edge_IgnoreCache t = false ∧ edge_IgnoreCache s = true.
Proof.
  rewrite mergeTo_eq.
  destruct (edges w !! target) as [t|] eqn:Et; [|done].
  destruct (edge_IgnoreCache t) eqn:It.
  - intros H. by apply (merge_transfer_returned _ _ _ _ _ _ Et) in H as [? _].
  - destruct (edges w !! src) as [s|]; [|done].
    destruct (edge_IgnoreCache s) eqn:Is.
    + intros [= <-]. split; [done|]. by exists t, s.
    + intros H. by apply (merge_transfer_returned _ _ _ _ _ _ Et) in H as [? _].
Qed.

Lemma mergeTo_true target src w w' :
  mergeTo target src w = Returned true w' →
  ∃ t, edges w !! target = Some t ∧ merge_transfer target src w = Returned true w' ∧
       (edge_IgnoreCache t = true ∨
        ∃ s, edges w !! src = Some s ∧ edge_IgnoreCache s = false).
Proof.
  rewrite mergeTo_eq.
  destruct (edges w !! target) as [t|] eqn:Et; [|done].
  destruct (edge_IgnoreCache t) eqn:It.
  - intros H. exists t. auto.
  - destruct (edges w !! src) as [s|]; [|done].
    destruct (edge_IgnoreCache s) eqn:Is; [done|].
    intros H. exists t. repeat split; try done. right. by exists s.
Qed.

Lemma mergeTo_exporters target src w w' :
  mergeTo target src w = Returned true w' →
  ∃ t s, edges w !! target = Some t ∧ edges w !! src = Some s ∧
    edges w' = <[target := append_secondaryExporters
                             (merged_exporters (deps s) (cacheMap s)) t]> (edges w) ∧
    Forall (λ id, needs_selector id.2 = true → is_Some (Deps (cacheMap s) !! id.1))
      (enumerate (deps s)).
Proof.
  intros H. apply mergeTo_true in H as (t & Ht & H & _).
  apply (merge_transfer_returned _ _ _ _ _ _ Ht) in H as [_ H].
  destruct H as (s & Hs & _ & _ & Hsel & _ & _ & _ & HE & _).
  by exists t, s.
Qed.

Lemma filter_is_SetEdge_incoming target l :
  List.filter is_SetEdge (flat_map (merge_incoming_events target) l) = [].
Proof. induction l as [|p l IH]; [done|]. simpl. exact IH. Qed.

Lemma filter_is_SetEdge_outgoing target l :
  List.filter is_SetEdge (flat_map (merge_outgoing_events target) l) = [].
Proof. induction l as [|p l IH]; [done|]. simpl. exact IH. Qed.

Lemma mergeTo_frame target src w b w' :
  mergeTo target src w = Returned b w' →
  List.filter is_SetEdge (log w') = List.filter is_SetEdge (log w) ∧
  ef w' = ef w ∧ eindex w' = eindex w ∧
  (∀ k, k ≠ target → edges w' !! k = edges w !! k) ∧
  (if b then incoming w' !! src = None ∧ outgoing w' !! src = None
   else w' = w).
Proof.
  destruct b.
  - intros H. apply mergeTo_true in H as (t & Ht & H & _).
    apply (merge_transfer_returned _ _ _ _ _ _ Ht) in H as [_ H].
    destruct H as (s & Hs & _ & _ & _ & _ & HI & HO & HE & Hef & Hidx & _ & _ & _ & HL).
    split; [|split; [done|split; [done|split; [|split]]]].
    + rewrite HL, !List.filter_app, filter_is_SetEdge_incoming,
        filter_is_SetEdge_outgoing. simpl.
      destruct (decide _); simpl; by rewrite app_nil_r.
    + intros k Hk. by rewrite HE, lookup_insert_ne.
    + rewrite HI. apply lookup_delete_eq.
    + rewrite HO. apply lookup_delete_eq.
  - intros H. apply mergeTo_false in H as [-> _]. done.
Qed.

(** C3.  For edges [t] and [s] behind [target] and [src], [mergeTo target
    src] returns false exactly when [t] does not ignore the cache and [s]
    does, and it then returns the state it was called in: the maps, the
    queue and the exporters of [target] are as before. *)
Theorem mergeTo_refuses target src w t s :
  edges w !! target = Some t → edges w !! src = Some s →
  ((∃ w', mergeTo target src w = Returned false w')
     ↔ edge_IgnoreCache t = false ∧ edge_IgnoreCache s = true) ∧
  (∀ w', mergeTo target src w = Returned false w' → w' = w).
Proof.
  intros Ht Hs. split; [split|].
  - intros [w' H]. apply mergeTo_false in H as (_ & t' & s' & Ht' & Hs' & H).
    rewrite Ht in Ht'. rewrite Hs in Hs'. by injection Ht' as <-; injection Hs' as <-.
  - intros [Hit His]. exists w. by rewrite mergeTo_eq, Ht, Hit, Hs, His.
  - intros w' H. by apply mergeTo_false in H as [-> _].
Qed.

Lemma mergeTo_refuses_witness :
  mergeTo 1 3 ex_world = Returned false ex_world.
Proof.
  destruct (mergeTo_refuses 1 3 ex_world ex_eA ex_eC) as [[_ H] Hw].
  - vm_compute. reflexivity.
  - vm_compute. reflexivity.
  - destruct H as [w' H]; [done|]. by rewrite <- (Hw w' H) at 2.
Defined.




(** C6, as amended.  After a successful [mergeTo target src] the exporters
    of [target] are those it had followed by new ones, among which are, for
    each dependency [d] at position [i] of [src]: every direct key of [d]
    and the cache key of the result of [d], each with the selector of
    [src.cacheMap.Deps[i]], and the slow-cache key of [d] with the empty
    selector. *)
Theorem mergeTo_exports_dependencies target src w w' :
  mergeTo target src w = Returned true w' →
  ∃ t s t' X,
    edges w !! target = Some t ∧ edges w !! src = Some s ∧
    edges w' !! target = Some t' ∧
    secondaryExporters t' = secondaryExporters t ++ X ∧
    ∀ i d, deps s !! i = Some d →
      (∀ k, k ∈ keys d →
         ∃ cd, Deps (cacheMap s) !! i = Some cd ∧
               exporter i (dep_Selector cd) k ∈ X) ∧
      (∀ k, slowCacheKey d = Some k → exporter i EmptyString k ∈ X) ∧
      (∀ r, result d = Some r →
         ∃ cd, Deps (cacheMap s) !! i = Some cd ∧
               exporter i (dep_Selector cd) (result_CacheKey r) ∈ X).
Proof.
  intros H. apply mergeTo_exporters in H as (t & s & Ht & Hs & HE & Hsel).
  exists t, s, (append_secondaryExporters (merged_exporters (deps s) (cacheMap s)) t),
    (merged_exporters (deps s) (cacheMap s)).
  split; [done|]. split; [done|]. split; [by rewrite HE, lookup_insert_eq|].
  split; [done|]. intros i d Hd.
  assert (Hin : ∀ x, x ∈ dep_exporters (selector_of (cacheMap s) i) i d →
                     x ∈ merged_exporters (deps s) (cacheMap s)).
  { intros x Hx. unfold merged_exporters, exporters_from.
    apply list_elem_of_In, in_flat_map. exists (i, d). split.
    - by apply list_elem_of_In, elem_of_enumerate.
    - by apply list_elem_of_In. }
  rewrite Forall_forall in Hsel.
  assert (Hcd : needs_selector d = true →
                ∃ cd, Deps (cacheMap s) !! i = Some cd ∧
                      selector_of (cacheMap s) i = dep_Selector cd).
  { intros Hn. destruct (Hsel (i, d)) as [cd Hcd]; [by apply elem_of_enumerate|done|].
    simpl in Hcd. exists cd. split; [done|]. unfold selector_of. by rewrite Hcd. }
  split; [|split].
  - intros k Hk. destruct Hcd as (cd & Hcd & Hs').
    { unfold needs_selector. rewrite bool_decide_eq_false_2; [done|].
      intros Hnil. rewrite Hnil in Hk. by apply elem_of_nil in Hk. }
    exists cd. split; [done|]. apply Hin. unfold dep_exporters.
    apply elem_of_app. left. rewrite <- Hs'. by apply list_elem_of_fmap_2.
  - intros k Hk. apply Hin. unfold dep_exporters. rewrite Hk.
    apply elem_of_app. right. apply elem_of_app. left. by apply list_elem_of_singleton.
  - intros r Hr. destruct Hcd as (cd & Hcd & Hs').
    { unfold needs_selector. rewrite Hr. rewrite (bool_decide_eq_true_2 (is_Some (Some r))); [|done].
      by rewrite orb_true_r. }
    exists cd. split; [done|]. apply Hin. unfold dep_exporters. rewrite Hr.
    apply elem_of_app. right. apply elem_of_app. right. rewrite <- Hs'.
    by apply list_elem_of_singleton.
Qed.

Lemma mergeTo_exports_dependencies_witness :
  ∃ t', edges (outcome_world (mergeTo 1 2 ex_world) ex_world) !! 1 = Some t' ∧
        exporter 0 "sel" "k1" ∈ secondaryExporters t' ∧
        exporter 0 EmptyString "slow" ∈ secondaryExporters t' ∧
        exporter 0 "sel" "rk" ∈ secondaryExporters t'.
Proof.
  destruct (mergeTo_exports_dependencies 1 2 ex_world
              (outcome_world (mergeTo 1 2 ex_world) ex_world))
    as (t & s & t' & X & Ht & Hs & Ht' & HX & H).
  - vm_compute. reflexivity.
  - vm_compute in Hs. injection Hs as <-.
    destruct (H 0 ex_dep) as (Hk & Hslow & Hr); [done|].
    exists t'. split; [done|]. rewrite HX. split; [|split].
    + destruct (Hk "k1"%string) as (cd & Hcd & Hin); [apply list_elem_of_here|].
      vm_compute in Hcd. injection Hcd as <-.
      apply elem_of_app. by right.
    + apply elem_of_app. right. by apply Hslow.
    + destruct (Hr {| result_ID := "r"; result_CacheKey := "rk" |})
        as (cd & Hcd & Hin); [done|].
      vm_compute in Hcd. injection Hcd as <-.
      apply elem_of_app. by right.
Defined.

(** The claim of C6 for the slow-cache key: the dependency has the selector
    "sel" and the slow-cache key "slow", and after the merge the exporters of
    the target do not hold that key with that selector. *)
Lemma mergeTo_slow_key_without_selector :
  ∃ w' s t' d cd,
    mergeTo 1 2 ex_world = Returned true w' ∧
    edges ex_world !! 2 = Some s ∧ edges w' !! 1 = Some t' ∧
    deps s !! 0 = Some d ∧ Deps (cacheMap s) !! 0 = Some cd ∧
    slowCacheKey d = Some "slow"%string ∧ dep_Selector cd = "sel"%string ∧
    exporter 0 (dep_Selector cd) "slow" ∉ secondaryExporters t'.
Proof.
  do 5 eexists. split; [vm_compute; reflexivity|].
  split; [vm_compute; reflexivity|]. split; [vm_compute; reflexivity|].
  split; [reflexivity|]. split; [reflexivity|]. split; [reflexivity|].
  split; [reflexivity|]. vm_compute. intros H.
  repeat (apply elem_of_cons in H as [H|H]; [discriminate H|]).
  by apply elem_of_nil in H.
Qed.

(** C10.  After a successful [mergeTo target src] the exporters of
    [target] are those it had followed by [merged_exporters], a list
    computed from the dependencies of [src] and the selectors of its cache
    map alone: each new entry holds a direct key, the slow-cache key or the
    key of the result of the dependency at its index.  An exporter that
    [src] holds is not handed over: unless [target] had it already or the
    dependencies yield it again, [target] does not hold it afterwards, and
    the merged edge itself is left as it was. *)
Theorem mergeTo_exporters_from_deps_only target src w w' :
  mergeTo target src w = Returned true w' →
  ∃ t s t',
    edges w !! target = Some t ∧ edges w !! src = Some s ∧
    edges w' !! target = Some t' ∧
    secondaryExporters t'
      = secondaryExporters t ++ merged_exporters (deps s) (cacheMap s) ∧
    (∀ x, x ∈ merged_exporters (deps s) (cacheMap s) →
       ∃ d, deps s !! index x = Some d ∧
            (CacheKey (cacheKey x) ∈ keys d ∨
             slowCacheKey d = Some (CacheKey (cacheKey x)) ∨
             ∃ r, result d = Some r ∧ result_CacheKey r = CacheKey (cacheKey x))) ∧
    (∀ x, x ∈ secondaryExporters s → x ∉ secondaryExporters t →
          x ∉ merged_exporters (deps s) (cacheMap s) →
          x ∉ secondaryExporters t') ∧
    (target ≠ src → edges w' !! src = Some s).
Proof.
  intros H. apply mergeTo_exporters in H as (t & s & Ht & Hs & HE & _).
  exists t, s, (append_secondaryExporters (merged_exporters (deps s) (cacheMap s)) t).
  split; [done|]. split; [done|]. split; [by rewrite HE, lookup_insert_eq|].
  split; [done|]. split; [|split].
  - intros x Hx. unfold merged_exporters, exporters_from in Hx.
    apply list_elem_of_In, in_flat_map in Hx as ([i d] & Hid & Hx).
    apply list_elem_of_In, elem_of_enumerate in Hid.
    apply list_elem_of_In in Hx. simpl in Hx. unfold dep_exporters in Hx.
    apply elem_of_app in Hx as [Hx|Hx]; [|apply elem_of_app in Hx as [Hx|Hx]].
    + apply list_elem_of_fmap in Hx as (k & -> & Hk). exists d.
      split; [exact Hid|]. left. exact Hk.
    + destruct (slowCacheKey d) as [k|] eqn:Ek; [|by apply elem_of_nil in Hx].
      apply list_elem_of_singleton in Hx as ->. exists d.
      split; [exact Hid|]. right. left. exact Ek.
    + destruct (result d) as [r|] eqn:Er; [|by apply elem_of_nil in Hx].
      apply list_elem_of_singleton in Hx as ->. exists d.
      split; [exact Hid|]. right. right. by exists r.
  - intros x _ Hnt Hnm. simpl. intros Hx. apply elem_of_app in Hx as [Hx|Hx]; done.
  - intros Hne. by rewrite HE, lookup_insert_ne.
Qed.

Lemma mergeTo_exporters_from_deps_only_witness :
  ∃ s t', edges ex_world !! 2 = Some s ∧
          edges (outcome_world (mergeTo 1 2 ex_world) ex_world) !! 1 = Some t' ∧
          exporter 7 "old" "inherited" ∈ secondaryExporters s ∧
          exporter 7 "old" "inherited" ∉ secondaryExporters t'.
Proof.
  destruct (mergeTo_exporters_from_deps_only 1 2 ex_world
              (outcome_world (mergeTo 1 2 ex_world) ex_world))
    as (t & s & t' & Ht & Hs & Ht' & HX & _ & Hold & _).
  - vm_compute. reflexivity.
  - vm_compute in Hs. injection Hs as <-.
    vm_compute in Ht. injection Ht as <-.
    exists ex_eB, t'. split; [by vm_compute|]. split; [done|]. split.
    + vm_compute. apply list_elem_of_here.
    + apply Hold.
      * vm_compute. apply list_elem_of_here.
      * vm_compute. apply not_elem_of_nil.
      * vm_compute. intros H.
        repeat (apply elem_of_cons in H as [H|H]; [discriminate H|]).
        by apply elem_of_nil in H.
Defined.

(** ** dispatch: the snapshot and the receive loop *)

Lemma snapshot_returns l w : allocated w l → snapshot l w = Returned l w.
Proof.
  intros H. unfold snapshot. rewrite bind_eq.
  assert (Hl : for_range l (λ p, get_pipe p;; mret tt) w = Returned tt w).
  { induction H as [|p l [x Hx] _ IH]; [done|].
    rewrite for_range_cons, bind_eq. unfold get_pipe. by rewrite Hx. }
  by rewrite Hl.
Qed.

Lemma snapshot_returned l w l' w' :
  snapshot l w = Returned l' w' → l' = l ∧ w' = w ∧ allocated w l.
Proof.
  unfold snapshot. rewrite bind_eq.
  destruct (for_range _ _ _) as [[] w1|] eqn:E; [|done].
  intros [= <- <-].
  assert (Hl : w1 = w ∧ allocated w l); [|by destruct Hl].
  revert E. induction l as [|p l IH].
  - intros [= <-]. split; [done|constructor].
  - rewrite for_range_cons, bind_eq. unfold get_pipe.
    destruct (pipes w !! p) as [x|] eqn:Ex; [|done].
    intros [-> H]%IH. split; [done|]. constructor; [by rewrite Ex|done].
Qed.

Lemma Receive_eq p w :
  Receive p w =
  match pipes w !! p with
  | Some x =>
      Returned (pipe_receive x).1
        (with_log (log w ++ [EvReceive p (pipe_receive x).1])
           (with_pipes (<[p := received x]> (pipes w)) w))
  | None => Panic nil_dereference
  end.
Proof.
  unfold Receive. munfold. destruct (pipes w !! p) as [x|]; [|done].
  unfold received. by destruct (pipe_receive x).
Qed.

Lemma Receiver_Status_eq p w :
  Receiver_Status p w =
  match pipes w !! p with
  | Some x => Returned (receiverStatus x) w
  | None => Panic nil_dereference
  end.
Proof. unfold Receiver_Status. munfold. by destruct (pipes w !! p). Qed.

Lemma Sender_Status_eq p w :
  Sender_Status p w =
  match pipes w !! p with
  | Some x => Returned (senderStatus x) w
  | None => Panic nil_dereference
  end.
Proof. unfold Sender_Status. munfold. by destruct (pipes w !! p). Qed.

Lemma received_idemp x : received (received x) = received x.
Proof.
  unfold received, pipe_receive. destruct (update x) eqn:E; simpl; [done|].
  by rewrite E.
Qed.

Lemma pipe_receive_has_update (P : gmap nat edgePipe) p x :
  P !! p = Some x → (pipe_receive x).1 = has_update P p.
Proof.
  intros H. unfold has_update, pipe_receive. rewrite H.
  destruct (update x); [|done]. by rewrite bool_decide_eq_true_2.
Qed.

Lemma open_after_receive_insert (P : gmap nat edgePipe) p x q :
  P !! p = Some x →
  open_after_receive (<[p := received x]> P) q = open_after_receive P q.
Proof.
  intros H. unfold open_after_receive. destruct (decide (p = q)) as [<-|Hne].
  - by rewrite lookup_insert_eq, H, received_idemp.
  - by rewrite lookup_insert_ne.
Qed.

Lemma open_after_receive_final (P : gmap nat edgePipe) out p :
  p ∈ out → receiver_open (alter_all received out P) p = open_after_receive P p.
Proof.
  intros H. unfold receiver_open, open_after_receive.
  rewrite alter_all_in; [|apply received_idemp|done]. by destruct (P !! p).
Qed.

Lemma receive_updates_spec e out : ∀ w upd ed,
  edges w !! e = Some ed → allocated w out →
  ∃ rs,
    rs.*1 = out ∧
    (NoDup out → rs = (λ p, (p, has_update (pipes w) p)) <$> out) ∧
    receive_updates e out upd w =
    Returned (upd ++ (List.filter snd rs).*1)
      (with_log (log w ++ ((λ r, EvReceive r.1 r.2) <$> rs))
         (with_edges
            (if existsb (open_after_receive (pipes w)) out
             then <[e := set_hasActiveOutgoing true ed]> (edges w)
             else edges w)
            (with_pipes (alter_all received out (pipes w)) w))).
Proof.
  induction out as [|p out IH]; intros w upd ed He Hall.
  - exists []. split; [done|]. split; [done|]. simpl.
    rewrite !app_nil_r. by destruct w.
  - apply Forall_cons in Hall as [[x Hx] Hall].
    set (ok := (pipe_receive x).1).
    set (w1 := with_log (log w ++ [EvReceive p ok])
                 (with_pipes (<[p := received x]> (pipes w)) w)).
    set (act := negb (Completed (receiverStatus (received x)))).
    set (ed1 := if act then set_hasActiveOutgoing true ed else ed).
    set (w2 := if act then with_edges (<[e := ed1]> (edges w1)) w1 else w1).
    assert (He2 : edges w2 !! e = Some ed1).
    { unfold w2, ed1. destruct act; simpl; [by rewrite lookup_insert_eq|done]. }
    assert (Hp2 : pipes w2 = <[p := received x]> (pipes w)).
    { unfold w2. by destruct act. }
    assert (Hall2 : allocated w2 out).
    { unfold allocated. rewrite Hp2. eapply Forall_impl; [exact Hall|].
      intros q [y Hy]. destruct (decide (p = q)) as [<-|Hne].
      - by rewrite lookup_insert_eq.
      - rewrite lookup_insert_ne; [|done]. by rewrite Hy. }
    destruct (IH w2 (if ok then upd ++ [p] else upd) ed1 He2 Hall2)
      as (rs & Hrs & Hnd & Hrun).
    exists ((p, ok) :: rs). split; [by rewrite fmap_cons, Hrs|]. split.
    + intros [Hp Hnd']%NoDup_cons. rewrite fmap_cons. f_equal.
      * unfold ok. f_equal. by apply pipe_receive_has_update.
      * rewrite (Hnd Hnd'). apply list_fmap_ext. intros i q Hq. f_equal.
        unfold has_update. rewrite Hp2, lookup_insert_ne; [done|].
        intros ->. apply Hp. by apply list_elem_of_lookup_2 in Hq.
    + simpl receive_updates. rewrite bind_eq, Receive_eq, Hx. fold ok w1.
      rewrite bind_eq, Receiver_Status_eq. simpl pipes.
      rewrite lookup_insert_eq. fold act. rewrite bind_eq.
      assert (Hstep : (if act then update_edge e (set_hasActiveOutgoing true)
                       else mret tt) w1 = Returned tt w2).
      { unfold w2, ed1. destruct act; [|done].
        unfold update_edge. rewrite bind_eq. unfold get_edge. simpl. by rewrite He. }
      rewrite Hstep, Hrun. f_equal.
      * destruct ok; simpl; [|done]. by rewrite <- app_assoc.
      * rewrite Hp2. simpl existsb.
        replace (open_after_receive (pipes w) p) with act
          by (unfold open_after_receive; by rewrite Hx).
        rewrite (existsb_ext_all _ _ out (λ q, open_after_receive_insert (pipes w) p x q Hx)).
        rewrite (insert_as_alter received _ _ _ Hx).
        unfold w2, ed1, w1. destruct act; simpl.
        -- rewrite insert_insert_eq. rewrite <- app_assoc.
           destruct (existsb (open_after_receive (pipes w)) out); reflexivity.
        -- by rewrite <- app_assoc.
Qed.

Lemma dispatch_receive_spec e w ed :
  edges w !! e = Some ed →
  allocated w (slice_at (incoming w) e) → allocated w (slice_at (outgoing w) e) →
  ∃ rs,
    rs.*1 = slice_at (outgoing w) e ∧
    (NoDup (slice_at (outgoing w) e) →
       rs = (λ p, (p, has_update (pipes w) p)) <$> slice_at (outgoing w) e) ∧
    dispatch_receive e w =
    Returned (slice_at (incoming w) e, (List.filter snd rs).*1, slice_at (outgoing w) e)
      (with_log (log w ++ ((λ r, EvReceive r.1 r.2) <$> rs))
         (with_edges
            (<[e := set_hasActiveOutgoing
                      (existsb (open_after_receive (pipes w)) (slice_at (outgoing w) e))
                      ed]> (edges w))
            (with_pipes (alter_all received (slice_at (outgoing w) e) (pipes w)) w))).
Proof.
  intros He Hinc Hout.
  set (w0 := with_edges (<[e := set_hasActiveOutgoing false ed]> (edges w)) w).
  destruct (receive_updates_spec e (slice_at (outgoing w) e) w0 []
              (set_hasActiveOutgoing false ed)) as (rs & Hrs & Hnd & Hrun).
  { simpl. by rewrite lookup_insert_eq. }
  { done. }
  exists rs. split; [done|]. split; [done|].
  unfold dispatch_receive. rewrite bind_eq. unfold get at 1.
  rewrite bind_eq, (snapshot_returns _ _ Hinc).
  rewrite bind_eq, (snapshot_returns _ _ Hout).
  rewrite bind_eq. unfold update_edge at 1. rewrite bind_eq. unfold get_edge at 1.
  rewrite He. unfold modify at 1. fold w0. rewrite bind_eq, Hrun.
  unfold mret, M_ret. f_equal. simpl.
  destruct (existsb _ _); simpl; by rewrite ?insert_insert_eq.
Qed.

(** C8.  Let [e] be an edge and let the pipes of its two slices exist.
    Then the part of [dispatch e] that precedes [unpark] returns, and
    [unpark] is called in the state [w1] it leaves with the snapshot [inc],
    the list [updates] and the snapshot [out].  [Receive] has been called
    once on each receiver of [out], in the order of [out], and [updates]
    holds, in that order, the receivers for which it answered true; when no
    pipe occurs twice in [out] these are the receivers that had an update
    pending.  In [w1] the flag [hasActiveOutgoing] of [e] is true exactly
    when some receiver of [out] has a status that is not completed, whatever
    the flag was before. *)
Theorem dispatch_receives_before_unpark
    (unpark : nat → list nat → list nat → list nat → M unit) e w ed :
  edges w !! e = Some ed →
  allocated w (slice_at (incoming w) e) → allocated w (slice_at (outgoing w) e) →
  let inc := slice_at (incoming w) e in
  let out := slice_at (outgoing w) e in
  ∃ rs w1 ed1,
    let updates := (List.filter snd rs).*1 in
    dispatch_receive e w = Returned (inc, updates, out) w1 ∧
    dispatch_prune unpark e w
      = (emit (EvUnpark e inc updates out);; unpark e inc updates out;; prune e) w1 ∧
    rs.*1 = out ∧
    log w1 = log w ++ ((λ r, EvReceive r.1 r.2) <$> rs) ∧
    (NoDup out → updates = List.filter (has_update (pipes w)) out) ∧
    edges w1 !! e = Some ed1 ∧
    (hasActiveOutgoing ed1 = true ↔
       ∃ p x, p ∈ out ∧ pipes w1 !! p = Some x ∧ Completed (receiverStatus x) = false).
Proof.
  intros He Hinc Hout inc out.
  destruct (dispatch_receive_spec e w ed He Hinc Hout) as (rs & Hrs & Hnd & Hrun).
  fold inc out in Hrs, Hnd, Hrun.
  eexists rs, _, _. split; [exact Hrun|].
  split; [unfold dispatch_prune; by rewrite bind_eq, Hrun|].
  split; [done|]. split; [done|]. split.
  { intros H. rewrite (Hnd H). apply filter_snd_fmap. }
  split; [simpl; by rewrite lookup_insert_eq|]. simpl.
  rewrite existsb_exists. split.
  - intros (p & Hp & Hopen). apply list_elem_of_In in Hp.
    unfold open_after_receive in Hopen.
    assert (Ha : is_Some (pipes w !! p)).
    { unfold allocated in Hout. rewrite Forall_forall in Hout. by apply Hout. }
    destruct Ha as [x Hx]. rewrite Hx in Hopen.
    exists p, (received x). split; [done|]. split.
    + rewrite alter_all_in; [|apply received_idemp|done]. by rewrite Hx.
    + by apply negb_true_iff.
  - intros (p & x & Hp & Hx & Hc). exists p. split; [by apply list_elem_of_In|].
    rewrite <- (open_after_receive_final _ out) by done.
    unfold receiver_open. rewrite Hx. by apply negb_true_iff.
Qed.

Lemma dispatch_receives_before_unpark_witness :
  ∃ w1 ed1,
    dispatch_receive 2 ex_answered = Returned ([0], [1], [1; 2]) w1 ∧
    edges w1 !! 2 = Some ed1 ∧ hasActiveOutgoing ed1 = true.
Proof.
  destruct (dispatch_receives_before_unpark ex_unpark 2 ex_answered ex_eB)
    as (rs & w1 & ed1 & Hrun & _ & _ & _ & Hupd & Hed & Hact).
  - vm_compute. reflexivity.
  - compute_done.
  - compute_done.
  - exists w1, ed1. split; [|split; [done|]].
    + rewrite Hrun. rewrite Hupd by compute_done. vm_compute. reflexivity.
    + assert (Hw1 : pipes w1 !! 2
                    = pipes (outcome_world (dispatch_receive 2 ex_answered) ex_answered) !! 2)
        by (by rewrite Hrun).
      vm_compute in Hw1. apply Hact. eexists 2, _. split; [compute_done|].
      split; [exact Hw1|reflexivity].
Defined.

(** ** dispatch: the prune *)

Lemma open_pipes_spec (status : nat → M Status) (proj : edgePipe → Status) :
  (∀ p w, status p w =
          match pipes w !! p with
          | Some x => Returned (proj x) w
          | None => Panic nil_dereference
          end) →
  ∀ l w,
    (allocated w l →
     open_pipes status l w =
     Returned (List.filter (λ p, match pipes w !! p with
                                 | Some x => negb (Completed (proj x))
                                 | None => false
                                 end) l) w)
    ∧ (∀ r w', open_pipes status l w = Returned r w' → allocated w l).
Proof.
  intros Hst l w. induction l as [|p l [IH1 IH2]].
  - split; [done|]. intros _ _ _. constructor.
  - split.
    + intros [[x Hx] Hall]%Forall_cons. simpl open_pipes.
      rewrite bind_eq, Hst, Hx, bind_eq, (IH1 Hall). simpl. rewrite Hx.
      by destruct (negb _).
    + intros r w'. simpl open_pipes. rewrite bind_eq, Hst.
      destruct (pipes w !! p) as [x|] eqn:Hx; [|done].
      rewrite bind_eq. destruct (open_pipes status l w) as [r1 w1|] eqn:E; [|done].
      intros _. constructor; [by rewrite Hx|]. by eapply IH2.
Qed.

Lemma prune_incoming_spec e w :
  allocated w (slice_at (incoming w) e) →
  let oi := List.filter (sender_open (pipes w)) (slice_at (incoming w) e) in
  prune_incoming e w =
  Returned oi
    (with_incoming (match oi with
                    | [] => delete e (incoming w)
                    | _ => <[e := oi]> (incoming w)
                    end) w).
Proof.
  intros Hall oi. unfold prune_incoming. rewrite bind_eq. unfold get at 1.
  rewrite bind_eq.
  rewrite (proj1 (open_pipes_spec Sender_Status senderStatus Sender_Status_eq _ _) Hall).
  fold (sender_open (pipes w)). fold oi. destruct oi; done.
Qed.

Lemma prune_outgoing_spec e w :
  allocated w (slice_at (outgoing w) e) →
  let oo := List.filter (receiver_open (pipes w)) (slice_at (outgoing w) e) in
  prune_outgoing e w =
  Returned oo
    (with_outgoing (match oo with
                    | [] => delete e (outgoing w)
                    | _ => <[e := oo]> (outgoing w)
                    end) w).
Proof.
  intros Hall oo. unfold prune_outgoing. rewrite bind_eq. unfold get at 1.
  rewrite bind_eq.
  rewrite (proj1 (open_pipes_spec Receiver_Status receiverStatus Receiver_Status_eq _ _) Hall).
  fold (receiver_open (pipes w)). fold oo. destruct oo; done.
Qed.

Lemma prune_spec e w :
  allocated w (slice_at (incoming w) e) → allocated w (slice_at (outgoing w) e) →
  let oi := List.filter (sender_open (pipes w)) (slice_at (incoming w) e) in
  let oo := List.filter (receiver_open (pipes w)) (slice_at (outgoing w) e) in
  prune e w =
  Returned (oi, oo)
    (with_outgoing (match oo with
                    | [] => delete e (outgoing w)
                    | _ => <[e := oo]> (outgoing w)
                    end)
       (with_incoming (match oi with
                       | [] => delete e (incoming w)
                       | _ => <[e := oi]> (incoming w)
                       end) w)).
Proof.
  intros Hinc Hout oi oo. unfold prune.
  rewrite bind_eq, (prune_incoming_spec e w Hinc). fold oi.
  rewrite bind_eq, prune_outgoing_spec; [done|]. done.
Qed.

Lemma prune_returned e w r w' :
  prune e w = Returned r w' →
  allocated w (slice_at (incoming w) e) ∧ allocated w (slice_at (outgoing w) e).
Proof.
  unfold prune. rewrite bind_eq.
  destruct (prune_incoming e w) as [oi w1|] eqn:E1; [|done].
  rewrite bind_eq. destruct (prune_outgoing e w1) as [oo w2|] eqn:E2; [|done].
  intros _.
  assert (Hinc : allocated w (slice_at (incoming w) e)).
  { unfold prune_incoming in E1. rewrite bind_eq in E1. unfold get at 1 in E1.
    rewrite bind_eq in E1.
    destruct (open_pipes _ _ w) as [r1 w3|] eqn:E; [|done].
    by apply (proj2 (open_pipes_spec Sender_Status senderStatus Sender_Status_eq _ _)) in E. }
  split; [done|].
  rewrite (prune_incoming_spec e w Hinc) in E1. injection E1 as _ <-.
  unfold prune_outgoing in E2. rewrite bind_eq in E2. unfold get at 1 in E2.
  rewrite bind_eq in E2.
  destruct (open_pipes _ _ _) as [r1 w3|] eqn:E; [|done].
  by apply (proj2 (open_pipes_spec Receiver_Status receiverStatus Receiver_Status_eq _ _)) in E.
Qed.

Lemma prune_slices e w oi oo w' :
  prune e w = Returned (oi, oo) w' →
  slice_at (incoming w') e = oi ∧ slice_at (outgoing w') e = oo.
Proof.
  intros H. destruct (prune_returned _ _ _ _ H) as [Hinc Hout].
  rewrite (prune_spec e w Hinc Hout) in H. injection H as <- <- <-. simpl. split.
  - apply entry_slice.
    destruct (List.filter _ _); [apply lookup_delete_eq|apply lookup_insert_eq].
  - apply entry_slice.
    destruct (List.filter (receiver_open _) _);
      [apply lookup_delete_eq|apply lookup_insert_eq].
Qed.

(** C7.  Let the pipes of the two slices of [e] exist.  Then the prune
    returns [(openIncoming, openOutgoing)]: the pipes of [incoming[e]] whose
    sender is not completed and the pipes of [outgoing[e]] whose receiver is
    not completed, each in the order of its slice.  Afterwards [incoming[e]]
    is [openIncoming] and [outgoing[e]] is [openOutgoing], the entry being
    absent from the map when the list is empty; the entries of the other
    edges, the pipes and the edges are unchanged. *)
Theorem prune_keeps_open_pipes e w :
  allocated w (slice_at (incoming w) e) → allocated w (slice_at (outgoing w) e) →
  let oi := List.filter (sender_open (pipes w)) (slice_at (incoming w) e) in
  let oo := List.filter (receiver_open (pipes w)) (slice_at (outgoing w) e) in
  ∃ w', prune e w = Returned (oi, oo) w' ∧
    incoming w' !! e = entry oi ∧ outgoing w' !! e = entry oo ∧
    slice_at (incoming w') e = oi ∧ slice_at (outgoing w') e = oo ∧
    (∀ p, p ∈ oi ↔ p ∈ slice_at (incoming w) e ∧
                    ∃ x, pipes w !! p = Some x ∧ Completed (senderStatus x) = false) ∧
    (∀ p, p ∈ oo ↔ p ∈ slice_at (outgoing w) e ∧
                    ∃ x, pipes w !! p = Some x ∧ Completed (receiverStatus x) = false) ∧
    (∀ k, k ≠ e → incoming w' !! k = incoming w !! k ∧
                  outgoing w' !! k = outgoing w !! k) ∧
    pipes w' = pipes w ∧ edges w' = edges w ∧ waitq w' = waitq w ∧ log w' = log w.
Proof.
  intros Hinc Hout oi oo. eexists. split; [by apply prune_spec|]. simpl.
  fold oi oo.
  assert (HI : (match oi with [] => delete e (incoming w) | _ => <[e := oi]> (incoming w) end)
                 !! e = entry oi).
  { destruct oi; [apply lookup_delete_eq|apply lookup_insert_eq]. }
  assert (HO : (match oo with [] => delete e (outgoing w) | _ => <[e := oo]> (outgoing w) end)
                 !! e = entry oo).
  { destruct oo; [apply lookup_delete_eq|apply lookup_insert_eq]. }
  split; [done|]. split; [done|].
  split; [by apply entry_slice|]. split; [by apply entry_slice|].
  split; [|split; [|split]].
  - intros p. unfold oi. rewrite list_elem_of_In, filter_In, <- list_elem_of_In.
    unfold sender_open. split.
    + intros [Hp Hs]. split; [done|]. destruct (pipes w !! p) as [x|]; [|done].
      exists x. split; [done|]. by apply negb_true_iff.
    + intros (Hp & x & Hx & Hc). split; [done|]. rewrite Hx. by apply negb_true_iff.
  - intros p. unfold oo. rewrite list_elem_of_In, filter_In, <- list_elem_of_In.
    unfold receiver_open. split.
    + intros [Hp Hs]. split; [done|]. destruct (pipes w !! p) as [x|]; [|done].
      exists x. split; [done|]. by apply negb_true_iff.
    + intros (Hp & x & Hx & Hc). split; [done|]. rewrite Hx. by apply negb_true_iff.
  - intros k Hk. split.
    + destruct oi; [by rewrite lookup_delete_ne|by rewrite lookup_insert_ne].
    + destruct oo; [by rewrite lookup_delete_ne|by rewrite lookup_insert_ne].
  - done.
Qed.

Lemma prune_keeps_open_pipes_witness :
  ∃ w', prune 2 ex_received = Returned ([0], [2]) w' ∧
        incoming w' !! 2 = Some [0] ∧ outgoing w' !! 2 = Some [2].
Proof.
  destruct (prune_keeps_open_pipes 2 ex_received) as (w' & Hrun & HI & HO & _).
  - compute_done.
  - compute_done.
  - exists w'. split; [exact Hrun|]. split; [exact HI|exact HO].
Defined.

(** ** dispatch: the merge on a key change *)

Lemma LoadOrStore_eq k e w :
  LoadOrStore k e w =
  Returned (load_or_store (eindex w) k e)
    (with_log (log w ++ [EvLoadOrStore k e (load_or_store (eindex w) k e)])
       (with_eindex (match eindex w !! k with
                     | Some _ => eindex w
                     | None => <[k := e]> (eindex w)
                     end) w)).
Proof.
  unfold LoadOrStore, load_or_store. munfold.
  destruct (eindex w !! k) as [o|]; [|done]. by destruct w.
Qed.



Lemma merge_on_key_change_eq e w x :
  edges w !! e = Some x →
  merge_on_key_change e w =
  if keysDidChange x then
    match indexKey x with
    | None => Returned tt (clear_keysDidChange e x w)
    | Some k =>
        match LoadOrStore k e w with
        | Returned None w1 => Returned tt (clear_keysDidChange e x w1)
        | Returned (Some o) w1 =>
            match mergeTo o e w1 with
            | Returned true wm =>
                ((x ← get_edge e; SetEdge (e_edge x) o);;
                 update_edge e (set_keysDidChange false)) wm
            | Returned false wm => update_edge e (set_keysDidChange false) wm
            | Panic msg => Panic msg
            end
        | Panic msg => Panic msg
        end
    end
  else Returned tt w.
Proof.
  intros He. unfold merge_on_key_change. rewrite bind_eq. unfold get_edge at 1.
  rewrite He. destruct (keysDidChange x); [|done].
  assert (Hk : currentIndexKey e w = Returned (indexKey x) w).
  { unfold currentIndexKey. rewrite bind_eq. unfold get_edge. by rewrite He. }
  rewrite bind_eq, Hk, bind_eq.
  destruct (indexKey x) as [k|].
  - rewrite bind_eq, LoadOrStore_eq.
    destruct (load_or_store (eindex w) k e) as [o|].
    + rewrite bind_eq. destruct (mergeTo o e _) as [[] wm|]; try done.
    + unfold mret at 1, M_ret at 1. rewrite update_edge_eq. simpl. by rewrite He.
  - unfold mret at 1, M_ret at 1. rewrite update_edge_eq. by rewrite He.
Qed.


Lemma merge_on_key_change_maps e w w' :
  merge_on_key_change e w = Returned tt w' →
  (incoming w' = incoming w ∧ outgoing w' = outgoing w) ∨
  (incoming w' !! e = None ∧ outgoing w' !! e = None).
Proof.
  intros H. assert (Hx : is_Some (edges w !! e)).
  { unfold merge_on_key_change in H. rewrite bind_eq in H. unfold get_edge at 1 in H.
    destruct (edges w !! e); [eauto|done]. }
  destruct Hx as [x He]. rewrite (merge_on_key_change_eq e w x He) in H.
  destruct (keysDidChange x); [|injection H as <-; by left].
  destruct (indexKey x) as [k|]; [|injection H as <-; by left].
  rewrite LoadOrStore_eq in H.
  destruct (load_or_store (eindex w) k e) as [o|]; [|injection H as <-; by left].
  destruct (mergeTo o e _) as [merged wm|] eqn:Hm; [|done].
  destruct (mergeTo_frame _ _ _ _ _ Hm) as (_ & _ & _ & _ & Hb).
  destruct merged.
  - right. apply bind_returned in H as ([] & w2 & H2 & H).
    apply bind_returned in H2 as (x' & w3 & H3 & H2).
    unfold get_edge in H3. destruct (edges wm !! e); [|done]. injection H3 as <- <-.
    injection H2 as <-. rewrite update_edge_eq in H.
    destruct (edges _ !! e); [|done]. injection H as <-. done.
  - left. subst wm. rewrite update_edge_eq in H.
    destruct (edges _ !! e); [|done]. injection H as <-. done.
Qed.

(** ** dispatch as a whole *)

Lemma validate_eq oi oo w :
  validate oi oo w =
  match oi, oo with
  | _ :: _, [] => Panic "invalid dispatch: return leaving incoming open"
  | [], _ :: _ => Panic "invalid dispatch: return leaving outgoing open"
  | _, _ => Returned tt w
  end.
Proof. by destruct oi, oo. Qed.

Lemma dispatch_eq unpark e w :
  dispatch unpark e w =
  match dispatch_prune unpark e w with
  | Returned (oi, oo) w3 =>
      match merge_on_key_change e w3 with
      | Returned _ w4 => validate oi oo w4
      | Panic msg => Panic msg
      end
  | Panic msg => Panic msg
  end.
Proof.
  unfold dispatch. rewrite bind_eq.
  destruct (dispatch_prune unpark e w) as [[oi oo] w3|]; [|done].
  by rewrite bind_eq.
Qed.

Lemma dispatch_prune_returned unpark e w r w3 :
  dispatch_prune unpark e w = Returned r w3 →
  ∃ w2, prune e w2 = Returned r w3.
Proof.
  unfold dispatch_prune. intros H.
  apply bind_returned in H as ([[inc upd] out] & w1 & _ & H).
  apply bind_returned in H as ([] & w1' & _ & H).
  apply bind_returned in H as ([] & w2 & _ & H). eauto.
Qed.

(** [dispatch] returns the state its merge step returns. *)
Lemma dispatch_returned unpark e w w' :
  dispatch unpark e w = Returned tt w' →
  ∃ oi oo w3, dispatch_prune unpark e w = Returned (oi, oo) w3 ∧
              merge_on_key_change e w3 = Returned tt w'.
Proof.
  rewrite dispatch_eq.
  destruct (dispatch_prune unpark e w) as [[oi oo] w3|]; [|done].
  destruct (merge_on_key_change e w3) as [[] w4|] eqn:Hm; [|done].
  rewrite validate_eq. intros H. exists oi, oo, w3. split; [done|].
  destruct oi, oo; try done; by injection H as <-.
Qed.



(** C2.  Let the prune of [dispatch e] have returned the lists
    [openIncoming] and [openOutgoing].  If [dispatch e] returns, the two
    lists are both empty or both non-empty, and so are [incoming[e]] and
    [outgoing[e]] in the state it returns.  If exactly one of the two lists
    is empty, [dispatch e] panics; with the message of line 173 or of line
    176, according to the list that is not empty, when the merge step
    returns. *)
Theorem dispatch_no_half_open_edge
    (unpark : nat → list nat → list nat → list nat → M unit) e w oi oo w3 :
  dispatch_prune unpark e w = Returned (oi, oo) w3 →
  (∀ w', dispatch unpark e w = Returned tt w' →
         (oi = [] ↔ oo = []) ∧
         (slice_at (incoming w') e = [] ↔ slice_at (outgoing w') e = [])) ∧
  (¬ (oi = [] ↔ oo = []) → ∃ msg, dispatch unpark e w = Panic msg) ∧
  (∀ w4, merge_on_key_change e w3 = Returned tt w4 →
         (oi ≠ [] → oo = [] →
          dispatch unpark e w = Panic "invalid dispatch: return leaving incoming open") ∧
         (oi = [] → oo ≠ [] →
          dispatch unpark e w = Panic "invalid dispatch: return leaving outgoing open")).
Proof.
  intros Hp. rewrite dispatch_eq, Hp. split; [|split].
  - intros w' H.
    destruct (merge_on_key_change e w3) as [[] w4|] eqn:Hm; [|done].
    rewrite validate_eq in H.
    assert (Hio : oi = [] ↔ oo = []).
    { destruct oi, oo; try done. }
    split; [done|].
    assert (w4 = w') as -> by (destruct oi, oo; by try injection H as ->).
    apply dispatch_prune_returned in Hp as [w2 Hp].
    destruct (prune_slices _ _ _ _ _ Hp) as [HI HO].
    destruct (merge_on_key_change_maps _ _ _ Hm) as [[-> ->]|[HI' HO']].
    + by rewrite HI, HO.
    + unfold slice_at. by rewrite HI', HO'.
  - intros Hn. destruct (merge_on_key_change e w3) as [[] w4|]; [|by eexists].
    rewrite validate_eq. destruct oi as [|a oi], oo as [|b oo].
    + exfalso. by apply Hn.
    + by eexists.
    + by eexists.
    + exfalso. apply Hn. by split.
  - intros w4 ->. rewrite validate_eq. split.
    + intros Hi ->. by destruct oi.
    + intros -> Ho. by destruct oo.
Qed.

Lemma dispatch_no_half_open_edge_witness :
  (∃ w', dispatch ex_unpark 2 ex_world = Returned tt w' ∧
         slice_at (incoming w') 2 = [] ∧ slice_at (outgoing w') 2 = []) ∧
  dispatch ex_unpark 3 ex_world = Panic "invalid dispatch: return leaving incoming open".
Proof.
  split.
  - destruct (dispatch_no_half_open_edge ex_unpark 2 ex_world [0] [1; 2]
                (outcome_world (dispatch_prune ex_unpark 2 ex_world) ex_world))
      as (H & _ & _).
    + vm_compute. reflexivity.
    + exists (outcome_world (dispatch ex_unpark 2 ex_world) ex_world).
      assert (Hd : dispatch ex_unpark 2 ex_world
                   = Returned tt (outcome_world (dispatch ex_unpark 2 ex_world) ex_world))
        by (vm_compute; reflexivity).
      split; [exact Hd|]. destruct (H _ Hd) as [_ Hio].
      assert (Hi : slice_at (incoming (outcome_world (dispatch ex_unpark 2 ex_world) ex_world)) 2 = [])
        by (vm_compute; reflexivity).
      split; [exact Hi|]. by apply Hio.
  - destruct (dispatch_no_half_open_edge ex_unpark 3 ex_world [1] []
                (outcome_world (dispatch_prune ex_unpark 3 ex_world) ex_world))
      as (_ & _ & H).
    + vm_compute. reflexivity.
    + destruct (H (outcome_world (dispatch_prune ex_unpark 3 ex_world) ex_world)) as [Hi _].
      * vm_compute. reflexivity.
      * by apply Hi.
Defined.

(** * Further properties of the scheduler *)

(** ** The queue under several signals and dequeues *)

Lemma queue_inv_ext w w' l :
  q_next w' = q_next w → q_last w' = q_last w → nodes w' = nodes w →
  waitq w' = waitq w → queue_inv w l → queue_inv w' l.
Proof.
  intros Hn Hl Hh Hw (Q & Hnd & Hm). split; [|split; [done|]].
  - unfold is_queue in *. rewrite Hn, Hl, Hh. exact Q.
  - intros e. rewrite Hw. apply Hm.
Qed.

Lemma signal_inv w l e :
  queue_inv w l →
  ∃ w', signal e w = Returned tt w' ∧ queue_inv w' (enqueue l e) ∧
        waitq w' = {[e]} ∪ waitq w ∧
        ef w' = ef w ∧ stopped w' = stopped w ∧ closed w' = closed w ∧
        incoming w' = incoming w ∧ outgoing w' = outgoing w ∧
        edges w' = edges w ∧ pipes w' = pipes w ∧ eindex w' = eindex w ∧
        log w' = log w ++ (if decide (e ∈ l) then [] else [EvCondSignal]).
Proof.
  intros Hq. unfold enqueue. destruct (decide (e ∈ l)) as [Hin|Hn].
  - assert (He : e ∈ waitq w) by (by apply Hq).
    exists w. rewrite signal_queued by done. rewrite app_nil_r.
    repeat split; try done; try apply Hq.
    symmetry. apply subseteq_union_1_L. by apply singleton_subseteq_l.
  - assert (He : e ∉ waitq w) by (intros H; apply Hn; by apply Hq).
    destruct (queue_inv_signal w l e Hq He) as (w' & Hs & Hq' & Hw').
    exists w'. split; [done|]. split; [done|]. split; [done|].
    apply signal_returned in Hs as [[Hc _]|(_ & nx & ls & N & ->)]; [done|].
    simpl. repeat split; done.
Qed.

(** ** Pipe creation *)

Lemma newPipe_returned target from req w p w' :
  newPipe target from req w = Returned p w' →
  p = fresh (dom (pipes w)) ∧
  pipes w' = <[p := new_edgePipe target from req]> (pipes w) ∧
  incoming w' = <[target := slice_at (incoming w) target ++ [p]]> (incoming w) ∧
  outgoing w' = match from with
                | Some f => <[f := slice_at (outgoing w) f ++ [p]]> (outgoing w)
                | None => outgoing w
                end ∧
  ∃ w2, signal target
          (with_pipes (<[p := pipe_New req (Some target) from]> (pipes w)) w)
        = Returned tt w2 ∧
        q_next w' = q_next w2 ∧ q_last w' = q_last w2 ∧ nodes w' = nodes w2 ∧
        waitq w' = waitq w2 ∧ log w' = log w2 ∧ edges w' = edges w2 ∧
        ef w' = ef w2 ∧ eindex w' = eindex w2 ∧ stopped w' = stopped w2 ∧
        closed w' = closed w2.
Proof.
  unfold newPipe. rewrite bind_eq. unfold get at 1.
  set (p0 := fresh (dom (pipes w))).
  rewrite bind_eq. unfold modify at 1.
  set (w1 := with_pipes _ w). rewrite bind_eq.
  destruct (signal target w1) as [[] w2|] eqn:Hs; [|done].
  assert (Hp2 : pipes w2 = pipes w1 ∧ incoming w2 = incoming w ∧ outgoing w2 = outgoing w).
  { apply signal_returned in Hs as [[_ ->]|(_ & nx & ls & N & ->)]; done. }
  destruct Hp2 as (Hp2 & Hi2 & Ho2).
  assert (Hl : pipes w2 !! p0 = Some (pipe_New req (Some target) from)).
  { rewrite Hp2. unfold w1. simpl. apply lookup_insert_eq. }
  rewrite bind_eq. destruct from as [f|].
  - rewrite bind_eq. unfold update_pipe at 1. rewrite bind_eq.
    unfold get_pipe at 1. rewrite Hl. unfold modify at 1, modify at 1.
    rewrite bind_eq. unfold modify at 1. rewrite bind_eq.
    unfold update_pipe. rewrite bind_eq. unfold get_pipe. simpl.
    rewrite lookup_insert_eq. unfold modify, mret, M_ret. simpl.
    intros [= <- <-]. simpl. rewrite insert_insert_eq, Hp2, Hi2, Ho2.
    unfold w1. simpl. rewrite insert_insert_eq.
    split; [done|]. split; [done|]. split; [done|]. split; [done|].
    exists w2. repeat split; done.
  - unfold mret at 1, M_ret at 1. rewrite bind_eq. unfold modify at 1.
    rewrite bind_eq. unfold update_pipe. rewrite bind_eq. unfold get_pipe. simpl.
    rewrite Hl. unfold modify, mret, M_ret. simpl.
    intros [= <- <-]. simpl. rewrite Hp2, Hi2, Ho2.
    unfold w1. simpl. rewrite insert_insert_eq.
    split; [done|]. split; [done|]. split; [done|]. split; [done|].
    exists w2. repeat split; done.
Qed.

Lemma newPipe_returns target from req w l :
  queue_inv w l → ∃ p w', newPipe target from req w = Returned p w'.
Proof.
  intros Hq. unfold newPipe. rewrite bind_eq. unfold get at 1.
  rewrite bind_eq. unfold modify at 1. set (w1 := with_pipes _ w).
  destruct (signal_inv w1 l target) as (w2 & Hs & _ & _ & _ & _ & _ & Hi & Ho & _ & Hp & _).
  { by apply (queue_inv_ext w). }
  rewrite bind_eq, Hs.
  assert (Hl : pipes w2 !! fresh (dom (pipes w))
               = Some (pipe_New req (Some target) from)).
  { rewrite Hp. unfold w1. simpl. apply lookup_insert_eq. }
  rewrite bind_eq. destruct from as [f|].
  - rewrite bind_eq. unfold update_pipe at 1. rewrite bind_eq.
    unfold get_pipe at 1. rewrite Hl. unfold modify at 1, modify at 1.
    rewrite bind_eq. unfold modify at 1. rewrite bind_eq.
    unfold update_pipe. rewrite bind_eq. unfold get_pipe. simpl.
    rewrite lookup_insert_eq. unfold modify, mret, M_ret. by do 2 eexists.
  - unfold mret at 1, M_ret at 1. rewrite bind_eq. unfold modify at 1.
    rewrite bind_eq. unfold update_pipe. rewrite bind_eq. unfold get_pipe. simpl.
    rewrite Hl. unfold modify, mret, M_ret. by do 2 eexists.
Qed.

Lemma slice_at_insert m t l e :
  slice_at (<[t := l]> m) e = if decide (t = e) then l else slice_at m e.
Proof.
  unfold slice_at. destruct (decide (t = e)) as [<-|Hne].
  - by rewrite lookup_insert_eq.
  - by rewrite lookup_insert_ne.
Qed.

Lemma slice_at_delete m t e :
  slice_at (delete t m) e = if decide (t = e) then [] else slice_at m e.
Proof.
  unfold slice_at. destruct (decide (t = e)) as [<-|Hne].
  - by rewrite lookup_delete_eq.
  - by rewrite lookup_delete_ne.
Qed.

Lemma fresh_pipe_unallocated w : pipes w !! fresh (dom (pipes w)) = None.
Proof. apply not_elem_of_dom, is_fresh. Qed.

Lemma wired_new_pipe w w' p x (ti fo : option nat) :
  wired w → pipes w !! p = None → pipes w' = <[p := x]> (pipes w) →
  incoming w' = match ti with
                | Some t => <[t := slice_at (incoming w) t ++ [p]]> (incoming w)
                | None => incoming w
                end →
  (∀ t, ti = Some t → Target x = Some t) →
  outgoing w' = match fo with
                | Some f => <[f := slice_at (outgoing w) f ++ [p]]> (outgoing w)
                | None => outgoing w
                end →
  (∀ f, fo = Some f → From x = Some f) →
  wired w'.
Proof.
  intros (HI & HO & NI & NO) Hp HP Hi Ht Ho Hf.
  assert (Hold : ∀ q y, pipes w !! q = Some y → pipes w' !! q = Some y).
  { intros q y Hq. rewrite HP, lookup_insert_ne; [done|]. intros <-. congruence. }
  assert (HpI : ∀ e, p ∉ slice_at (incoming w) e).
  { intros e Hin. destruct (HI e p Hin) as (y & Hy & _). congruence. }
  assert (HpO : ∀ e, p ∉ slice_at (outgoing w) e).
  { intros e Hin. destruct (HO e p Hin) as (y & Hy & _). congruence. }
  assert (Hnew : pipes w' !! p = Some x) by (rewrite HP; apply lookup_insert_eq).
  split; [|split; [|split]].
  - intros e q. rewrite Hi. destruct ti as [t|].
    + rewrite slice_at_insert. destruct (decide (t = e)) as [<-|Hne].
      * intros [Hq|Hq]%elem_of_app.
        -- destruct (HI t q Hq) as (y & Hy & Hty). eauto.
        -- apply list_elem_of_singleton in Hq as ->.
           exists x. split; [done|]. by apply Ht.
      * intros Hq. destruct (HI e q Hq) as (y & Hy & Hty). eauto.
    + intros Hq. destruct (HI e q Hq) as (y & Hy & Hty). eauto.
  - intros e q. rewrite Ho. destruct fo as [f|].
    + rewrite slice_at_insert. destruct (decide (f = e)) as [<-|Hne].
      * intros [Hq|Hq]%elem_of_app.
        -- destruct (HO f q Hq) as (y & Hy & Hty). eauto.
        -- apply list_elem_of_singleton in Hq as ->.
           exists x. split; [done|]. by apply Hf.
      * intros Hq. destruct (HO e q Hq) as (y & Hy & Hty). eauto.
    + intros Hq. destruct (HO e q Hq) as (y & Hy & Hty). eauto.
  - intros e. rewrite Hi. destruct ti as [t|]; [|done].
    rewrite slice_at_insert. destruct (decide (t = e)) as [<-|Hne]; [|done].
    apply NoDup_app. split; [done|]. split; [|apply NoDup_singleton].
    intros q Hq ->%list_elem_of_singleton. by apply (HpI t).
  - intros e. rewrite Ho. destruct fo as [f|]; [|done].
    rewrite slice_at_insert. destruct (decide (f = e)) as [<-|Hne]; [|done].
    apply NoDup_app. split; [done|]. split; [|apply NoDup_singleton].
    intros q Hq ->%list_elem_of_singleton. by apply (HpO f).
Qed.

Lemma newRequestWithFunc_eq e f w :
  newRequestWithFunc e f w =
  let p := fresh (dom (pipes w)) in
  Returned p
    (with_log (log w ++ [EvGo p])
       (with_outgoing (<[e := slice_at (outgoing w) e ++ [p]]> (outgoing w))
          (with_pipes (<[p := new_funcPipe e f]> (pipes w)) w))).
Proof.
  unfold newRequestWithFunc. munfold. rewrite lookup_insert_eq. simpl.
  by rewrite insert_insert_eq.
Qed.

(** X1.  On a well-formed queue [newPipe target from req] returns a handle
    that was not in use.  The pipe behind it has the request [req], both
    sides pending, [Target] [target] and [From] [from], the callback that
    signals the target on receive completion and, when there is a [from],
    the one that signals it on send completion.  The handle is appended to
    [incoming[target]] and, when there is a [from], to [outgoing[from]];
    no other pipe, slice or edge changes, and [target] is queued, at the end
    of the queue unless it was queued already. *)
Theorem newPipe_creates_pipe target from req w l :
  queue_inv w l →
  ∃ p w', newPipe target from req w = Returned p w' ∧
    pipes w !! p = None ∧
    pipes w' = <[p := new_edgePipe target from req]> (pipes w) ∧
    incoming w' = <[target := slice_at (incoming w) target ++ [p]]> (incoming w) ∧
    outgoing w' = match from with
                  | Some f => <[f := slice_at (outgoing w) f ++ [p]]> (outgoing w)
                  | None => outgoing w
                  end ∧
    queue_inv w' (enqueue l target) ∧ waitq w' = {[target]} ∪ waitq w ∧
    edges w' = edges w ∧ ef w' = ef w ∧ eindex w' = eindex w.
Proof.
  intros Hq. destruct (newPipe_returns target from req w l Hq) as (p & w' & Hrun).
  exists p, w'. split; [done|].
  apply newPipe_returned in Hrun as (-> & HP & HI & HO & w2 & Hs & Hn & Hl & Hh & Hw & _ & He & Hef & Hix & _).
  split; [apply fresh_pipe_unallocated|]. split; [done|]. split; [done|].
  split; [done|].
  set (w1 := with_pipes _ w) in Hs.
  destruct (signal_inv w1 l target) as (w2' & Hs' & Hq2 & Hw2 & Hef2 & _ & _ & _ & _ & He2 & _ & Hix2 & _).
  { by apply (queue_inv_ext w). }
  rewrite Hs in Hs'. injection Hs' as <-.
  split; [by apply (queue_inv_ext w2)|]. split; [by rewrite Hw, Hw2|].
  split; [by rewrite He, He2|]. split; [by rewrite Hef, Hef2|]. by rewrite Hix, Hix2.
Qed.

Lemma newPipe_creates_pipe_witness :
  ∃ p w', newPipe 3 (Some 1) {| Payload := PayloadFunc 0; req_Canceled := false |}
            ex_queued = Returned p w' ∧
          slice_at (incoming w') 3 = [p] ∧ slice_at (outgoing w') 1 = [p] ∧
          queue_inv w' [3; 1].
Proof.
  destruct (newPipe_creates_pipe 3 (Some 1)
              {| Payload := PayloadFunc 0; req_Canceled := false |} ex_queued [3; 1])
    as (p & w' & Hrun & _ & _ & HI & HO & Hq & _).
  - split; [|split].
    + exists 0, 1. vm_compute. repeat split. by exists 1.
    + compute_done.
    + intros e. assert (waitq ex_queued = {[3]} ∪ {[1]}) as -> by (vm_compute; reflexivity).
      rewrite elem_of_union, !elem_of_singleton, elem_of_cons, list_elem_of_singleton.
      done.
  - exists p, w'. split; [done|]. rewrite HI, HO, !slice_at_insert.
    rewrite !decide_True by done. split; [done|]. split; [done|]. exact Hq.
Defined.


(** X3.  [NewInputRequest] for a descriptor the factory does not know
    panics with "failed to get edge".  For a descriptor of an edge [t], on a
    well-formed queue, it returns a new pipe that is the last of both
    [incoming[t]] and [outgoing[pf_e]], with [Target] [t] and [From]
    [pf_e]. *)
Theorem NewInputRequest_links_both_sides pf_e ee req w l :
  queue_inv w l →
  match ef w !! ee with
  | None => NewInputRequest pf_e ee req w = Panic "failed to get edge"
  | Some t =>
      ∃ p w' x, NewInputRequest pf_e ee req w = Returned p w' ∧
        pipes w !! p = None ∧ pipes w' !! p = Some x ∧
        Target x = Some t ∧ From x = Some pf_e ∧
        Payload (request x) = PayloadEdgeRequest req ∧
        slice_at (incoming w') t = slice_at (incoming w) t ++ [p] ∧
        (∀ k, slice_at (outgoing w') k
              = if decide (pf_e = k) then slice_at (outgoing w) k ++ [p]
                else slice_at (outgoing w) k) ∧
        t ∈ waitq w'
  end.
Proof.
  intros Hq. unfold NewInputRequest. rewrite bind_eq. unfold GetEdge.
  rewrite bind_eq. unfold get, mret, M_ret.
  destruct (ef w !! ee) as [t|]; [|done].
  destruct (newPipe_returns t (Some pf_e)
              {| Payload := PayloadEdgeRequest req; req_Canceled := false |} w l Hq)
    as (p & w' & Hrun).
  exists p, w', (new_edgePipe t (Some pf_e)
                   {| Payload := PayloadEdgeRequest req; req_Canceled := false |}).
  split; [done|].
  apply newPipe_returned in Hrun as (-> & HP & HI & HO & w2 & Hs & _ & _ & _ & Hw & _).
  split; [apply fresh_pipe_unallocated|].
  split; [rewrite HP; apply lookup_insert_eq|].
  split; [done|]. split; [done|]. split; [done|].
  split; [rewrite HI, slice_at_insert; by rewrite decide_True|].
  split. { intros k. simpl in HO. rewrite HO, slice_at_insert.
    by destruct (decide (pf_e = k)) as [->|]. }
  rewrite Hw. apply signal_returned in Hs as [[Hin ->]|(_ & nx & ls & N & ->)].
  - done.
  - simpl. apply elem_of_union_l. by apply elem_of_singleton.
Qed.

Lemma NewInputRequest_links_both_sides_witness :
  NewInputRequest 1 ex_dD {| desiredState := edgeStatusComplete |} ex_queued
    = Panic "failed to get edge" ∧
  ∃ p w', NewInputRequest 1 ex_dC {| desiredState := edgeStatusComplete |} ex_queued
            = Returned p w' ∧
          slice_at (incoming w') 3 = [p] ∧ slice_at (outgoing w') 1 = [p].
Proof.
  assert (Hq : queue_inv ex_queued [3; 1]).
  { split; [|split].
    - exists 0, 1. vm_compute. repeat split. by exists 1.
    - compute_done.
    - intros e. assert (waitq ex_queued = {[3]} ∪ {[1]}) as -> by (vm_compute; reflexivity).
      rewrite elem_of_union, !elem_of_singleton, elem_of_cons, list_elem_of_singleton.
      done. }
  split.
  - exact (NewInputRequest_links_both_sides 1 ex_dD
             {| desiredState := edgeStatusComplete |} ex_queued [3; 1] Hq).
  - pose proof (NewInputRequest_links_both_sides 1 ex_dC
                  {| desiredState := edgeStatusComplete |} ex_queued [3; 1] Hq) as H.
    assert (Hef : ef ex_queued !! ex_dC = Some 3) by (vm_compute; reflexivity).
    rewrite Hef in H. destruct H as (p & w' & x & Hrun & _ & _ & _ & _ & _ & HI & HO & _).
    exists p, w'. split; [done|]. rewrite HI, (HO 1).
    rewrite decide_True by done. done.
Defined.

(** ** The wiring of pipes and slices *)

Lemma wired_ext w w' :
  incoming w' = incoming w → outgoing w' = outgoing w →
  (∀ q x, pipes w !! q = Some x →
          ∃ x', pipes w' !! q = Some x' ∧ Target x' = Target x ∧ From x' = From x) →
  wired w → wired w'.
Proof.
  intros Hi Ho HP (HI & HO & NI & NO). split; [|split; [|split]].
  - intros e p. rewrite Hi. intros Hp. destruct (HI e p Hp) as (x & Hx & Ht).
    destruct (HP p x Hx) as (x' & Hx' & Ht' & _). exists x'. by rewrite Ht'.
  - intros e p. rewrite Ho. intros Hp. destruct (HO e p Hp) as (x & Hx & Hf).
    destruct (HP p x Hx) as (x' & Hx' & _ & Hf'). exists x'. by rewrite Hf'.
  - intros e. rewrite Hi. apply NI.
  - intros e. rewrite Ho. apply NO.
Qed.

Lemma wired_NewScheduler factory es idx : wired (NewScheduler factory es idx).
Proof.
  split; [|split; [|split]]; intros e; simpl; unfold slice_at;
    rewrite lookup_empty; simpl; try constructor; by intros p ?%elem_of_nil.
Qed.

Lemma wired_allocated w e :
  wired w → allocated w (slice_at (incoming w) e) ∧ allocated w (slice_at (outgoing w) e).
Proof.
  intros (HI & HO & _). unfold allocated. rewrite !Forall_forall. split.
  - intros p Hp. destruct (HI e p Hp) as (x & -> & _). eauto.
  - intros p Hp. destruct (HO e p Hp) as (x & -> & _). eauto.
Qed.

Lemma newPipe_wired target from req w p w' :
  wired w → newPipe target from req w = Returned p w' → wired w'.
Proof.
  intros Hw Hrun.
  apply newPipe_returned in Hrun as (-> & HP & HI & HO & _).
  apply (wired_new_pipe w w' _ _ (Some target) from Hw (fresh_pipe_unallocated w) HP).
  - done.
  - by intros t [= <-].
  - done.
  - by intros f ->.
Qed.

Lemma newRequestWithFunc_wired e f w p w' :
  wired w → newRequestWithFunc e f w = Returned p w' → wired w'.
Proof.
  intros Hw. rewrite newRequestWithFunc_eq. intros [= <- <-].
  apply (wired_new_pipe w _ _ (new_funcPipe e f) None (Some e) Hw
           (fresh_pipe_unallocated w)); simpl; try done.
Qed.

Lemma NewInputRequest_wired pf_e ee req w p w' :
  wired w → NewInputRequest pf_e ee req w = Returned p w' → wired w'.
Proof.
  intros Hw. unfold NewInputRequest. rewrite bind_eq. unfold GetEdge.
  rewrite bind_eq. unfold get, mret, M_ret.
  destruct (ef w !! ee) as [t|]; [|done]. by apply newPipe_wired.
Qed.

Lemma build_returned ctx edge w p w' :
  build ctx edge w = Returned (BuildWaiting p) w' →
  ∃ e w1, ef w !! edge = Some e ∧
    newPipe e None
      {| Payload := PayloadEdgeRequest {| desiredState := edgeStatusComplete |};
         req_Canceled := false |} w = Returned p w1 ∧
    ∃ x, pipes w1 !! p = Some x ∧
         w' = with_pipes (<[p := set_OnSendCompletion BuildWaiter x]> (pipes w1)) w1.
Proof.
  unfold build. rewrite bind_eq. unfold GetEdge. rewrite bind_eq.
  unfold get at 1, mret at 1, M_ret at 1.
  destruct (ef w !! edge) as [e|]; [|done]. rewrite bind_eq.
  destruct (newPipe e None _ w) as [p1 w1|] eqn:Hn; [|done].
  rewrite bind_eq. unfold update_pipe. rewrite bind_eq. unfold get_pipe.
  destruct (pipes w1 !! p1) as [x|] eqn:Hx; [|done].
  unfold modify, mret, M_ret. intros [= <- <-]. exists e, w1. eauto.
Qed.

Lemma build_wired ctx edge w p w' :
  wired w → build ctx edge w = Returned (BuildWaiting p) w' → wired w'.
Proof.
  intros Hw Hrun. apply build_returned in Hrun as (e & w1 & _ & Hn & x & Hx & ->).
  apply (wired_ext w1); [done|done| |by eapply newPipe_wired].
  intros q y Hq. simpl. destruct (decide (p = q)) as [<-|Hne].
  - rewrite lookup_insert_eq. rewrite Hx in Hq. injection Hq as <-. eauto.
  - rewrite lookup_insert_ne by done. eauto.
Qed.

(** X4.  For a descriptor the factory resolves to an edge [e], on a
    well-formed queue, [build] creates its root pipe and waits on it: the
    pipe is new, asks [e] for the state complete, has [Target] [e] and no
    [From], and carries the callback that releases the waiter; it is the
    last of [incoming[e]], [outgoing] is unchanged, and [e] is queued. *)
Theorem build_creates_root_pipe ctx edge w l e :
  queue_inv w l → ef w !! edge = Some e →
  ∃ p w' x, build ctx edge w = Returned (BuildWaiting p) w' ∧
    pipes w !! p = None ∧ pipes w' !! p = Some x ∧
    Target x = Some e ∧ From x = None ∧
    request x = {| Payload := PayloadEdgeRequest {| desiredState := edgeStatusComplete |};
                   req_Canceled := false |} ∧
    OnSendCompletion x = Some BuildWaiter ∧
    slice_at (incoming w') e = slice_at (incoming w) e ++ [p] ∧
    outgoing w' = outgoing w ∧ e ∈ waitq w' ∧
    queue_inv w' (enqueue l e).
Proof.
  intros Hq He.
  set (req := {| Payload := PayloadEdgeRequest {| desiredState := edgeStatusComplete |};
                 req_Canceled := false |}).
  destruct (newPipe_returns e None req w l Hq) as (p & w1 & Hn).
  pose proof Hn as Hn'.
  apply newPipe_returned in Hn' as (-> & HP & HI & HO & w2 & Hs & Hnx & Hls & Hh & Hw & _).
  set (p := fresh (dom (pipes w))) in *.
  assert (Hx : pipes w1 !! p = Some (new_edgePipe e None req)).
  { rewrite HP. apply lookup_insert_eq. }
  exists p, (with_pipes (<[p := set_OnSendCompletion BuildWaiter
                                  (new_edgePipe e None req)]> (pipes w1)) w1),
    (set_OnSendCompletion BuildWaiter (new_edgePipe e None req)).
  split.
  { unfold build. rewrite bind_eq. unfold GetEdge. rewrite bind_eq.
    unfold get at 1, mret at 1, M_ret at 1. rewrite He, bind_eq. fold req.
    rewrite Hn, bind_eq. unfold update_pipe. rewrite bind_eq. unfold get_pipe.
    by rewrite Hx. }
  split; [apply fresh_pipe_unallocated|]. simpl.
  split; [apply lookup_insert_eq|]. split; [done|]. split; [done|].
  split; [done|]. split; [done|].
  split; [rewrite HI, slice_at_insert; by rewrite decide_True|].
  split; [done|].
  set (w0 := with_pipes _ w) in Hs.
  destruct (signal_inv w0 l e) as (w2' & Hs' & Hq2 & Hw2 & _).
  { by apply (queue_inv_ext w). }
  rewrite Hs in Hs'. injection Hs' as <-. split.
  - rewrite Hw, Hw2. apply elem_of_union_l. by apply elem_of_singleton.
  - by apply (queue_inv_ext w2).
Qed.

Lemma build_creates_root_pipe_witness :
  ∃ p w', build {| ctx_Done := false |} ex_dC ex_queued = Returned (BuildWaiting p) w' ∧
          slice_at (incoming w') 3 = [p] ∧ queue_inv w' [3; 1].
Proof.
  destruct (build_creates_root_pipe {| ctx_Done := false |} ex_dC ex_queued [3; 1] 3)
    as (p & w' & x & Hrun & _ & _ & _ & _ & _ & _ & HI & _ & _ & Hq).
  - split; [|split].
    + exists 0, 1. vm_compute. repeat split. by exists 1.
    + compute_done.
    + intros e. assert (waitq ex_queued = {[3]} ∪ {[1]}) as -> by (vm_compute; reflexivity).
      rewrite elem_of_union, !elem_of_singleton, elem_of_cons, list_elem_of_singleton.
      done.
  - vm_compute. reflexivity.
  - exists p, w'. split; [done|]. split; [exact HI|exact Hq].
Defined.

(** X5.  Creating a pipe keeps the wiring: if every pipe of a slice
    [incoming[e]] has [Target] [e], every pipe of a slice [outgoing[e]] has
    [From] [e] and no slice holds a pipe twice, the same is true after
    [newPipe], after [newRequestWithFunc], after [NewInputRequest] and after
    the entry of [build]. *)
Theorem pipe_creation_keeps_wired w :
  wired w →
  (∀ target from req p w', newPipe target from req w = Returned p w' → wired w') ∧
  (∀ e f p w', newRequestWithFunc e f w = Returned p w' → wired w') ∧
  (∀ pf_e ee req p w', NewInputRequest pf_e ee req w = Returned p w' → wired w') ∧
  (∀ ctx edge p w', build ctx edge w = Returned (BuildWaiting p) w' → wired w').
Proof.
  intros Hw. split; [|split; [|split]].
  - intros target from req p w'. by apply newPipe_wired.
  - intros e f p w'. by apply newRequestWithFunc_wired.
  - intros pf_e ee req p w'. by apply NewInputRequest_wired.
  - intros ctx edge p w'. by apply build_wired.
Qed.

Lemma pipe_creation_keeps_wired_witness :
  wired (outcome_world (build {| ctx_Done := false |} ex_dB ex_start) ex_start).
Proof.
  destruct (pipe_creation_keeps_wired ex_start) as (_ & _ & _ & H).
  - apply wired_NewScheduler.
  - apply (H {| ctx_Done := false |} ex_dB 0). vm_compute. reflexivity.
Defined.

(** ** mergeTo: when it returns, when it panics, what it leaves alone *)

Lemma merge_incoming_loop_returns target l w :
  allocated w l → ∃ w', for_range l (merge_incoming_body target) w = Returned tt w'.
Proof.
  revert w. induction l as [|p l IH]; intros w H; [by eexists|].
  apply Forall_cons in H as [[x Hx] H].
  rewrite for_range_cons, merge_incoming_body_eq, Hx. apply IH.
  unfold allocated in *. simpl. eapply Forall_impl; [exact H|].
  intros q [y Hy]. destruct (decide (p = q)) as [<-|Hne].
  - by rewrite lookup_insert_eq.
  - rewrite lookup_insert_ne; [|done]. by rewrite Hy.
Qed.

Lemma merge_outgoing_loop_returns target l w :
  allocated w l → ∃ w', for_range l (merge_outgoing_body target) w = Returned tt w'.
Proof.
  revert w. induction l as [|p l IH]; intros w H; [by eexists|].
  apply Forall_cons in H as [[x Hx] H].
  rewrite for_range_cons, merge_outgoing_body_eq, Hx. apply IH.
  unfold allocated in *. simpl. eapply Forall_impl; [exact H|].
  intros q [y Hy]. destruct (decide (p = q)) as [<-|Hne].
  - by rewrite lookup_insert_eq.
  - rewrite lookup_insert_ne; [|done]. by rewrite Hy.
Qed.

Section exporters_run.
Variables (w0 : World) (target src : nat) (t s : edge).
Hypothesis Ht : edges w0 !! target = Some t.
Hypothesis Hs : edges w0 !! src = Some s.

Lemma keys_loop_eq i ks X :
  for_range ks (λ k, sel ← selector_at src i;
                     push_exporter target (exporter i sel k)) (exported w0 target t X)
  = match ks, Deps (cacheMap s) !! i with
    | _ :: _, None => Panic index_out_of_range
    | _, _ =>
        Returned tt
          (exported w0 target t (X ++ (exporter i (selector_of (cacheMap s) i) <$> ks)))
    end.
Proof.
  revert X. induction ks as [|k ks IH]; intros X.
  - simpl. by rewrite app_nil_r.
  - rewrite for_range_cons, bind_eq, (selector_at_exported _ _ _ _ _ _ _ Ht Hs).
    unfold selector_of in *. destruct (Deps (cacheMap s) !! i) as [cd|] eqn:E; [|done].
    rewrite push_exporter_exported, IH. simpl. rewrite <- app_assoc.
    by destruct ks.
Qed.

Lemma merge_exporters_body_eq id X :
  merge_exporters_body target src id (exported w0 target t X)
  = if selector_missing (cacheMap s) id then Panic index_out_of_range
    else Returned tt
           (exported w0 target t
              (X ++ dep_exporters (selector_of (cacheMap s) id.1) id.1 id.2)).
Proof.
  destruct id as [i d]. unfold merge_exporters_body, selector_missing, needs_selector,
    dep_exporters. simpl fst. simpl snd.
  rewrite bind_eq, keys_loop_eq.
  destruct (Deps (cacheMap s) !! i) as [cd|] eqn:E.
  - rewrite (bool_decide_eq_false_2 (Some cd = None)) by done. rewrite andb_false_r.
    assert (Hsel : selector_of (cacheMap s) i = dep_Selector cd).
    { unfold selector_of. by rewrite E. }
    replace (match keys d with [] | _ => Returned tt
               (exported w0 target t
                  (X ++ (exporter i (selector_of (cacheMap s) i) <$> keys d))) end)
      with (Returned tt (exported w0 target t
                  (X ++ (exporter i (selector_of (cacheMap s) i) <$> keys d))))
      by (by destruct (keys d)).
    rewrite bind_eq.
    destruct (slowCacheKey d) as [k|]; cbv beta iota.
    + rewrite push_exporter_exported. destruct (result d) as [r|]; cbv beta iota.
      * rewrite bind_eq, (selector_at_exported _ _ _ _ _ _ _ Ht Hs), E.
        rewrite push_exporter_exported, Hsel. by rewrite <- !app_assoc.
      * unfold mret, M_ret. by rewrite <- !app_assoc.
    + unfold mret at 1, M_ret at 1. destruct (result d) as [r|]; cbv beta iota.
      * rewrite bind_eq, (selector_at_exported _ _ _ _ _ _ _ Ht Hs), E.
        rewrite push_exporter_exported, Hsel. by rewrite <- !app_assoc.
      * unfold mret, M_ret. simpl. by rewrite app_nil_r.
  - rewrite (bool_decide_eq_true_2 (None = None)) by done. rewrite andb_true_r.
    destruct (keys d) as [|k0 ks] eqn:Ek.
    + rewrite (bool_decide_eq_true_2 ([] = [])) by done. simpl negb. simpl orb.
      rewrite bind_eq. destruct (result d) as [r|] eqn:Er.
      * rewrite (bool_decide_eq_true_2 (is_Some (Some r))) by done.
        destruct (slowCacheKey d) as [k|]; cbv beta iota.
        -- rewrite push_exporter_exported, bind_eq,
             (selector_at_exported _ _ _ _ _ _ _ Ht Hs), E. done.
        -- unfold mret at 1, M_ret at 1.
           rewrite bind_eq, (selector_at_exported _ _ _ _ _ _ _ Ht Hs), E. done.
      * rewrite (bool_decide_eq_false_2 (is_Some None)) by (by intros [? ?]).
        destruct (slowCacheKey d) as [k|]; cbv beta iota.
        -- rewrite push_exporter_exported. unfold mret, M_ret. simpl.
           by rewrite <- !app_assoc.
        -- unfold mret, M_ret. simpl. by rewrite !app_nil_r.
    + rewrite (bool_decide_eq_false_2 (k0 :: ks = [])) by done. done.
Qed.

Lemma merge_exporters_loop_eq l X :
  for_range l (merge_exporters_body target src) (exported w0 target t X)
  = if existsb (selector_missing (cacheMap s)) l then Panic index_out_of_range
    else Returned tt (exported w0 target t (X ++ exporters_from (cacheMap s) l)).
Proof.
  revert X. induction l as [|id l IH]; intros X.
  - simpl. by rewrite app_nil_r.
  - rewrite for_range_cons, merge_exporters_body_eq. simpl existsb.
    destruct (selector_missing (cacheMap s) id); [done|].
    rewrite IH. simpl. destruct (existsb _ l); [done|].
    unfold exporters_from. simpl. by rewrite <- app_assoc.
Qed.

Lemma merge_exporters_eq :
  merge_exporters target src w0
  = if existsb (selector_missing (cacheMap s)) (enumerate (deps s))
    then Panic index_out_of_range
    else Returned tt (exported w0 target t (merged_exporters (deps s) (cacheMap s))).
Proof.
  unfold merge_exporters. rewrite bind_eq. unfold get_edge. rewrite Hs.
  rewrite <- (exported_nil w0 target t Ht) at 1.
  by rewrite merge_exporters_loop_eq.
Qed.
End exporters_run.

Lemma merge_transfer_steps target src w l :
  queue_inv w l →
  allocated w (slice_at (incoming w) src) → allocated w (slice_at (outgoing w) src) →
  ∃ w5, merge_transfer target src w
        = match merge_exporters target src w5 with
          | Returned _ w' => Returned true w'
          | Panic msg => Panic msg
          end ∧
        queue_inv w5 (enqueue l target) ∧ edges w5 = edges w.
Proof.
  intros Hq Hinc Hout. unfold merge_transfer.
  rewrite bind_eq. unfold merge_incoming at 1. rewrite bind_eq. unfold get at 1.
  destruct (merge_incoming_loop_returns target _ w Hinc) as [w1 H1].
  rewrite H1. apply merge_incoming_loop in H1 as [_ ->].
  set (w1 := with_log _ _).
  rewrite bind_eq. unfold merge_outgoing at 1. rewrite bind_eq. unfold get at 1.
  assert (Hout1 : allocated w1 (slice_at (outgoing w1) src)).
  { unfold allocated in *. simpl. eapply Forall_impl; [exact Hout|].
    intros q. by rewrite alter_all_is_Some. }
  destruct (merge_outgoing_loop_returns target _ w1 Hout1) as [w2 H2].
  rewrite H2. apply merge_outgoing_loop in H2 as [_ ->].
  set (w2 := with_log _ _).
  rewrite bind_eq. unfold modify at 1. rewrite bind_eq. unfold modify at 1.
  set (w4 := with_outgoing _ _).
  destruct (signal_inv w4 l target) as (w5 & H5 & Hq5 & _ & _ & _ & _ & _ & _ & He5 & _).
  { by apply (queue_inv_ext w). }
  rewrite bind_eq, H5, bind_eq.
  exists w5. split; [|split; [done|by rewrite He5]].
  by destruct (merge_exporters target src w5).
Qed.

Lemma merge_transfer_run target src w l t s :
  queue_inv w l →
  allocated w (slice_at (incoming w) src) → allocated w (slice_at (outgoing w) src) →
  edges w !! target = Some t → edges w !! src = Some s →
  if existsb (selector_missing (cacheMap s)) (enumerate (deps s))
  then merge_transfer target src w = Panic index_out_of_range
  else ∃ w', merge_transfer target src w = Returned true w' ∧
             queue_inv w' (enqueue l target).
Proof.
  intros Hq Hinc Hout Ht Hs.
  destruct (merge_transfer_steps target src w l Hq Hinc Hout) as (w5 & -> & Hq5 & He5).
  assert (Ht5 : edges w5 !! target = Some t) by (by rewrite He5).
  assert (Hs5 : edges w5 !! src = Some s) by (by rewrite He5).
  rewrite (merge_exporters_eq w5 target src t s Ht5 Hs5).
  destruct (existsb _ _); [done|].
  eexists. split; [done|]. by apply (queue_inv_ext w5).
Qed.

Lemma merged_pipe_fields target inc out (P : gmap nat edgePipe) p x :
  P !! p = Some x →
  ∃ x', alter_all (refrom target) out (alter_all (retarget target) inc P) !! p = Some x' ∧
        Target x' = (if decide (p ∈ inc) then Some target else Target x) ∧
        From x' = (if decide (p ∈ out) then Some target else From x) ∧
        senderStatus x' = senderStatus x ∧ receiverStatus x' = receiverStatus x ∧
        update x' = update x ∧ Payload (request x') = Payload (request x) ∧
        OnSendCompletion x' = OnSendCompletion x ∧
        OnReceiveCompletion x' = OnReceiveCompletion x ∧
        req_Canceled (request x')
          = (if decide (p ∈ out) then true else req_Canceled (request x)).
Proof.
  intros Hx. rewrite merged_pipe_lookup, Hx. simpl. eexists. split; [done|].
  destruct (decide (p ∈ out)), (decide (p ∈ inc)); done.
Qed.

Lemma slice_at_extend_ne t l m k : k ≠ t → slice_at (extend t l m) k = slice_at m k.
Proof. intros H. unfold slice_at. by rewrite extend_ne. Qed.

Lemma merge_transfer_wired target src w w' t :
  wired w → edges w !! target = Some t →
  merge_transfer target src w = Returned true w' → wired w'.
Proof.
  intros (HI & HO & NI & NO) Ht H.
  apply (merge_transfer_returned _ _ _ _ _ _ Ht) in H as [_ H].
  destruct H as (s & _ & _ & _ & _ & HP & Hi & Ho & _).
  set (inc := slice_at (incoming w) src) in *.
  set (out := slice_at (outgoing w) src) in *.
  assert (SI : ∀ e, slice_at (incoming w') e
                    = if decide (src = e) then []
                      else if decide (e = target) then slice_at (incoming w) target ++ inc
                      else slice_at (incoming w) e).
  { intros e. rewrite Hi, slice_at_delete. destruct (decide (src = e)); [done|].
    destruct (decide (e = target)) as [->|Hne]; [apply slice_at_extend|].
    by apply slice_at_extend_ne. }
  assert (SO : ∀ e, slice_at (outgoing w') e
                    = if decide (src = e) then []
                      else if decide (e = target) then slice_at (outgoing w) target ++ out
                      else slice_at (outgoing w) e).
  { intros e. rewrite Ho, slice_at_delete. destruct (decide (src = e)); [done|].
    destruct (decide (e = target)) as [->|Hne]; [apply slice_at_extend|].
    by apply slice_at_extend_ne. }
  split; [|split; [|split]].
  - intros e p. rewrite SI. destruct (decide (src = e)) as [<-|Hse].
    { by intros ?%elem_of_nil. }
    destruct (decide (e = target)) as [->|Het].
    + intros [Hp|Hp]%elem_of_app.
      * destruct (HI target p Hp) as (x & Hx & Hxt).
        destruct (merged_pipe_fields target inc out _ p x Hx) as (x' & Hx' & Ht' & _).
        exists x'. rewrite HP. split; [done|]. rewrite Ht'. by destruct (decide _).
      * destruct (HI src p Hp) as (x & Hx & Hxt).
        destruct (merged_pipe_fields target inc out _ p x Hx) as (x' & Hx' & Ht' & _).
        exists x'. rewrite HP. split; [done|]. rewrite Ht'. by rewrite decide_True.
    + intros Hp. destruct (HI e p Hp) as (x & Hx & Hxt).
      destruct (merged_pipe_fields target inc out _ p x Hx) as (x' & Hx' & Ht' & _).
      exists x'. rewrite HP. split; [done|]. rewrite Ht'.
      rewrite decide_False; [done|]. intros Hin.
      destruct (HI src p Hin) as (y & Hy & Hyt). congruence.
  - intros e p. rewrite SO. destruct (decide (src = e)) as [<-|Hse].
    { by intros ?%elem_of_nil. }
    destruct (decide (e = target)) as [->|Het].
    + intros [Hp|Hp]%elem_of_app.
      * destruct (HO target p Hp) as (x & Hx & Hxt).
        destruct (merged_pipe_fields target inc out _ p x Hx) as (x' & Hx' & _ & Hf' & _).
        exists x'. rewrite HP. split; [done|]. rewrite Hf'. by destruct (decide _).
      * destruct (HO src p Hp) as (x & Hx & Hxt).
        destruct (merged_pipe_fields target inc out _ p x Hx) as (x' & Hx' & _ & Hf' & _).
        exists x'. rewrite HP. split; [done|]. rewrite Hf'. by rewrite decide_True.
    + intros Hp. destruct (HO e p Hp) as (x & Hx & Hxt).
      destruct (merged_pipe_fields target inc out _ p x Hx) as (x' & Hx' & _ & Hf' & _).
      exists x'. rewrite HP. split; [done|]. rewrite Hf'.
      rewrite decide_False; [done|]. intros Hin.
      destruct (HO src p Hin) as (y & Hy & Hyt). congruence.
  - intros e. rewrite SI. destruct (decide (src = e)) as [<-|Hse]; [constructor|].
    destruct (decide (e = target)) as [->|Het]; [|apply NI].
    apply NoDup_app. split; [apply NI|]. split; [|apply NI].
    intros p Hp Hp'. destruct (HI target p Hp) as (x & Hx & Hxt).
    destruct (HI src p Hp') as (y & Hy & Hyt). congruence.
  - intros e. rewrite SO. destruct (decide (src = e)) as [<-|Hse]; [constructor|].
    destruct (decide (e = target)) as [->|Het]; [|apply NO].
    apply NoDup_app. split; [apply NO|]. split; [|apply NO].
    intros p Hp Hp'. destruct (HO target p Hp) as (x & Hx & Hxt).
    destruct (HO src p Hp') as (y & Hy & Hyt). congruence.
Qed.

Lemma mergeTo_wired target src w b w' :
  wired w → mergeTo target src w = Returned b w' → wired w'.
Proof.
  intros Hw H. destruct b.
  - apply mergeTo_true in H as (t & Ht & H & _). by eapply merge_transfer_wired.
  - by apply mergeTo_false in H as [-> _].
Qed.

(** A scheduler state built by the requests of the example is wired, and
    its queue holds the edges b and c. *)
Lemma ex_world_wired : wired ex_world.
Proof.
  assert (H : ex_requests ex_start = Returned tt ex_world) by (vm_compute; reflexivity).
  unfold ex_requests in H.
  apply bind_returned in H as (b & w1 & H1 & H).
  apply bind_returned in H as (p & w2 & H2 & H).
  apply bind_returned in H as (q & w3 & H3 & H).
  injection H as <-.
  assert (Hb : b = BuildWaiting 0).
  { assert (Hc : build {| ctx_Done := false |} ex_dB ex_start
                 = Returned (BuildWaiting 0)
                     (outcome_world (build {| ctx_Done := false |} ex_dB ex_start) ex_start))
      by (vm_compute; reflexivity).
    rewrite Hc in H1. by injection H1 as <- _. }
  subst b.
  eapply newRequestWithFunc_wired; [|exact H3].
  eapply NewInputRequest_wired; [|exact H2].
  eapply build_wired; [|exact H1]. apply wired_NewScheduler.
Qed.

Lemma ex_world_queue : queue_inv ex_world [2; 3].
Proof.
  split; [|split].
  - exists 0, 1. vm_compute. repeat split. by exists 1.
  - compute_done.
  - intros e. assert (waitq ex_world = {[2]} ∪ {[3]}) as -> by (vm_compute; reflexivity).
    rewrite elem_of_union, !elem_of_singleton, elem_of_cons, list_elem_of_singleton.
    done.
Qed.

(** X6.  [mergeTo] keeps the wiring: whatever it returns, if before the
    call every pipe of a slice [incoming[e]] had [Target] [e], every pipe of
    a slice [outgoing[e]] had [From] [e] and no slice held a pipe twice,
    this is so afterwards, also when the two edges are the same one. *)
Theorem mergeTo_keeps_wired target src w b w' :
  wired w → mergeTo target src w = Returned b w' → wired w'.
Proof. apply mergeTo_wired. Qed.

Lemma mergeTo_keeps_wired_witness :
  wired (outcome_world (mergeTo 1 2 ex_world) ex_world).
Proof.
  apply (mergeTo_keeps_wired 1 2 ex_world true).
  - apply ex_world_wired.
  - vm_compute. reflexivity.
Defined.



(** X8.  [mergeTo] panics with an index out of range, after the pipes
    have been moved, when the merge is not refused and some dependency of
    [src] that has a direct key or a result sits at a position where the
    cache map of [src] has no entry: line 303 or 309 reads
    [src.cacheMap.Deps[i]] there. *)
Theorem mergeTo_panics_without_selector target src w l t s i d :
  queue_inv w l → wired w →
  edges w !! target = Some t → edges w !! src = Some s →
  edge_IgnoreCache t = true ∨ edge_IgnoreCache s = false →
  deps s !! i = Some d → needs_selector d = true → Deps (cacheMap s) !! i = None →
  mergeTo target src w = Panic index_out_of_range.
Proof.
  intros Hq Hw Ht Hs Hic Hd Hn Hnone.
  destruct (wired_allocated w src Hw) as [Hinc Hout].
  pose proof (merge_transfer_run target src w l t s Hq Hinc Hout Ht Hs) as H.
  assert (Hex : existsb (selector_missing (cacheMap s)) (enumerate (deps s)) = true).
  { rewrite existsb_exists. exists (i, d). split.
    - by apply list_elem_of_In, elem_of_enumerate.
    - unfold selector_missing. simpl. rewrite Hn. by rewrite bool_decide_eq_true_2. }
  rewrite Hex in H. rewrite mergeTo_eq, Ht, Hs.
  destruct Hic as [-> | ->]; [done|]. by destruct (edge_IgnoreCache t).
Qed.

Lemma queue_inv_with_edges es w l : queue_inv w l → queue_inv (with_edges es w) l.
Proof. by apply queue_inv_ext. Qed.

Lemma wired_with_edges es w : wired w → wired (with_edges es w).
Proof. apply wired_ext; [done|done|]. intros q x Hx. by exists x. Qed.

Lemma mergeTo_panics_without_selector_witness :
  mergeTo 1 2 ex_bare = Panic index_out_of_range.
Proof.
  apply (mergeTo_panics_without_selector 1 2 ex_bare [2; 3] ex_eA
           (ex_edge ex_dB true [ex_dep] [] []) 0 ex_dep).
  - unfold ex_bare. apply queue_inv_with_edges, ex_world_queue.
  - unfold ex_bare. apply wired_with_edges, ex_world_wired.
  - vm_compute. reflexivity.
  - vm_compute. reflexivity.
  - right. reflexivity.
  - reflexivity.
  - reflexivity.
  - reflexivity.
Defined.

(** ** What mergeTo leaves alone *)

Lemma merge_transfer_pipes target src w b w' t :
  edges w !! target = Some t →
  merge_transfer target src w = Returned b w' →
  (∀ p, pipes w' !! p = None ↔ pipes w !! p = None) ∧
  (∀ p x, pipes w !! p = Some x →
     ∃ x', pipes w' !! p = Some x' ∧
           senderStatus x' = senderStatus x ∧ receiverStatus x' = receiverStatus x ∧
           update x' = update x ∧ Payload (request x') = Payload (request x) ∧
           OnSendCompletion x' = OnSendCompletion x ∧
           OnReceiveCompletion x' = OnReceiveCompletion x) ∧
  (∀ p, p ∉ slice_at (incoming w) src → p ∉ slice_at (outgoing w) src →
        pipes w' !! p = pipes w !! p) ∧
  stopped w' = stopped w ∧ closed w' = closed w.
Proof.
  intros Ht H. apply (merge_transfer_returned _ _ _ _ _ _ Ht) in H as [_ H].
  destruct H as (s & _ & _ & _ & _ & HP & _ & _ & _ & _ & _ & Hst & Hcl & _).
  split; [|split; [|split; [|done]]].
  - intros p. rewrite HP, merged_pipe_lookup. by destruct (pipes w !! p).
  - intros p x Hx. rewrite HP.
    destruct (merged_pipe_fields target (slice_at (incoming w) src)
                (slice_at (outgoing w) src) _ p x Hx)
      as (x' & Hx' & _ & _ & ? & ? & ? & ? & ? & ? & _).
    by exists x'.
  - intros p Hi Ho. rewrite HP, merged_pipe_lookup.
    rewrite !decide_False by done. by destruct (pipes w !! p).
Qed.

(** X9.  [mergeTo] creates and deletes no pipe and changes, on the pipes
    it moves, only [Target], [From] and the canceled flag of the request:
    the statuses of both sides, the pending update, the payload and the
    callbacks of every pipe are as before, and a pipe outside the two
    slices of [src] is untouched.  No edge other than [target] changes, so
    that [src], when it is another edge, keeps all its fields, and the
    factory, the index and the stop flags are as before and [SetEdge] is
    not called. *)
Theorem mergeTo_changes_only_target target src w b w' :
  mergeTo target src w = Returned b w' →
  (∀ p, pipes w' !! p = None ↔ pipes w !! p = None) ∧
  (∀ p x, pipes w !! p = Some x →
     ∃ x', pipes w' !! p = Some x' ∧
           senderStatus x' = senderStatus x ∧ receiverStatus x' = receiverStatus x ∧
           update x' = update x ∧ Payload (request x') = Payload (request x) ∧
           OnSendCompletion x' = OnSendCompletion x ∧
           OnReceiveCompletion x' = OnReceiveCompletion x) ∧
  (∀ p, p ∉ slice_at (incoming w) src → p ∉ slice_at (outgoing w) src →
        pipes w' !! p = pipes w !! p) ∧
  (∀ k, k ≠ target → edges w' !! k = edges w !! k) ∧
  ef w' = ef w ∧ eindex w' = eindex w ∧
  List.filter is_SetEdge (log w') = List.filter is_SetEdge (log w) ∧
  stopped w' = stopped w ∧ closed w' = closed w.
Proof.
  intros H. destruct (mergeTo_frame _ _ _ _ _ H) as (Hlog & Hef & Hix & He & _).
  destruct b.
  - apply mergeTo_true in H as (t & Ht & H & _).
    destruct (merge_transfer_pipes target src w true w' t Ht H)
      as (H1 & H2 & H3 & H4 & H5).
    done.
  - apply mergeTo_false in H as [-> _]. repeat split; try done.
    intros p x Hx. by exists x.
Qed.

Lemma mergeTo_changes_only_target_witness :
  edges (outcome_world (mergeTo 1 2 ex_world) ex_world) !! 2 = edges ex_world !! 2.
Proof.
  destruct (mergeTo_changes_only_target 1 2 ex_world true
              (outcome_world (mergeTo 1 2 ex_world) ex_world))
    as (_ & _ & _ & He & _).
  - vm_compute. reflexivity.
  - apply He. lia.
Defined.

(** ** The queue is first in, first out *)

Lemma signals_inv es : ∀ w l,
  queue_inv w l →
  ∃ w', for_range es signal w = Returned tt w' ∧ queue_inv w' (enqueue_all l es) ∧
        incoming w' = incoming w ∧ outgoing w' = outgoing w ∧
        pipes w' = pipes w ∧ edges w' = edges w.
Proof.
  induction es as [|e es IH]; intros w l Hq; [by exists w|].
  rewrite for_range_cons.
  destruct (signal_inv w l e Hq)
    as (w1 & H1 & Hq1 & _ & _ & _ & _ & Hi & Ho & He & Hp & _).
  rewrite H1. destruct (IH w1 _ Hq1) as (w' & H & Hq' & Hi' & Ho' & Hp' & He').
  exists w'. simpl. rewrite H. repeat split; try apply Hq'; congruence.
Qed.

Lemma drain_inv l : ∀ w,
  queue_inv w l →
  ∃ w', (∀ n, length l ≤ n → drain n w = Returned l w') ∧
        queue_inv w' [] ∧ waitq w' = ∅.
Proof.
  induction l as [|e l IH]; intros w Hq.
  - exists w. assert (Hd : dequeue w = Returned None w) by (apply dequeue_empty, Hq).
    assert (Hw : waitq w = ∅).
    { apply leibniz_equiv, elem_of_equiv_empty. intros x Hx.
      apply Hq in Hx. by apply elem_of_nil in Hx. }
    split; [|done]. intros [|n] _; simpl; [done|]. by rewrite bind_eq, Hd.
  - destruct (queue_inv_dequeue w e l Hq) as (w1 & Hd & Hq1 & _).
    destruct (IH w1 Hq1) as (w' & H & Hq' & Hw').
    exists w'. split; [|done]. intros [|n] Hn; simpl in Hn; [lia|].
    simpl. rewrite bind_eq, Hd, bind_eq, H; [done|lia].
Qed.

Lemma enqueue_all_nil es : NoDup es → enqueue_all [] es = es.
Proof.
  assert (H : ∀ l, NoDup (l ++ es) → enqueue_all l es = l ++ es).
  { induction es as [|e es IH]; intros l Hnd.
    { unfold enqueue_all. simpl. by rewrite app_nil_r. }
    change (enqueue_all l (e :: es)) with (enqueue_all (enqueue l e) es).
    unfold enqueue. rewrite decide_False.
    - rewrite IH; [by rewrite <- app_assoc|]. by rewrite <- app_assoc.
    - apply NoDup_app in Hnd as (_ & Hd & _). intros Hin.
      apply (Hd e Hin). by left. }
  intros Hnd. by apply (H []).
Qed.

(** X10.  The dispatcher queue is first in, first out.  Signals for the
    edges [es], from any well-formed queue [l], leave the edges of [l]
    followed by those of [es] that were not queued, each once and in the
    order of its first signal; the dequeues of the run loop then answer
    exactly these edges in this order and leave the queue and [waitq]
    empty.  The signals touch no pipe, slice or edge.  From the empty
    queue, pairwise distinct edges are answered in the order signalled. *)
Theorem queue_first_in_first_out es w l :
  queue_inv w l →
  ∃ w1 w2, for_range es signal w = Returned tt w1 ∧
    queue_inv w1 (enqueue_all l es) ∧
    incoming w1 = incoming w ∧ outgoing w1 = outgoing w ∧
    pipes w1 = pipes w ∧ edges w1 = edges w ∧
    (∀ n, length (enqueue_all l es) ≤ n →
          drain n w1 = Returned (enqueue_all l es) w2) ∧
    queue_inv w2 [] ∧ waitq w2 = ∅ ∧
    (l = [] → NoDup es → enqueue_all l es = es).
Proof.
  intros Hq. destruct (signals_inv es w l Hq) as (w1 & H1 & Hq1 & Hi & Ho & Hp & He).
  destruct (drain_inv _ w1 Hq1) as (w2 & H2 & Hq2 & Hw2).
  exists w1, w2. split; [done|]. split; [done|].
  do 4 (split; [done|]). split; [done|]. split; [done|]. split; [done|].
  intros -> Hnd. by apply enqueue_all_nil.
Qed.

Lemma queue_first_in_first_out_witness :
  ∃ w2, drain 5 (outcome_world (for_range [1; 3; 1; 2] signal ex_queued) ex_queued)
        = Returned [3; 1; 2] w2.
Proof.
  destruct (queue_first_in_first_out [1; 3; 1; 2] ex_queued [3; 1])
    as (w1 & w2 & H1 & _ & _ & _ & _ & _ & Hd & _).
  - split; [|split].
    + exists 0, 1. vm_compute. repeat split. by exists 1.
    + repeat constructor; rewrite ?elem_of_cons, ?elem_of_nil; lia.
    + intros e. assert (waitq ex_queued = {[3]} ∪ {[1]}) as -> by (vm_compute; reflexivity).
      rewrite elem_of_union, !elem_of_singleton, elem_of_cons, list_elem_of_singleton.
      done.
  - exists w2. rewrite H1. apply (Hd 5). vm_compute. lia.
Defined.

(** ** One turn of the run loop *)

Lemma same_shape_refl w : same_shape w w.
Proof. repeat split. intros q x Hx. by exists x. Qed.

Lemma same_shape_trans w1 w2 w3 : same_shape w1 w2 → same_shape w2 w3 → same_shape w1 w3.
Proof.
  intros (A1 & A2 & A3 & A4 & A5 & A6 & A7) (B1 & B2 & B3 & B4 & B5 & B6 & B7).
  repeat split; try congruence.
  intros q x Hx. destruct (A7 q x Hx) as (x' & Hx' & Ht & Hf).
  destruct (B7 q x' Hx') as (x'' & Hx'' & Ht' & Hf').
  exists x''. split; [done|]. split; congruence.
Qed.

Lemma same_shape_pipes_eq w w' :
  q_next w' = q_next w → q_last w' = q_last w → nodes w' = nodes w →
  waitq w' = waitq w → incoming w' = incoming w → outgoing w' = outgoing w →
  pipes w' = pipes w → same_shape w w'.
Proof.
  intros ? ? ? ? ? ? HP. repeat split; try done.
  intros q x Hx. exists x. by rewrite HP.
Qed.

Lemma same_shape_wired w w' : same_shape w w' → wired w → wired w'.
Proof. intros (_ & _ & _ & _ & Hi & Ho & HP). by apply wired_ext. Qed.

Lemma same_shape_queue w w' l : same_shape w w' → queue_inv w l → queue_inv w' l.
Proof. intros (H1 & H2 & H3 & H4 & _). by apply queue_inv_ext. Qed.

Lemma same_shape_well_formed w w' : same_shape w w' → well_formed w → well_formed w'.
Proof.
  intros Hs [Hw [l Hq]]. split; [by apply (same_shape_wired w)|].
  exists l. by apply (same_shape_queue w).
Qed.

Lemma update_edge_shape e f w w' :
  update_edge e f w = Returned tt w' → same_shape w w'.
Proof.
  rewrite update_edge_eq. destruct (edges w !! e); [|done].
  intros [= <-]. by apply same_shape_pipes_eq.
Qed.

Lemma Receive_shape p w ok w' : Receive p w = Returned ok w' → same_shape w w'.
Proof.
  rewrite Receive_eq. destruct (pipes w !! p) as [x|] eqn:Hx; [|done].
  intros [= _ <-]. repeat split. simpl. intros q y Hy.
  destruct (decide (q = p)) as [->|Hne].
  - rewrite lookup_insert_eq. exists (received x).
    assert (y = x) as -> by congruence. split; [done|].
    unfold received, pipe_receive. by destruct (update x).
  - rewrite lookup_insert_ne by done. by exists y.
Qed.

Lemma receive_updates_shape e out : ∀ upd w r w',
  receive_updates e out upd w = Returned r w' → same_shape w w'.
Proof.
  induction out as [|p out IH]; intros upd w r w' H.
  - injection H as _ <-. apply same_shape_refl.
  - simpl in H. apply bind_returned in H as (ok & w1 & H1 & H).
    apply bind_returned in H as (st & w2 & H2 & H).
    apply bind_returned in H as ([] & w3 & H3 & H).
    apply Receive_shape in H1. apply IH in H.
    assert (S2 : same_shape w1 w2).
    { rewrite Receiver_Status_eq in H2. destruct (pipes w1 !! p); [|done].
      injection H2 as _ <-. apply same_shape_refl. }
    assert (S3 : same_shape w2 w3).
    { destruct (negb (Completed st)).
      - by apply update_edge_shape in H3.
      - injection H3 as <-. apply same_shape_refl. }
    eapply same_shape_trans; [exact H1|]. eapply same_shape_trans; [exact S2|].
    eapply same_shape_trans; [exact S3|exact H].
Qed.

Lemma dispatch_receive_shape e w r w' :
  dispatch_receive e w = Returned r w' → same_shape w w'.
Proof.
  unfold dispatch_receive. intros H.
  apply bind_returned in H as (w0 & w0' & [= <- <-] & H).
  apply bind_returned in H as (inc & w1 & (_ & -> & _)%snapshot_returned & H).
  apply bind_returned in H as (out & w2 & (_ & -> & _)%snapshot_returned & H).
  apply bind_returned in H as ([] & w3 & H3%update_edge_shape & H).
  apply bind_returned in H as (upd & w4 & H4%receive_updates_shape & H).
  injection H as _ <-. by eapply same_shape_trans.
Qed.

Lemma filter_sublist_elem {A} (f : A → bool) l x : x ∈ List.filter f l → x ∈ l.
Proof. rewrite !list_elem_of_In. intros H. by apply filter_In in H as [H _]. Qed.

Lemma NoDup_list_filter {A} (f : A → bool) l : NoDup l → NoDup (List.filter f l).
Proof.
  induction 1 as [|x l Hx Hnd IH]; simpl; [constructor|].
  destruct (f x); [|done]. constructor; [|done].
  intros Hin. by apply Hx, (filter_sublist_elem f).
Qed.

Lemma prune_state e w r w' :
  prune e w = Returned r w' →
  let oi := List.filter (sender_open (pipes w)) (slice_at (incoming w) e) in
  let oo := List.filter (receiver_open (pipes w)) (slice_at (outgoing w) e) in
  r = (oi, oo) ∧
  (∀ k, slice_at (incoming w') k = if decide (k = e) then oi else slice_at (incoming w) k) ∧
  (∀ k, slice_at (outgoing w') k = if decide (k = e) then oo else slice_at (outgoing w) k) ∧
  pipes w' = pipes w ∧ edges w' = edges w ∧ ef w' = ef w ∧ eindex w' = eindex w ∧
  q_next w' = q_next w ∧ q_last w' = q_last w ∧ nodes w' = nodes w ∧
  waitq w' = waitq w ∧ stopped w' = stopped w ∧ closed w' = closed w ∧ log w' = log w.
Proof.
  intros H. destruct (prune_returned _ _ _ _ H) as [Hi Ho].
  rewrite (prune_spec e w Hi Ho) in H. simpl in H. injection H as <- <-.
  split; [done|]. split; [|split; [|done]].
  - intros k. simpl. destruct (decide (k = e)) as [->|Hne].
    + destruct (List.filter _ (slice_at (incoming w) e)) eqn:E.
      * by rewrite slice_at_delete, decide_True.
      * by rewrite slice_at_insert, decide_True.
    + destruct (List.filter _ (slice_at (incoming w) e)) eqn:E.
      * by rewrite slice_at_delete, decide_False.
      * by rewrite slice_at_insert, decide_False.
  - intros k. simpl. destruct (decide (k = e)) as [->|Hne].
    + destruct (List.filter _ (slice_at (outgoing w) e)) eqn:E.
      * by rewrite slice_at_delete, decide_True.
      * by rewrite slice_at_insert, decide_True.
    + destruct (List.filter _ (slice_at (outgoing w) e)) eqn:E.
      * by rewrite slice_at_delete, decide_False.
      * by rewrite slice_at_insert, decide_False.
Qed.

Lemma prune_wired e w r w' : wired w → prune e w = Returned r w' → wired w'.
Proof.
  intros (HI & HO & NI & NO) H.
  destruct (prune_state _ _ _ _ H) as (_ & SI & SO & HP & _).
  split; [|split; [|split]].
  - intros k p. rewrite SI, HP. destruct (decide (k = e)) as [->|_]; [|apply HI].
    intros Hp%filter_sublist_elem. by apply HI.
  - intros k p. rewrite SO, HP. destruct (decide (k = e)) as [->|_]; [|apply HO].
    intros Hp%filter_sublist_elem. by apply HO.
  - intros k. rewrite SI. destruct (decide (k = e)) as [->|_]; [|apply NI].
    apply NoDup_list_filter, NI.
  - intros k. rewrite SO. destruct (decide (k = e)) as [->|_]; [|apply NO].
    apply NoDup_list_filter, NO.
Qed.

Lemma prune_queue e w r w' l : queue_inv w l → prune e w = Returned r w' → queue_inv w' l.
Proof.
  intros Hq H. destruct (prune_state _ _ _ _ H)
    as (_ & _ & _ & _ & _ & _ & _ & ? & ? & ? & ? & _).
  by apply (queue_inv_ext w).
Qed.

Lemma list_filter_idemp {A} (f : A → bool) l :
  List.filter f (List.filter f l) = List.filter f l.
Proof.
  induction l as [|x l IH]; simpl; [done|].
  destruct (f x) eqn:E; simpl; [|done]. by rewrite E, IH.
Qed.

Lemma prune_again e w r w' : prune e w = Returned r w' → prune e w' = Returned r w'.
Proof.
  intros H. destruct (prune_returned _ _ _ _ H) as [Hi Ho].
  pose proof (prune_spec e w Hi Ho) as Hs. cbv zeta in Hs.
  rewrite Hs in H. clear Hs. injection H as <- <-.
  set (oi := List.filter (sender_open (pipes w)) (slice_at (incoming w) e)).
  set (oo := List.filter (receiver_open (pipes w)) (slice_at (outgoing w) e)).
  set (w' := with_outgoing (match oo with
                            | [] => delete e (outgoing w)
                            | _ => <[e := oo]> (outgoing w)
                            end)
               (with_incoming (match oi with
                               | [] => delete e (incoming w)
                               | _ => <[e := oi]> (incoming w)
                               end) w)).
  change (prune e w' = Returned (oi, oo) w').
  assert (SI : slice_at (incoming w') e = oi).
  { simpl. destruct oi eqn:E.
    - by rewrite slice_at_delete, decide_True.
    - by rewrite slice_at_insert, decide_True. }
  assert (SO : slice_at (outgoing w') e = oo).
  { simpl. destruct oo eqn:E.
    - by rewrite slice_at_delete, decide_True.
    - by rewrite slice_at_insert, decide_True. }
  assert (Hi' : allocated w' (slice_at (incoming w') e)).
  { rewrite SI. unfold allocated in *. simpl. rewrite Forall_forall in *.
    intros p Hp%filter_sublist_elem. by apply Hi. }
  assert (Ho' : allocated w' (slice_at (outgoing w') e)).
  { rewrite SO. unfold allocated in *. simpl. rewrite Forall_forall in *.
    intros p Hp%filter_sublist_elem. by apply Ho. }
  pose proof (prune_spec e w' Hi' Ho') as Hs. cbv zeta in Hs.
  rewrite SI, SO in Hs. change (pipes w') with (pipes w) in Hs.
  assert (Fi : List.filter (sender_open (pipes w)) oi = oi)
    by apply list_filter_idemp.
  assert (Fo : List.filter (receiver_open (pipes w)) oo = oo)
    by apply list_filter_idemp.
  rewrite Fi, Fo in Hs. rewrite Hs. f_equal.
  unfold w'. clear. destruct oi, oo; simpl;
    rewrite ?delete_delete_eq, ?insert_insert_eq; done.
Qed.

(** X11.  The prune of [dispatch] keeps the wiring and is idempotent: run
    again on the state it returned, it returns the same open pipes and
    leaves that state as it is. *)
Theorem prune_idempotent e w r w' :
  prune e w = Returned r w' →
  prune e w' = Returned r w' ∧ (wired w → wired w').
Proof.
  intros H. split; [by apply (prune_again e w)|]. intros Hw. by apply (prune_wired e w r).
Qed.

Lemma prune_idempotent_witness :
  let w1 := outcome_world (prune 2 ex_received) ex_received in
  prune 2 w1 = Returned ([0], [2]) w1.
Proof.
  intros w1. apply (prune_idempotent 2 ex_received ([0], [2]) w1).
  vm_compute. reflexivity.
Defined.

Lemma mergeTo_queue target src w l b w' :
  queue_inv w l → wired w → mergeTo target src w = Returned b w' →
  queue_inv w' (if b then enqueue l target else l).
Proof.
  intros Hq Hw H. destruct b.
  - apply mergeTo_true in H as (t & Ht & H & _).
    destruct (wired_allocated w src Hw) as [Hinc Hout].
    destruct (merge_transfer_returned _ _ _ _ _ _ Ht H) as (_ & s & Hs & _).
    destruct (merge_transfer_steps target src w l Hq Hinc Hout) as (w5 & E & Hq5 & He5).
    rewrite E in H.
    destruct (merge_exporters target src w5) as [[] w6|] eqn:Hx; [|done].
    injection H as <-.
    assert (Ht5 : edges w5 !! target = Some t) by (by rewrite He5).
    assert (Hs5 : edges w5 !! src = Some s) by (by rewrite He5).
    destruct (merge_exporters_returned w5 target src t s Ht5 Hs5 w6 Hx) as [-> _].
    by apply (queue_inv_ext w5).
  - by apply mergeTo_false in H as [-> _].
Qed.

Lemma mergeTo_well_formed target src w b w' :
  well_formed w → mergeTo target src w = Returned b w' → well_formed w'.
Proof.
  intros [Hw [l Hq]] H. split; [by apply (mergeTo_wired target src w b)|].
  eexists. by apply (mergeTo_queue target src w l b).
Qed.

Lemma LoadOrStore_shape k e w r w' : LoadOrStore k e w = Returned r w' → same_shape w w'.
Proof. rewrite LoadOrStore_eq. intros [= _ <-]. by apply same_shape_pipes_eq. Qed.

Lemma SetEdge_shape d o w w' : SetEdge d o w = Returned tt w' → same_shape w w'.
Proof. unfold SetEdge. munfold. intros [= <-]. by apply same_shape_pipes_eq. Qed.

Lemma merge_on_key_change_well_formed e w w' :
  well_formed w → merge_on_key_change e w = Returned tt w' → well_formed w'.
Proof.
  intros Hwf H. destruct (edges w !! e) as [x|] eqn:Hx.
  2:{ unfold merge_on_key_change in H. rewrite bind_eq in H.
      unfold get_edge in H. by rewrite Hx in H. }
  rewrite (merge_on_key_change_eq e w x Hx) in H.
  destruct (keysDidChange x); [|by injection H as <-].
  destruct (indexKey x) as [k|].
  2:{ injection H as <-. apply (same_shape_well_formed w); [|done].
      by apply same_shape_pipes_eq. }
  destruct (LoadOrStore k e w) as [r w1|] eqn:HL; [|done].
  apply LoadOrStore_shape in HL.
  assert (Hwf1 : well_formed w1) by (by apply (same_shape_well_formed w)).
  destruct r as [o|].
  2:{ injection H as <-. apply (same_shape_well_formed w1); [|done].
      by apply same_shape_pipes_eq. }
  destruct (mergeTo o e w1) as [b wm|] eqn:Hm; [|done].
  apply (mergeTo_well_formed _ _ _ _ _ Hwf1) in Hm.
  destruct b.
  - apply bind_returned in H as ([] & w2 & H2 & H3).
    apply bind_returned in H2 as (y & w2' & Hy & H2).
    unfold get_edge in Hy. destruct (edges wm !! e); [|done]. injection Hy as <- <-.
    apply SetEdge_shape in H2. apply update_edge_shape in H3.
    apply (same_shape_well_formed w2); [done|].
    by apply (same_shape_well_formed wm).
  - apply update_edge_shape in H. by apply (same_shape_well_formed wm).
Qed.

Section invariant.
Variable unpark : nat → list nat → list nat → list nat → M unit.
Hypothesis unpark_well_formed : ∀ e inc updates out w w',
  well_formed w → unpark e inc updates out w = Returned tt w' → well_formed w'.

Lemma dispatch_well_formed e w w' :
  well_formed w → dispatch unpark e w = Returned tt w' → well_formed w'.
Proof.
  intros Hwf H. apply dispatch_returned in H as (oi & oo & w3 & H & Hm).
  apply (merge_on_key_change_well_formed e w3); [|done].
  unfold dispatch_prune in H.
  apply bind_returned in H as ([[inc upd] out] & w1 & H1%dispatch_receive_shape & H).
  apply bind_returned in H as ([] & w1' & He & H).
  apply bind_returned in H as ([] & w2 & Hu & H).
  unfold emit, modify in He. injection He as <-.
  assert (Hwf2 : well_formed w2).
  { eapply unpark_well_formed; [|exact Hu].
    apply (same_shape_well_formed w1); [by apply same_shape_pipes_eq|].
    by apply (same_shape_well_formed w). }
  destruct Hwf2 as [Hw2 [l Hq2]]. split.
  - by apply (prune_wired e w2 (oi, oo)).
  - exists l. by apply (prune_queue e w2 (oi, oo)).
Qed.

Lemma loop_turn_well_formed w t w' :
  well_formed w → loop_turn unpark w = Returned t w' → well_formed w'.
Proof.
  intros Hwf H. unfold loop_turn in H. rewrite bind_eq in H. unfold get in H.
  destruct (stopped w).
  - munfold. unfold_M. simpl in H. injection H as _ <-.
    apply (same_shape_well_formed w); [|done]. by apply same_shape_pipes_eq.
  - apply bind_returned in H as (o & w1 & Hd & H).
    assert (Hwf1 : well_formed w1).
    { destruct Hwf as [Hw [l Hq]]. destruct l as [|e l].
      - rewrite (dequeue_empty w) in Hd by apply Hq. injection Hd as _ <-.
        split; [done|by exists []].
      - destruct (dequeue_head w e l) as (w1' & Hd' & _ & _ & _ & _ & Hi & Ho & _ & Hp & _);
          [apply Hq|].
        destruct (queue_inv_dequeue w e l Hq) as (w1'' & Hd'' & Hq1 & _).
        assert (w1'' = w1) as -> by congruence.
        assert (w1' = w1) as -> by congruence.
        split; [|by exists l].
        apply (wired_ext w); try done. intros q x Hx. exists x. by rewrite Hp. }
    destruct o as [e|].
    + apply bind_returned in H as ([] & w2 & H2 & H). injection H as _ <-.
      by apply (dispatch_well_formed e w1).
    + by injection H as _ <-.
Qed.

End invariant.

Lemma ex_world_well_formed : well_formed ex_world.
Proof. split; [apply ex_world_wired|]. exists [2; 3]. apply ex_world_queue. Qed.

(** X12.  The run loop keeps the scheduler well formed, as long as
    [unpark] does: if the pipes are wired and the queue is a list of
    distinct edges, the members of [waitq], this is so again after every
    [dispatch] that returns and after every turn of the loop, whether it
    exits, waits or dispatches, merges included. *)
Theorem run_loop_keeps_well_formed unpark w :
  (∀ e inc updates out w w',
     well_formed w → unpark e inc updates out w = Returned tt w' → well_formed w') →
  well_formed w →
  (∀ e w', dispatch unpark e w = Returned tt w' → well_formed w') ∧
  (∀ t w', loop_turn unpark w = Returned t w' → well_formed w').
Proof.
  intros Hu Hwf. split.
  - intros e w'. by apply dispatch_well_formed.
  - intros t w'. by apply loop_turn_well_formed.
Qed.

Lemma run_loop_keeps_well_formed_witness :
  well_formed (outcome_world (loop_turn ex_unpark ex_world) ex_world).
Proof.
  destruct (run_loop_keeps_well_formed ex_unpark ex_world) as [_ H].
  - intros e inc updates out w w' Hw [= <-]. exact Hw.
  - apply ex_world_well_formed.
  - apply (H (Dispatched 2)). vm_compute. reflexivity.
Defined.

Lemma loop_turn_eq unpark w :
  loop_turn unpark w =
  if stopped w then Returned Exited (with_closed true w)
  else match dequeue w with
       | Returned None w1 => Returned Waiting w1
       | Returned (Some e) w1 =>
           match dispatch unpark e w1 with
           | Returned _ w' => Returned (Dispatched e) w'
           | Panic msg => Panic msg
           end
       | Panic msg => Panic msg
       end.
Proof.
  unfold loop_turn. rewrite bind_eq. unfold get.
  destruct (stopped w); [done|]. cbv beta iota. rewrite bind_eq.
  by destruct (dequeue w) as [[e|] w1|].
Qed.

(** X13.  One turn of the run loop.  Once the scheduler is stopped, and
    so after [Stop], the turn closes [closed] and exits: nothing is dequeued
    or dispatched, also when edges are queued.  Otherwise, on the empty queue the turn waits and
    leaves the state as it is, and on a queue with head [e] it dispatches
    [e], in the state where [e] has left the queue and [waitq], so that a
    signal for [e] made by its own dispatch queues it again; the dequeue
    touches no slice, pipe or edge. *)
Theorem loop_turn_cases unpark w l :
  queue_inv w l →
  (Stop;; loop_turn unpark) w
    = Returned Exited (with_closed true (with_stopped true w)) ∧
  if stopped w then loop_turn unpark w = Returned Exited (with_closed true w)
  else match l with
       | [] => loop_turn unpark w = Returned Waiting w
       | e :: l' =>
           ∃ w1, dequeue w = Returned (Some e) w1 ∧
             queue_inv w1 l' ∧ (e ∉ waitq w1) ∧
             incoming w1 = incoming w ∧ outgoing w1 = outgoing w ∧
             pipes w1 = pipes w ∧ edges w1 = edges w ∧
             loop_turn unpark w
             = match dispatch unpark e w1 with
               | Returned _ w' => Returned (Dispatched e) w'
               | Panic msg => Panic msg
               end
       end.
Proof.
  intros Hq. split.
  { rewrite bind_eq. unfold Stop, modify. by rewrite loop_turn_eq. }
  rewrite loop_turn_eq.
  destruct (stopped w); [done|]. destruct l as [|e l].
  - by rewrite (dequeue_empty w) by apply Hq.
  - destruct (dequeue_head w e l) as (w1 & Hd & _ & _ & _ & _ & Hi & Ho & He & Hp & _);
      [apply Hq|].
    destruct (queue_inv_dequeue w e l Hq) as (w1' & Hd' & Hq1 & _).
    assert (w1' = w1) as -> by congruence.
    exists w1. rewrite Hd. do 2 (split; [done|]). split.
    { intros Hin%Hq1. destruct Hq as (_ & Hnd & _). by apply NoDup_cons in Hnd as [Hn _]. }
    by do 4 (split; [done|]).
Qed.

Lemma loop_turn_cases_witness :
  ∃ w1, dequeue ex_queued = Returned (Some 3) w1 ∧ queue_inv w1 [1] ∧ (3 ∉ waitq w1).
Proof.
  assert (Hq : queue_inv ex_queued [3; 1]).
  { split; [|split].
    - exists 0, 1. vm_compute. repeat split. by exists 1.
    - repeat constructor; rewrite ?elem_of_cons, ?elem_of_nil; lia.
    - intros e.
      assert (waitq ex_queued = {[3]} ∪ {[1]}) as -> by (vm_compute; reflexivity).
      rewrite elem_of_union, !elem_of_singleton, elem_of_cons, list_elem_of_singleton.
      done. }
  pose proof (loop_turn_cases ex_unpark ex_queued [3; 1] Hq) as H.
  assert (Hs : stopped ex_queued = false) by (vm_compute; reflexivity).
  destruct H as [_ H].
  rewrite Hs in H. destruct H as (w1 & H1 & H2 & H3 & _). by exists w1.
Defined.

(** ** A dispatch that merges *)

Lemma SetEdge_eq d o w :
  SetEdge d o w
  = Returned tt (with_log (log w ++ [EvSetEdge d o]) (with_ef (<[d := o]> (ef w)) w)).
Proof. done. Qed.

Lemma merge_on_key_change_merged e w w' x k o t :
  edges w !! e = Some x → keysDidChange x = true → indexKey x = Some k →
  eindex w !! k = Some o → o ≠ e → edges w !! o = Some t →
  edge_IgnoreCache t = true ∨ edge_IgnoreCache x = false →
  merge_on_key_change e w = Returned tt w' →
  incoming w' = delete e (extend o (slice_at (incoming w) e) (incoming w)) ∧
  outgoing w' = delete e (extend o (slice_at (outgoing w) e) (outgoing w)) ∧
  ef w' = <[e_edge x := o]> (ef w) ∧ waitq w' = {[o]} ∪ waitq w ∧
  (∀ p, p ∈ slice_at (incoming w) e →
        ∃ y, pipes w' !! p = Some y ∧ Target y = Some o) ∧
  (∀ p, p ∈ slice_at (outgoing w) e →
        ∃ y, pipes w' !! p = Some y ∧ From y = Some o ∧
             req_Canceled (request y) = true).
Proof.
  intros Hx Hk Hi Hix Hne Ht Hic H.
  rewrite (merge_on_key_change_eq e w x Hx), Hk, Hi, LoadOrStore_eq in H.
  assert (Hr : load_or_store (eindex w) k e = Some o).
  { unfold load_or_store. rewrite Hix. by rewrite decide_False. }
  rewrite Hr in H. set (w1 := with_log _ _) in H.
  destruct (mergeTo o e w1) as [b wm|] eqn:Hm; [|done].
  destruct b.
  2:{ apply mergeTo_false in Hm as (_ & t' & s' & Ht' & Hs' & Hf & Hg).
      change (edges w1) with (edges w) in Ht', Hs'.
      assert (t' = t) as -> by congruence. assert (s' = x) as -> by congruence.
      destruct Hic; congruence. }
  apply mergeTo_true in Hm as (t' & Ht' & Hm & _).
  destruct (merge_transfer_returned _ _ _ _ _ _ Ht' Hm)
    as (_ & s & Hs & Hai & Hao & _ & HP & HI & HO & HE & Hef & _ & _ & _ & HW & _).
  change (incoming w1) with (incoming w) in *.
  change (outgoing w1) with (outgoing w) in *.
  change (pipes w1) with (pipes w) in *.
  change (edges w1) with (edges w) in *.
  change (waitq w1) with (waitq w) in HW. change (ef w1) with (ef w) in Hef.
  assert (s = x) as -> by congruence.
  apply bind_returned in H as ([] & w2 & H2 & H3).
  apply bind_returned in H2 as (y & w2' & Hy & H2).
  assert (Hxm : edges wm !! e = Some x).
  { rewrite HE. by rewrite lookup_insert_ne. }
  unfold get_edge in Hy. rewrite Hxm in Hy. injection Hy as <- <-.
  rewrite SetEdge_eq in H2. injection H2 as <-.
  rewrite update_edge_eq in H3. simpl in H3. rewrite Hxm in H3. injection H3 as <-.
  simpl. rewrite HI, HO, Hef, HW. do 4 (split; [done|]). split.
  - intros p Hp. unfold allocated in Hai. rewrite Forall_forall in Hai.
    destruct (Hai p Hp) as [y Hy].
    destruct (merged_pipe_fields o (slice_at (incoming w) e) (slice_at (outgoing w) e)
                _ p y Hy) as (y' & Hy' & HT & _).
    exists y'. rewrite HP. split; [done|]. rewrite HT. by rewrite decide_True.
  - intros p Hp. unfold allocated in Hao. rewrite Forall_forall in Hao.
    destruct (Hao p Hp) as [y Hy].
    destruct (merged_pipe_fields o (slice_at (incoming w) e) (slice_at (outgoing w) e)
                _ p y Hy) as (y' & Hy' & _ & HF & _ & _ & _ & _ & _ & _ & HC).
    exists y'. rewrite HP. split; [done|]. rewrite HF, HC. by rewrite !decide_True.
Qed.

(** X14.  A dispatch that merges hands the open pipes of the edge to the
    survivor.  Let the prune of [dispatch e] have returned the open pipes
    [oi] and [oo], with the key flag of [e] set, its index key registered
    for another edge [o], and the merge not refused.  If [dispatch e]
    returns, then [e] has no entry left in [incoming] and [outgoing], the
    slices of [o] are those it had after the prune followed by [oi] and by
    [oo], every pipe of [oi] has [Target] [o], every pipe of [oo] has [From]
    [o] and a canceled request, the factory resolves the descriptor of [e]
    to [o], and [o] is queued. *)
Theorem dispatch_merge_moves_open_pipes
    (unpark : nat → list nat → list nat → list nat → M unit)
    e w0 oi oo w w' x k o t :
  dispatch_prune unpark e w0 = Returned (oi, oo) w →
  edges w !! e = Some x → keysDidChange x = true → indexKey x = Some k →
  eindex w !! k = Some o → o ≠ e → edges w !! o = Some t →
  edge_IgnoreCache t = true ∨ edge_IgnoreCache x = false →
  dispatch unpark e w0 = Returned tt w' →
  incoming w' !! e = None ∧ outgoing w' !! e = None ∧
  slice_at (incoming w') o = slice_at (incoming w) o ++ oi ∧
  slice_at (outgoing w') o = slice_at (outgoing w) o ++ oo ∧
  (∀ p, p ∈ oi → ∃ y, pipes w' !! p = Some y ∧ Target y = Some o) ∧
  (∀ p, p ∈ oo → ∃ y, pipes w' !! p = Some y ∧ From y = Some o ∧
                      req_Canceled (request y) = true) ∧
  ef w' !! e_edge x = Some o ∧ o ∈ waitq w'.
Proof.
  intros Hp Hx Hk Hi Hix Hne Ht Hic H.
  apply dispatch_returned in H as (oi' & oo' & w3 & Hp' & Hm).
  rewrite Hp in Hp'. injection Hp' as <- <- <-.
  destruct (dispatch_prune_returned _ _ _ _ _ Hp) as (w2 & Hpr).
  apply prune_slices in Hpr as [<- <-].
  destruct (merge_on_key_change_merged e w w' x k o t Hx Hk Hi Hix Hne Ht Hic Hm)
    as (HI & HO & Hef & HW & HT & HF).
  split; [by rewrite HI, lookup_delete_eq|].
  split; [by rewrite HO, lookup_delete_eq|].
  split; [by rewrite HI, slice_at_delete, decide_False, slice_at_extend|].
  split; [by rewrite HO, slice_at_delete, decide_False, slice_at_extend|].
  do 2 (split; [done|]). split; [by rewrite Hef, lookup_insert_eq|].
  rewrite HW. apply elem_of_union. left. by apply elem_of_singleton.
Qed.

Lemma dispatch_merge_moves_open_pipes_witness :
  let w' := outcome_world (dispatch ex_unpark 2 ex_world) ex_world in
  incoming w' !! 2 = None ∧ ef w' !! ex_dB = Some 1 ∧ 1 ∈ waitq w'.
Proof.
  intros w'.
  destruct (dispatch_merge_moves_open_pipes ex_unpark 2 ex_world [0] [1; 2]
              (outcome_world (dispatch_prune ex_unpark 2 ex_world) ex_world)
              w' (set_hasActiveOutgoing true ex_eB) "k"%string 1 ex_eA)
    as (H1 & _ & _ & _ & _ & _ & H2 & H3).
  - vm_compute. reflexivity.
  - vm_compute. reflexivity.
  - reflexivity.
  - reflexivity.
  - vm_compute. reflexivity.
  - lia.
  - vm_compute. reflexivity.
  - right. reflexivity.
  - vm_compute. reflexivity.
  - split; [exact H1|]. split; [exact H2|exact H3].
Defined.
